(** * A-star path finding on a square grid: the engine of [a_star_visualiser.py]

    The development embeds the grid model ([Node], [create_grid],
    [update_neighbors]), the search engine ([generate_path]), the path
    reconstructor ([reconstruct_path]) and the part of the control loop that
    starts a search, and proves properties of them.

    Modelling conventions.
    - Python integers are [Z]; [float("inf")] is the constructor [Inf] of
      [score].
    - A [Node] object is mutable and is compared and hashed by identity.  The
      only nodes of the program are the ones stored in the grid, so the
      identity of a node is its place [(i, j)] in the list of lists: a
      reference [ref] is a pair of list indices, and the grid is the store.
      A reference that points outside the grid has no counterpart in Python.
    - Exceptions are values of [exn]; fallible code returns [res].
    - [queue.PriorityQueue] is library code: it is taken through its
      contract (see [PriorityQueue]), with one executable instance.
    - Rendering ([draw_function], [sleep]) reads the grid and changes
      nothing: it is left out. *)

From stdpp Require Import numbers gmap list.

Local Open Scope Z_scope.

(** ** Exceptions *)

Inductive exn : Type :=
| IndexError
| KeyError
| AttributeError
| ZeroDivisionError.

Inductive res (A : Type) : Type :=
| Ok (a : A)
| Raise (e : exn).
Arguments Ok {A} a.
Arguments Raise {A} e.

#[global] Instance res_ret : MRet res := λ A a, Ok a.

#[global] Instance res_bind : MBind res := λ A B k m,
  match m with
  | Ok a => k a
  | Raise e => Raise e
  end.

(** The place of [l[i]] in a Python list of length [len]: negative indices
    count from the end, anything else out of range raises [IndexError]. *)
Definition py_index (len : nat) (i : Z) : res nat :=
  let n := Z.of_nat len in
  let j := if 0 <=? i then i else n + i in
  if (0 <=? j) && (j <? n) then Ok (Z.to_nat j) else Raise IndexError.

(** [l[i]] *)
Definition py_getitem {A : Type} (l : list A) (i : Z) : res A :=
  j ← py_index (length l) i;
  match l !! j with
  | Some a => Ok a
  | None => Raise IndexError
  end.

(** ** Colours and node states *)

Abbreviation Color := (Z * Z * Z)%type (only parsing).

Module colors.
Definition white : Color := (255, 255, 255).
Definition gray : Color := (128, 128, 128).
Definition black : Color := (0, 0, 0).
Definition red : Color := (255, 0, 0).
Definition green : Color := (0, 255, 0).
Definition blue : Color := (0, 0, 255).
Definition turquoise : Color := (0, 255, 255).
Definition purple : Color := (255, 0, 255).
Definition yellow : Color := (255, 255, 0).
Definition orange : Color := (255, 200, 0).
End colors.

(** The name-to-colour half of [Node.states]. *)
Module states.
Definition closed : Color := colors.red.
Definition open : Color := colors.green.
Definition barrier : Color := colors.black.
Definition start : Color := colors.orange.
Definition end_ : Color := colors.turquoise.
Definition path : Color := colors.purple.
End states.

Definition color_eqb (a b : Color) : bool := bool_decide (a = b).

(** ** Nodes *)

Abbreviation ref := (nat * nat)%type (only parsing).

Record Node : Type := mkNode {
  row : Z;
  column : Z;
  width : Z;
  total_rows : Z;
  x : Z;
  y : Z;
  color : Color;
  neighbors : list ref
}.

(** [Node.__init__] *)
Definition Node_init (row column width total_rows : Z) : Node :=
  {| row := row;
     column := column;
     width := width;
     total_rows := total_rows;
     x := row * width;
     y := column * width;
     color := colors.white;
     neighbors := [] |}.

Definition get_pos (n : Node) : Z * Z := (row n, column n).
Arguments get_pos : simpl never.

Definition set_color (c : Color) (n : Node) : Node :=
  {| row := row n; column := column n; width := width n;
     total_rows := total_rows n; x := x n; y := y n;
     color := c; neighbors := neighbors n |}.

Definition is_closed (n : Node) : bool := color_eqb (color n) states.closed.
Definition is_open (n : Node) : bool := color_eqb (color n) states.open.
Definition is_barrier (n : Node) : bool := color_eqb (color n) states.barrier.
Definition is_start (n : Node) : bool := color_eqb (color n) states.start.
Definition is_end (n : Node) : bool := color_eqb (color n) states.end_.
Definition is_path (n : Node) : bool := color_eqb (color n) states.path.

Definition make_closed : Node → Node := set_color states.closed.
Definition make_open : Node → Node := set_color states.open.
Definition make_barrier : Node → Node := set_color states.barrier.
Definition make_start : Node → Node := set_color states.start.
Definition make_end : Node → Node := set_color states.end_.
Definition make_path : Node → Node := set_color states.path.

(** [Node.reset] *)
Definition reset (n : Node) : Node :=
  {| row := row n; column := column n; width := width n;
     total_rows := total_rows n; x := x n; y := y n;
     color := colors.white; neighbors := [] |}.

(** ** The grid *)

Abbreviation Grid := (list (list Node)) (only parsing).

Definition get_node (grid : Grid) (r : ref) : option Node :=
  match grid !! r.1 with
  | Some line => line !! r.2
  | None => None
  end.

(** An attribute update through a reference. *)
Definition modify_node (f : Node → Node) (r : ref) (grid : Grid) : Grid :=
  alter (alter f r.2) r.1 grid.

(** [manhattan_distance] *)
Definition manhattan_distance (point1 point2 : Z * Z) : Z :=
  let '(x1, y1) := point1 in
  let '(x2, y2) := point2 in
  Z.abs (x1 - x2) + Z.abs (y1 - y2).
Arguments manhattan_distance : simpl never.

(** [create_grid]; [//] with a zero divisor raises. *)
Definition create_grid (total_rows surface_width : Z) : res Grid :=
  if total_rows =? 0 then Raise ZeroDivisionError
  else
    let node_width := surface_width `div` total_rows in
    Ok ((λ row, (λ column, Node_init row column node_width total_rows)
                  <$> seqZ 0 total_rows)
          <$> seqZ 0 total_rows).

(** [get_clicked_position], on integer mouse coordinates. *)
Definition get_clicked_position (coords : Z * Z) (total_rows surface_width : Z)
  : res (Z * Z) :=
  if total_rows =? 0 then Raise ZeroDivisionError
  else
    let node_width := surface_width `div` total_rows in
    let '(x, y) := coords in
    if node_width =? 0 then Raise ZeroDivisionError
    else Ok (x `div` node_width, y `div` node_width).

(** [grid[i][j]], with the reference of the node found. *)
Definition grid_item (grid : Grid) (i j : Z) : res (ref * Node) :=
  i' ← py_index (length grid) i;
  line ← py_getitem grid i;
  j' ← py_index (length line) j;
  n ← py_getitem line j;
  Ok ((i', j'), n).

(** One test of [update_neighbors]: [if guard and not
    grid[i][j].is_barrier(): self.neighbors.append(grid[i][j])], on the
    list [acc] of neighbours. *)
Definition append_if_free (guard : bool) (grid : Grid) (i j : Z)
    (acc : list ref) : res (list ref) :=
  if guard then
    rn ← grid_item grid i j;
    if negb (is_barrier rn.2) then Ok (acc ++ [rn.1]) else Ok acc
  else Ok acc.

Definition set_neighbors (l : list ref) (n : Node) : Node :=
  {| row := row n; column := column n; width := width n;
     total_rows := total_rows n; x := x n; y := y n;
     color := color n; neighbors := l |}.

(** [Node.update_neighbors]: [self] is the node stored at [self_ref].  The
    four tests run in the source's order (above, below, left, right); each
    reads the grid only when its bounds guard holds, and appends to the
    list the node already has. *)
Definition update_neighbors (self_ref : ref) (grid : Grid) : res Grid :=
  match get_node grid self_ref with
  | None => Ok grid
  | Some self =>
      l1 ← append_if_free (0 <? row self) grid
             (row self - 1) (column self) (neighbors self);
      l2 ← append_if_free (row self <? total_rows self - 1) grid
             (row self + 1) (column self) l1;
      l3 ← append_if_free (0 <? column self) grid
             (row self) (column self - 1) l2;
      l4 ← append_if_free (column self <? total_rows self - 1) grid
             (row self) (column self + 1) l3;
      Ok (modify_node (set_neighbors l4) self_ref grid)
  end.

(** The references of a grid, in the order of
    [for row in grid: for node in row]. *)
Definition grid_refs (grid : Grid) : list ref :=
  mjoin (imap (λ i line, (λ j, (i, j)) <$> seq 0 (length line)) grid).

(** The body of the two nested [for] loops that [main] runs when SPACE is
    pressed, for the node at [r]: the node is reset unless it is a barrier,
    the end node or the start node, and then has its neighbours appended. *)
Definition prepare_node (grid : Grid) (r : ref) : res Grid :=
  match get_node grid r with
  | None => Ok grid
  | Some node =>
      let grid1 :=
        if negb (is_barrier node) && negb (is_end node) && negb (is_start node)
        then modify_node reset r grid
        else grid in
      update_neighbors r grid1
  end.

(** A [for] loop over [l] whose body may raise. *)
Fixpoint for_each {S A : Type} (body : S → A → res S) (s : S) (l : list A)
  : res S :=
  match l with
  | [] => Ok s
  | a :: l' => s' ← body s a; for_each body s' l'
  end.

(** The preparation of the grid that precedes every call of
    [generate_path] in [main] (the code has no name for it). *)
Definition reset_for_new_run (grid : Grid) : res Grid :=
  for_each prepare_node grid (grid_refs grid).

(** ** Scores and the frontier *)

(** A value of [g_score] or [f_score]: a Python [int] or [float("inf")]. *)
Inductive score : Type :=
| Fin (z : Z)
| Inf.

#[global] Instance score_eq_dec : EqDecision score.
Proof. solve_decision. Defined.

Definition score_add (a : score) (b : Z) : score :=
  match a with
  | Fin z => Fin (z + b)
  | Inf => Inf
  end.

Definition score_ltb (a b : score) : bool :=
  match a, b with
  | Fin u, Fin v => u <? v
  | Fin _, Inf => true
  | Inf, _ => false
  end.
Arguments score_ltb : simpl never.

(** A frontier element [(f_score, count, node)]. *)
Abbreviation entry := (score * Z * (nat * nat))%type (only parsing).

Definition entry_node (e : entry) : ref := e.2.
Definition entry_count (e : entry) : Z := e.1.2.
Definition entry_priority (e : entry) : score := e.1.1.

(** [Node.__lt__] *)
Definition Node_lt (self other : ref) : bool := false.

(** Python's [<] on the tuples: the first components that differ decide.
    Two references to one node are equal, and then the tuples are equal and
    [<] is false, which is also what [Node.__lt__] answers. *)
Definition entry_ltb (a b : entry) : bool :=
  if negb (bool_decide (entry_priority a = entry_priority b))
  then score_ltb (entry_priority a) (entry_priority b)
  else if negb (entry_count a =? entry_count b)
  then entry_count a <? entry_count b
  else Node_lt (entry_node a) (entry_node b).

(** The contract of [queue.PriorityQueue] as the program uses it.  The queue
    is its list of elements (the array of the binary heap); [put] adds one
    element, [get] removes an element that no other element is below.
    Nothing is said about which one when several qualify, nor about the
    arrangement of the list. *)
Class PriorityQueue : Type := {
  pq_put : entry → list entry → list entry;
  pq_get : list entry → option (entry * list entry);
  pq_put_perm : ∀ e q, pq_put e q ≡ₚ e :: q;
  pq_get_perm : ∀ q e q', pq_get q = Some (e, q') → q ≡ₚ e :: q';
  pq_get_min : ∀ q e q' e',
    pq_get q = Some (e, q') → e' ∈ q → entry_ltb e' e = false;
  pq_get_nonempty : ∀ q, q ≠ [] → is_Some (pq_get q)
}.

(** An executable queue: [put] conses, [get] removes the first element that
    nothing in the list is below. *)
Fixpoint least (e : entry) (q : list entry) : entry :=
  match q with
  | [] => e
  | e' :: q' => if entry_ltb e' (least e q') then e' else least e q'
  end.

Fixpoint remove_first (e : entry) (q : list entry) : list entry :=
  match q with
  | [] => []
  | e' :: q' => if decide (e' = e) then q' else e' :: remove_first e q'
  end.

Definition list_get (q : list entry) : option (entry * list entry) :=
  match q with
  | [] => None
  | e :: q' => let m := least e q' in Some (m, remove_first m q)
  end.

(** ** The search run *)

Inductive Key : Type := K_q | K_SPACE | K_r | K_other.

(** What [generate_path] looks at in a pygame event: its type, and its key
    when it is a key press. *)
Inductive Event : Type :=
| QUIT
| KEYDOWN (key : Key)
| OtherEvent.

Definition stops_run (event : Event) : bool :=
  match event with
  | QUIT => true
  | KEYDOWN K_q => true
  | _ => false
  end.

(** The local variables of [generate_path], the grid they point into, and
    the list of the nodes taken from the frontier so far (kept for the
    statements; the code has no such variable). *)
Record SearchState : Type := mkState {
  count : Z;
  origin_node : gmap ref ref;
  open_set : list entry;
  open_set_hash : gset ref;
  g_score : gmap ref score;
  f_score : gmap ref score;
  grid : Grid;
  visited : list ref
}.

(** [d[k]] on a dict *)
Definition dict_get {V : Type} (d : gmap ref V) (k : ref) : res V :=
  match d !! k with
  | Some v => Ok v
  | None => Raise KeyError
  end.

(** Reading an attribute through a reference.  A reference outside the
    grid, which Python cannot form, is treated like [None]. *)
Definition deref (grid : Grid) (r : ref) : res Node :=
  match get_node grid r with
  | Some n => Ok n
  | None => Raise AttributeError
  end.

(** [{node: float("inf") for row in grid for node in row}] *)
Definition all_inf (grid : Grid) : gmap ref score :=
  list_to_map ((λ r, (r, Inf)) <$> grid_refs grid).

(** [reconstruct_path].  The result lists the nodes the loop walks through,
    in the order it colours them; [None] when the fuel does not suffice
    (an origin map with a cycle keeps the loop running for ever). *)
Fixpoint reconstruct_path (fuel : nat) (origin_node : gmap ref ref)
    (current_node : ref) (grid : Grid) : option (Grid * list ref) :=
  match fuel with
  | O => None
  | S fuel' =>
      match origin_node !! current_node with
      | None => Some (grid, [])
      | Some previous =>
          match reconstruct_path fuel' origin_node previous
                  (modify_node make_path previous grid) with
          | Some (grid', path) => Some (grid', previous :: path)
          | None => None
          end
      end
  end.

(** [walk origin current path]: [path] lists the successive values of
    [origin_node[current_node]], up to the first node that has no entry. *)
Fixpoint walk (origin : gmap ref ref) (current : ref) (path : list ref)
  : Prop :=
  match path with
  | [] => origin !! current = None
  | previous :: path' =>
      origin !! current = Some previous ∧ walk origin previous path'
  end.

(** How a call of [generate_path] ends.  The function returns [None] at
    three places, which are told apart here: the [return] in the event loop
    ([Cancelled]), the [return] after the path is reconstructed ([Found],
    with the nodes [reconstruct_path] walked through) and the end of the
    [while] loop ([Exhausted]).  [Raised] is an exception leaving the
    function, [OutOfFuel] is no result within the given number of steps. *)
Inductive RunResult : Type :=
| Found (st : SearchState) (path : list ref)
| Exhausted (st : SearchState)
| Cancelled (st : SearchState)
| Raised (e : exn)
| OutOfFuel.

Definition pq_empty (q : list entry) : bool :=
  match q with
  | [] => true
  | _ :: _ => false
  end.

Definition with_grid (g : Grid) (st : SearchState) : SearchState :=
  {| count := count st; origin_node := origin_node st;
     open_set := open_set st; open_set_hash := open_set_hash st;
     g_score := g_score st; f_score := f_score st;
     grid := g; visited := visited st |}.

Section Engine.
Context {PQ : PriorityQueue}.

(** The statements of [generate_path] before the loop.  [get_pos] is read
    through the two references. *)
Definition initial_state (grid : Grid) (start_node end_node : ref)
  : res SearchState :=
  let count := 0 in
  let origin_node := ∅ in
  let open_set := pq_put (Fin 0, count, start_node) [] in
  let open_set_hash := {[start_node]} in
  let g_score := <[start_node := Fin 0]> (all_inf grid) in
  s ← deref grid start_node;
  e ← deref grid end_node;
  let f_score :=
    <[start_node := Fin (manhattan_distance (get_pos s) (get_pos e))]>
      (all_inf grid) in
  Ok {| count := count; origin_node := origin_node; open_set := open_set;
        open_set_hash := open_set_hash; g_score := g_score;
        f_score := f_score; grid := grid; visited := [] |}.

(** The body of [for neighbor in current_node.neighbors]. *)
Definition visit_neighbor (end_node current_node : ref) (st : SearchState)
    (neighbor : ref) : res SearchState :=
  g_current ← dict_get (g_score st) current_node;
  let temp_g_score := score_add g_current 1 in
  g_neighbor ← dict_get (g_score st) neighbor;
  if score_ltb temp_g_score g_neighbor then
    n ← deref (grid st) neighbor;
    e ← deref (grid st) end_node;
    let f := score_add temp_g_score
               (manhattan_distance (get_pos n) (get_pos e)) in
    if decide (neighbor ∈ open_set_hash st) then
      Ok {| count := count st;
            origin_node := <[neighbor := current_node]> (origin_node st);
            open_set := open_set st;
            open_set_hash := open_set_hash st;
            g_score := <[neighbor := temp_g_score]> (g_score st);
            f_score := <[neighbor := f]> (f_score st);
            grid := grid st;
            visited := visited st |}
    else
      Ok {| count := count st + 1;
            origin_node := <[neighbor := current_node]> (origin_node st);
            open_set := pq_put (f, count st + 1, neighbor) (open_set st);
            open_set_hash := {[neighbor]} ∪ open_set_hash st;
            g_score := <[neighbor := temp_g_score]> (g_score st);
            f_score := <[neighbor := f]> (f_score st);
            grid := modify_node make_open neighbor (grid st);
            visited := visited st |}
  else Ok st.

(** The rest of an iteration for a node that is not the end node: the
    neighbours, then the colour of the node and of the end node. *)
Definition expand (start_node end_node current_node : ref)
    (st : SearchState) : res SearchState :=
  current ← deref (grid st) current_node;
  st1 ← for_each (visit_neighbor end_node current_node) st (neighbors current);
  let grid1 :=
    if decide (current_node ≠ start_node)
    then modify_node make_closed current_node (grid st1)
    else grid st1 in
  Ok (with_grid (modify_node make_end end_node grid1) st1).

(** The branch [if current_node == end_node]. *)
Definition finish (fuel : nat) (start_node end_node : ref)
    (st : SearchState) : RunResult :=
  match reconstruct_path fuel (origin_node st) end_node (grid st) with
  | None => OutOfFuel
  | Some (grid', path) =>
      Found (with_grid (modify_node make_start start_node
                          (modify_node make_end end_node grid')) st)
            path
  end.

(** [open_set.get()[2]] and [open_set_hash.remove(current_node)]. *)
Definition take (item : entry) (rest : list entry) (st : SearchState)
  : SearchState :=
  {| count := count st; origin_node := origin_node st;
     open_set := rest;
     open_set_hash := open_set_hash st ∖ {[entry_node item]};
     g_score := g_score st; f_score := f_score st;
     grid := grid st; visited := visited st ++ [entry_node item] |}.

(** The [while] loop.  [events] holds what [pygame.event.get()] returns at
    each iteration, first iteration first; past its end there are no
    events.  A [get] that gives nothing on a queue that is not empty would
    block, and counts as no result. *)
Fixpoint search_loop (fuel : nat) (start_node end_node : ref)
    (events : list (list Event)) (st : SearchState) : RunResult :=
  match fuel with
  | O => OutOfFuel
  | S fuel' =>
      if pq_empty (open_set st) then Exhausted st
      else if existsb stops_run (hd [] events) then Cancelled st
      else
        match pq_get (open_set st) with
        | None => OutOfFuel
        | Some (item, rest) =>
            let current_node := entry_node item in
            if decide (current_node ∈ open_set_hash st) then
              let st1 := take item rest st in
              if decide (current_node = end_node)
              then finish fuel' start_node end_node st1
              else
                match expand start_node end_node current_node st1 with
                | Raise e => Raised e
                | Ok st2 =>
                    search_loop fuel' start_node end_node (tl events) st2
                end
            else Raised KeyError
        end
  end.

(** [generate_path].  Its two node arguments may be [None], as [main] passes
    them when no start or end node is chosen: [get_pos] is then looked up
    on [None], before the loop and before any node is touched. *)
Definition generate_path (fuel : nat) (grid : Grid)
    (start_node end_node : option ref) (events : list (list Event))
  : RunResult :=
  match start_node, end_node with
  | Some s, Some e =>
      match initial_state grid s e with
      | Ok st => search_loop fuel s e events st
      | Raise err => Raised err
      end
  | _, _ => Raised AttributeError
  end.

(** What [main] does when SPACE is pressed: the preparation of the grid,
    then the call of [generate_path].  The result pairs the grid as the
    preparation left it with the way the call ended. *)
Definition on_space (fuel : nat) (grid : Grid)
    (start_node end_node : option ref) (events : list (list Event))
  : res (Grid * RunResult) :=
  grid' ← reset_for_new_run grid;
  Ok (grid', generate_path fuel grid' start_node end_node events).

End Engine.

(** ** Grids for the examples *)

(** A grid as the clicks of [main] leave it: a start node, an end node and
    barriers placed on a fresh grid of 600 pixels. *)
Definition clicked_grid (n : Z) (s e : ref) (barriers : list ref) : Grid :=
  match create_grid n 600 with
  | Ok g =>
      foldr (modify_node make_barrier)
        (modify_node make_end e (modify_node make_start s g)) barriers
  | Raise _ => []
  end.

(** The same grid after the preparation that precedes a search. *)
Definition prepared_grid (n : Z) (s e : ref) (barriers : list ref) : Grid :=
  match reset_for_new_run (clicked_grid n s e barriers) with
  | Ok g => g
  | Raise _ => []
  end.

(** The node a reference points to (a fresh node for a reference outside
    the grid). *)
Definition node_at (g : Grid) (r : ref) : Node :=
  default (Node_init 0 0 0 0) (get_node g r).

Definition color_at (g : Grid) (r : ref) : option Color :=
  color <$> get_node g r.

Definition neighbors_at (g : Grid) (r : ref) : option (list ref) :=
  neighbors <$> get_node g r.

(** The colour of a node after the preparation for a run: barrier, end and
    start nodes keep theirs, every other node is white. *)
Definition cleared_color (c : Color) : Color :=
  if color_eqb c states.barrier || color_eqb c states.end_
     || color_eqb c states.start
  then c
  else colors.white.

(** ** Grids on which a search is run *)

(** The grid coordinates of a reference. *)
Definition pos (r : ref) : Z * Z := (Z.of_nat r.1, Z.of_nat r.2).
Arguments pos : simpl never.

(** Two places are 4-adjacent: one step up, down, left or right. *)
Definition adjacent (u v : ref) : bool :=
  manhattan_distance (pos u) (pos v) =? 1.

(** A place of the grid that holds a node which is not a barrier. *)
Definition passable (g : Grid) (v : ref) : bool :=
  match get_node g v with
  | Some n => negb (is_barrier n)
  | None => false
  end.

(** What [generate_path] expects of the node at [r]: the node knows its own
    place, and its neighbour list holds exactly the adjacent places that are
    not barriers (in any order, repetitions allowed). *)
Definition node_prepared (g : Grid) (r : ref) (n : Node) : bool :=
  (row n =? Z.of_nat r.1) && (column n =? Z.of_nat r.2) &&
  forallb (λ v, adjacent r v && passable g v) (neighbors n) &&
  forallb (λ v, implb (adjacent r v && passable g v)
                  (bool_decide (v ∈ neighbors n))) (grid_refs g).

(** A square grid whose nodes are all prepared: the state in which [main]
    hands the grid to [generate_path]. *)
Definition prepared (g : Grid) : bool :=
  forallb (λ line : list Node, (length line =? length g)%nat) g &&
  forallb (λ r, match get_node g r with
                | Some n => node_prepared g r n
                | None => false
                end) (grid_refs g).

Definition all_nodes (p : Node → bool) (g : Grid) : bool :=
  forallb (λ line : list Node, forallb p line) g.

Definition no_barrier (g : Grid) : bool :=
  all_nodes (λ n, negb (is_barrier n)) g.

Definition no_path_node (g : Grid) : bool :=
  all_nodes (λ n, negb (is_path n)) g.

(** [connected g u w]: a sequence of 4-adjacent cells that are not barriers
    leads from [u] to [w] (both included). *)
Inductive connected (g : Grid) : ref → ref → Prop :=
| connected_here u :
    passable g u = true → connected g u u
| connected_step u v w :
    passable g u = true → adjacent u v = true → connected g v w →
    connected g u w.

(** A set of places that contains [s], leaves out [e] and cannot be left by
    a step to an adjacent cell that is not a barrier. *)
Definition separates (g : Grid) (s e : ref) (side : list ref) : bool :=
  bool_decide (s ∈ side) && negb (bool_decide (e ∈ side)) &&
  forallb (λ u, forallb (λ v, implb (adjacent u v && passable g v)
                                 (bool_decide (v ∈ side)))
                  (grid_refs g)) side.

(** No event of the list stops the run. *)
Definition never_stopped (events : list (list Event)) : bool :=
  forallb (λ batch, negb (existsb stops_run batch)) events.

(** ** Invariants of the search loop *)

(** Two grids hold the same nodes up to their colours. *)
Definition uncolored (n : Node) : Node := set_color colors.white n.

Definition same_shape (g g' : Grid) : Prop :=
  ∀ r, uncolored <$> get_node g' r = uncolored <$> get_node g r.

(** The node has been reached: its [g_score] is a number. *)
Definition reached (st : SearchState) (v : ref) : Prop :=
  ∃ k, g_score st !! v = Some (Fin k).

(** The node has been reached and is not waiting in the frontier. *)
Definition expanded (st : SearchState) (v : ref) : Prop :=
  reached st v ∧ v ∉ open_set_hash st.

(** What holds of the variables of [generate_path] at every iteration, for
    a run on the prepared grid [g0]. *)
Record base_inv (g0 : Grid) (st : SearchState) : Prop := {
  inv_shape : same_shape g0 (grid st);
  inv_dom : ∀ r, is_Some (g_score st !! r) ↔ is_Some (get_node g0 r);
  inv_hash : ∀ v, v ∈ open_set_hash st ↔ v ∈ entry_node <$> open_set st;
  inv_nodup : NoDup (entry_node <$> open_set st);
  inv_open_reached : ∀ v, v ∈ open_set_hash st → reached st v;
  inv_nonneg : ∀ v k, g_score st !! v = Some (Fin k) → 0 ≤ k
}.

(** The places of the grid, each once. *)
Definition cells (g0 : Grid) : list ref := elements (dom (all_inf g0)).

(** The measure that shows the loop ends: the number of nodes not yet
    reached, then twice the sum of the finite scores plus the size of the
    frontier. *)
Definition unreached (g0 : Grid) (st : SearchState) : nat :=
  sum_list_with
    (λ r, match g_score st !! r with Some Inf => 1 | _ => 0 end)%nat
    (cells g0).

Definition total_cost (g0 : Grid) (st : SearchState) : nat :=
  sum_list_with
    (λ r, match g_score st !! r with
          | Some (Fin k) => Z.to_nat k
          | _ => 0%nat
          end)
    (cells g0).

Definition work (g0 : Grid) (st : SearchState) : nat :=
  (2 * total_cost g0 st + length (open_set st))%nat.

Definition no_regress (g0 : Grid) (st' st : SearchState) : Prop :=
  (unreached g0 st' < unreached g0 st)%nat ∨
  (unreached g0 st' = unreached g0 st ∧ (work g0 st' ≤ work g0 st)%nat).

Definition progress (g0 : Grid) (st' st : SearchState) : Prop :=
  (unreached g0 st' < unreached g0 st)%nat ∨
  (unreached g0 st' = unreached g0 st ∧ (work g0 st' < work g0 st)%nat).

(** The state after a relaxation of [v] from [cur], whose score is [k]:
    with [v] already in the frontier, and with [v] put into it. *)
Definition improved (cur v : ref) (k : Z) (e : ref) (st : SearchState)
  : SearchState :=
  {| count := count st;
     origin_node := <[v := cur]> (origin_node st);
     open_set := open_set st;
     open_set_hash := open_set_hash st;
     g_score := <[v := Fin (k + 1)]> (g_score st);
     f_score :=
       <[v := Fin (k + 1 + manhattan_distance (pos v) (pos e))]> (f_score st);
     grid := grid st;
     visited := visited st |}.

Definition pushed {PQ : PriorityQueue} (cur v : ref) (k : Z) (e : ref)
    (st : SearchState) : SearchState :=
  {| count := count st + 1;
     origin_node := <[v := cur]> (origin_node st);
     open_set :=
       pq_put (Fin (k + 1 + manhattan_distance (pos v) (pos e)),
               count st + 1, v) (open_set st);
     open_set_hash := {[v]} ∪ open_set_hash st;
     g_score := <[v := Fin (k + 1)]> (g_score st);
     f_score :=
       <[v := Fin (k + 1 + manhattan_distance (pos v) (pos e))]> (f_score st);
     grid := modify_node make_open v (grid st);
     visited := visited st |}.

(** What holds in addition at every iteration when the grid has no path
    node at the start of the run and the end node cannot be reached.  The
    node [busy], if any, is the one whose neighbours are being visited. *)
Record unreachable_inv (g0 : Grid) (s : ref) (busy : option ref)
    (st : SearchState) : Prop := {
  ui_start : g_score st !! s = Some (Fin 0);
  ui_start_color : color_at (grid st) s = color_at g0 s;
  ui_connected : ∀ v, reached st v → connected g0 s v;
  ui_neighbors : ∀ u v,
    expanded st u → Some u ≠ busy →
    adjacent u v = true → passable g0 v = true → reached st v;
  ui_closed : ∀ u,
    expanded st u → Some u ≠ busy → u ≠ s →
    color_at (grid st) u = Some states.closed;
  ui_no_path : ∀ v, color_at (grid st) v ≠ Some states.path;
  ui_busy : ∀ u, busy = Some u → u ∉ open_set_hash st
}.

(** The Manhattan distance between two places of the grid. *)
Definition dist (u v : ref) : Z := manhattan_distance (pos u) (pos v).

(** The place lies on a shortest way from [s] to [e] in a grid without
    barriers. *)
Definition on_rect (s e v : ref) : Prop := dist s v + dist v e = dist s e.

(** What holds in addition at every iteration after the first one when the
    grid has no barrier, as long as the end node has not been taken from
    the frontier.  The nodes on shortest ways from [s] to [e] are the ones
    put in the frontier with priority [dist s e]; they leave it in the order
    of their distance from [s]. *)
Record shortest_inv (g0 : Grid) (s e : ref) (busy : option ref)
    (st : SearchState) : Prop := {
  si_start :
    g_score st !! s = Some (Fin 0) ∧ (s ∉ open_set_hash st) ∧
    origin_node st !! s = None;
  si_origin : ∀ v k,
    g_score st !! v = Some (Fin k) → v ≠ s →
    ∃ u, origin_node st !! v = Some u ∧ expanded st u ∧
         adjacent u v = true ∧ g_score st !! u = Some (Fin (k - 1));
  si_expanded : ∀ u,
    expanded st u → g_score st !! u = Some (Fin (dist s u)) ∧ on_rect s e u;
  si_not_end : ∀ u, expanded st u → u ≠ e;
  si_neighbors : ∀ u w,
    expanded st u → Some u ≠ busy →
    adjacent u w = true → is_Some (get_node g0 w) →
    ∃ kw, g_score st !! w = Some (Fin kw) ∧ kw ≤ dist s u + 1;
  si_lower : ∀ v k, g_score st !! v = Some (Fin k) → dist s v ≤ k;
  si_priority : ∀ p c v,
    (p, c, v) ∈ open_set st →
    ∃ k pp, g_score st !! v = Some (Fin k) ∧ p = Fin pp ∧ k + dist v e ≤ pp;
  si_good : ∀ p c v,
    (p, c, v) ∈ open_set st → on_rect s e v →
    p = Fin (dist s e) ∧ g_score st !! v = Some (Fin (dist s v));
  si_order : ∀ c1 v1 c2 v2,
    (Fin (dist s e), c1, v1) ∈ open_set st →
    (Fin (dist s e), c2, v2) ∈ open_set st →
    (c1 ≤ c2 → dist s v1 ≤ dist s v2) ∧ dist s v2 ≤ dist s v1 + 1;
  si_layers : ∀ c v w,
    (Fin (dist s e), c, v) ∈ open_set st →
    is_Some (get_node g0 w) → on_rect s e w → dist s w < dist s v →
    reached st w;
  si_counts : ∀ p c v, (p, c, v) ∈ open_set st → c ≤ count st
}.

(** What is known of the node [cur] whose neighbours are being visited. *)
Record visiting (g0 : Grid) (s e cur : ref) (st : SearchState) : Prop := {
  vi_level : ∀ c v,
    (Fin (dist s e), c, v) ∈ open_set st →
    dist s cur ≤ dist s v ≤ dist s cur + 1;
  vi_below : ∀ w,
    is_Some (get_node g0 w) → on_rect s e w → dist s w ≤ dist s cur →
    reached st w
}.

(** The state before the first iteration, up to the arrangement of the
    frontier. *)
Definition initial_like (g0 : Grid) (s : ref) (st : SearchState) : Prop :=
  count st = 0 ∧ origin_node st = ∅ ∧
  open_set st ≡ₚ [(Fin 0, 0, s)] ∧ open_set_hash st = {[s]} ∧
  g_score st = <[s := Fin 0]> (all_inf g0).

(** Every node of the list is adjacent to the one before it, the first one
    to [v]. *)
Fixpoint adjacent_chain (v : ref) (path : list ref) : Prop :=
  match path with
  | [] => True
  | u :: path' => adjacent v u = true ∧ adjacent_chain u path'
  end.

(** ** Runs with two priority queues *)

(** Two results of fallible code agree up to [R]. *)
Definition res_rel {A : Type} (R : A → A → Prop) (r1 r2 : res A) : Prop :=
  match r1, r2 with
  | Ok a, Ok b => R a b
  | Raise x, Raise y => x = y
  | _, _ => False
  end.

(** Two states of the search that differ at most in the arrangement of
    the frontier. *)
Definition same_state (st1 st2 : SearchState) : Prop :=
  count st1 = count st2 ∧
  origin_node st1 = origin_node st2 ∧
  open_set st1 ≡ₚ open_set st2 ∧
  open_set_hash st1 = open_set_hash st2 ∧
  g_score st1 = g_score st2 ∧
  f_score st1 = f_score st2 ∧
  grid st1 = grid st2 ∧
  visited st1 = visited st2.

(** Two runs that end the same way: at the same place of the code, with
    the same nodes taken from the frontier in the same order, the same
    grid, the same path and the same scores. *)
Definition same_result (r1 r2 : RunResult) : Prop :=
  match r1, r2 with
  | Found st1 path1, Found st2 path2 => same_state st1 st2 ∧ path1 = path2
  | Exhausted st1, Exhausted st2 => same_state st1 st2
  | Cancelled st1, Cancelled st2 => same_state st1 st2
  | Raised x, Raised y => x = y
  | OutOfFuel, OutOfFuel => True
  | _, _ => False
  end.

(** The insertion counts of the frontier are pairwise different and none
    exceeds the counter. *)
Definition counts_ok (st : SearchState) : Prop :=
  (∀ x, x ∈ open_set st → entry_count x ≤ count st) ∧
  NoDup (entry_count <$> open_set st).

(** ** Grids as [create_grid] and the clicks leave them *)

(** The node at [r] knows its place and the size of the grid. *)
Definition node_consistent (size : nat) (r : ref) (n : Node) : bool :=
  (row n =? Z.of_nat r.1) && (column n =? Z.of_nat r.2) &&
  (total_rows n =? Z.of_nat size).

(** A square grid of nodes that know their place. *)
Definition consistent (g : Grid) : bool :=
  forallb (λ line : list Node, (length line =? length g)%nat) g &&
  forallb (λ r, match get_node g r with
                | Some n => node_consistent (length g) r n
                | None => false
                end) (grid_refs g).

(** The nodes that the preparation for a run does not reset. *)
Definition kept (n : Node) : bool := is_barrier n || is_end n || is_start n.

(** What one test of [update_neighbors] appends for the place [v]. *)
Definition free_at (g : Grid) (v : ref) : list ref :=
  if passable g v then [v] else [].

(** What [update_neighbors] appends for the node at [r] of a consistent
    grid: the places above, below, left and right, in this order, that lie
    in the grid and hold no barrier. *)
Definition fresh_neighbors (g : Grid) (r : ref) : list ref :=
  (if (0 <? r.1)%nat then free_at g (r.1 - 1, r.2)%nat else []) ++
  (if (S r.1 <? length g)%nat then free_at g (S r.1, r.2) else []) ++
  (if (0 <? r.2)%nat then free_at g (r.1, r.2 - 1)%nat else []) ++
  (if (S r.2 <? length g)%nat then free_at g (r.1, S r.2) else []).

(** The node at [r] after the preparation of the grid [g] for a run. *)
Definition prepared_node_of (g : Grid) (r : ref) (n : Node) : Node :=
  set_neighbors
    ((if kept n then neighbors n else []) ++ fresh_neighbors g r)
    (if kept n then n else reset n).

(** The lengths of the lines of a grid. *)
Definition dims (g : Grid) : list nat := length <$> g.

(** ** Runs on grids with barriers *)

(** What holds of the scores, the origins and the colours at every
    iteration of a run on a prepared grid, barriers or not.  The node
    [busy], if any, is the one whose neighbours are being visited. *)
Record route_inv (g0 : Grid) (s e : ref) (busy : option ref)
    (st : SearchState) : Prop := {
  ri_start : g_score st !! s = Some (Fin 0);
  ri_start_origin : origin_node st !! s = None;
  ri_origin : ∀ v k,
    g_score st !! v = Some (Fin k) → v ≠ s →
    ∃ u ku, origin_node st !! v = Some u ∧ adjacent u v = true ∧
            passable g0 v = true ∧
            g_score st !! u = Some (Fin ku) ∧ ku < k;
  ri_lower : ∀ v k, g_score st !! v = Some (Fin k) → dist s v ≤ k;
  ri_neighbors : ∀ u v,
    expanded st u → Some u ≠ busy →
    adjacent u v = true → passable g0 v = true → reached st v;
  ri_not_end : ∀ u, expanded st u → Some u ≠ busy → u ≠ e;
  ri_barriers : ∀ v,
    v ≠ s → v ≠ e → passable g0 v = false →
    get_node (grid st) v = get_node g0 v;
  ri_passable : ∀ v, passable g0 v = true → passable (grid st) v = true;
  ri_start_color : s ≠ e → color_at (grid st) s = color_at g0 s;
  ri_end_color :
    busy = None →
    color_at (grid st) e = color_at g0 e ∨
    color_at (grid st) e = Some states.end_;
  ri_colors : ∀ v,
    v ≠ s → v ≠ e →
    color_at (grid st) v = color_at g0 v ∨
    color_at (grid st) v = Some states.open ∨
    color_at (grid st) v = Some states.closed;
  ri_dims : dims (grid st) = dims g0
}.

(** The grid after [make_path] on the nodes of the list, first node
    first. *)
Definition mark_path (path : list ref) (g : Grid) : Grid :=
  foldl (λ g v, modify_node make_path v g) g path.

(** The call returns: it neither raises nor runs out of fuel. *)
Definition returns (r : RunResult) : bool :=
  match r with
  | Found _ _ | Exhausted _ | Cancelled _ => true
  | Raised _ | OutOfFuel => false
  end.

(** The variables of [generate_path] when it returns. *)
Definition final_state (r : RunResult) : option SearchState :=
  match r with
  | Found st _ | Exhausted st | Cancelled st => Some st
  | Raised _ | OutOfFuel => None
  end.

(** The number of batches of events before the first one that stops the
    run. *)
Fixpoint batches_before_stop (events : list (list Event)) : nat :=
  match events with
  | [] => 0
  | batch :: events' =>
      if existsb stops_run batch then 0 else S (batches_before_stop events')
  end.

(** ** The control loop *)

(** The grid [generate_path] leaves when it returns. *)
Definition final_grid (r : RunResult) : option Grid :=
  grid <$> final_state r.

(** [NUM_ROWS] and [SCREEN_WIDTH] *)
Definition NUM_ROWS : Z := 25.
Definition SCREEN_WIDTH : Z := 600.

Module main.

(** The variables of [main]. *)
Record State : Type := mk {
  grid : Grid;
  start_node : option ref;
  end_node : option ref;
  run : bool
}.

(** What [main] reads when it handles an event: the event, the state of
    the left and right mouse buttons ([pygame.mouse.get_pressed()[0]] and
    [[2]]) and the place of the mouse ([pygame.mouse.get_pos()]) at that
    moment. *)
Record Input : Type := mkInput {
  event : Event;
  left_pressed : bool;
  right_pressed : bool;
  mouse_pos : Z * Z
}.

(** How the handling of an event ends: the loop goes on with new values of
    the variables, an exception leaves [main], or the call of
    [generate_path] gives no result within the fuel. *)
Inductive Step : Type :=
| Next (m : State)
| Raises (e : exn)
| Unfinished.

Definition step_of (r : res State) : Step :=
  match r with
  | Ok m => Next m
  | Raise e => Raises e
  end.

(** [clicked_node == node] for a variable that holds a node or [None]:
    nodes are compared by identity. *)
Definition is_node (clicked : ref) (node : option ref) : bool :=
  bool_decide (node = Some clicked).

(** [not node] for a variable that holds a node or [None]. *)
Definition not_set (node : option ref) : bool :=
  match node with
  | None => true
  | Some _ => false
  end.

(** The branch for the left mouse button. *)
Definition left_click (total_rows window_width : Z) (m : State)
    (coords : Z * Z) : res State :=
  xy ← get_clicked_position coords total_rows window_width;
  rn ← grid_item (grid m) xy.1 xy.2;
  let clicked_node := rn.1 in
  if not_set (start_node m) && negb (is_node clicked_node (end_node m)) then
    Ok {| grid := modify_node make_start clicked_node (grid m);
          start_node := Some clicked_node;
          end_node := end_node m; run := run m |}
  else if not_set (end_node m) && negb (is_node clicked_node (start_node m))
  then
    Ok {| grid := modify_node make_end clicked_node (grid m);
          start_node := start_node m;
          end_node := Some clicked_node; run := run m |}
  else if negb (is_node clicked_node (start_node m)) &&
          negb (is_node clicked_node (end_node m)) then
    Ok {| grid := modify_node make_barrier clicked_node (grid m);
          start_node := start_node m;
          end_node := end_node m; run := run m |}
  else Ok m.

(** The branch for the right mouse button. *)
Definition right_click (total_rows window_width : Z) (m : State)
    (coords : Z * Z) : res State :=
  xy ← get_clicked_position coords total_rows window_width;
  rn ← grid_item (grid m) xy.1 xy.2;
  let clicked_node := rn.1 in
  let grid' := modify_node reset clicked_node (grid m) in
  if is_node clicked_node (start_node m) then
    Ok {| grid := grid'; start_node := None;
          end_node := end_node m; run := run m |}
  else if is_node clicked_node (end_node m) then
    Ok {| grid := grid'; start_node := start_node m;
          end_node := None; run := run m |}
  else
    Ok {| grid := grid'; start_node := start_node m;
          end_node := end_node m; run := run m |}.

(** The branch for the R key: every node is reset. *)
Definition reset_all (m : State) : State :=
  {| grid := (λ line : list Node, reset <$> line) <$> grid m;
     start_node := None; end_node := None; run := run m |}.

(** The branches of the loop body, in the order in which the [elif] chain
    tests them: the mouse buttons are looked at for every event that is not
    [QUIT], before the type of the event. *)
Inductive Action : Type :=
| Quit | LeftClick | RightClick | Space | ResetAll | Nothing.

Definition action_of (i : Input) : Action :=
  match event i with
  | QUIT => Quit
  | ev =>
      if left_pressed i then LeftClick
      else if right_pressed i then RightClick
      else match ev with
           | KEYDOWN K_SPACE => Space
           | KEYDOWN K_r => ResetAll
           | _ => Nothing
           end
  end.

Section Handlers.
Context {PQ : PriorityQueue}.

(** The branch for the SPACE key: the preparation of the grid, then the
    call of [generate_path], which is given the events that arrive while it
    runs. *)
Definition press_space (fuel : nat) (m : State)
    (run_events : list (list Event)) : Step :=
  match on_space fuel (grid m) (start_node m) (end_node m) run_events with
  | Raise e => Raises e
  | Ok (_, Raised e) => Raises e
  | Ok (_, OutOfFuel) => Unfinished
  | Ok (grid', r) =>
      Next {| grid := default grid' (final_grid r);
              start_node := start_node m;
              end_node := end_node m; run := run m |}
  end.

(** The body of [for event in pygame.event.get()]. *)
Definition handle_event (fuel : nat) (total_rows window_width : Z)
    (m : State) (i : Input) (run_events : list (list Event)) : Step :=
  match action_of i with
  | Quit =>
      Next {| grid := grid m; start_node := start_node m;
              end_node := end_node m; run := false |}
  | LeftClick => step_of (left_click total_rows window_width m (mouse_pos i))
  | RightClick =>
      step_of (right_click total_rows window_width m (mouse_pos i))
  | Space => press_space fuel m run_events
  | ResetAll => Next (reset_all m)
  | Nothing => Next m
  end.

(** The [for] loop over one batch of events; each event comes with the
    events that arrive during the run it may start. *)
Fixpoint handle_events (fuel : nat) (total_rows window_width : Z)
    (m : State) (batch : list (Input * list (list Event))) : Step :=
  match batch with
  | [] => Next m
  | (i, run_events) :: batch' =>
      match handle_event fuel total_rows window_width m i run_events with
      | Next m' => handle_events fuel total_rows window_width m' batch'
      | stop => stop
      end
  end.

(** The [while run] loop, on the batches that [pygame.event.get()]
    returns; it is followed as long as there are batches. *)
Fixpoint loop (fuel : nat) (total_rows window_width : Z) (m : State)
    (batches : list (list (Input * list (list Event)))) : Step :=
  match batches with
  | [] => Next m
  | batch :: batches' =>
      if run m then
        match handle_events fuel total_rows window_width m batch with
        | Next m' => loop fuel total_rows window_width m' batches'
        | stop => stop
        end
      else Next m
  end.

End Handlers.

(** The variables of [main] when its loop starts. *)
Definition initial (total_rows window_width : Z) : res State :=
  grid ← create_grid total_rows window_width;
  Ok {| grid := grid; start_node := None; end_node := None; run := true |}.

(** [main], on the batches of events that its loop is given. *)
Definition main {PQ : PriorityQueue} (fuel : nat) (window_width : Z)
    (batches : list (list (Input * list (list Event)))) : Step :=
  match initial NUM_ROWS window_width with
  | Ok m => loop fuel NUM_ROWS window_width m batches
  | Raise e => Raises e
  end.

(** The start node and the end node are the nodes that have the start and
    the end colour. *)
Definition roles_ok (m : State) : Prop :=
  (∀ r, start_node m = Some r ↔ color_at (grid m) r = Some states.start) ∧
  (∀ r, end_node m = Some r ↔ color_at (grid m) r = Some states.end_).

(** No node of the grid has a neighbour in its list. *)
Definition no_neighbors (g : Grid) : bool :=
  all_nodes (λ n, bool_decide (neighbors n = [])) g.

(** The mouse is over the window. *)
Definition in_window (window_width : Z) (i : Input) : Prop :=
  0 ≤ (mouse_pos i).1 < window_width ∧ 0 ≤ (mouse_pos i).2 < window_width.

End main.

(** [main.roles_ok] as a test. *)
Definition roles_okb (m : main.State) : bool :=
  forallb (λ r,
    bool_decide ((main.start_node m = Some r ↔
                  color_at (main.grid m) r = Some states.start) ∧
                 (main.end_node m = Some r ↔
                  color_at (main.grid m) r = Some states.end_)))
    (grid_refs (main.grid m)) &&
  match main.start_node m with
  | Some r => bool_decide (is_Some (get_node (main.grid m) r))
  | None => true
  end &&
  match main.end_node m with
  | Some r => bool_decide (is_Some (get_node (main.grid m) r))
  | None => true
  end.

(** What the clicks and the keys other than SPACE keep of the state of
    [main], from its start to the first run. *)
Definition editable (N : Z) (m : main.State) : Prop :=
  main.roles_ok m ∧ consistent (main.grid m) = true ∧
  main.no_neighbors (main.grid m) = true ∧
  length (main.grid m) = Z.to_nat N.

(** A batch of events that holds clicks over the window and keys other
    than SPACE only. *)
Definition edits (W : Z) (batch : list (main.Input * list (list Event)))
  : Prop :=
  Forall (λ x, main.in_window W x.1 ∧ main.action_of x.1 ≠ main.Space) batch.

(** ** Runs on the grids [main] builds *)

(** Every node knows its place and every neighbour in a list is a node of
    the grid.  The grids of [main] are of this kind, also when barriers
    were added after an earlier run and the lists of the barrier, end and
    start nodes hold neighbours that have become barriers. *)
Definition wired (g : Grid) : bool :=
  forallb (λ r, match get_node g r with
                | Some n =>
                    (row n =? Z.of_nat r.1) && (column n =? Z.of_nat r.2) &&
                    forallb (λ v, bool_decide (is_Some (get_node g v)))
                      (neighbors n)
                | None => false
                end) (grid_refs g).

(** What holds of the scores, the origins and the colours at every
    iteration of a run on a wired grid [g0].  [busy] tells whether the
    neighbours of a node are being visited. *)
Record chain_inv (g0 : Grid) (s e : ref) (busy : bool)
    (st : SearchState) : Prop := {
  ci_start : g_score st !! s = Some (Fin 0);
  ci_start_origin : origin_node st !! s = None;
  ci_origin : ∀ v k,
    g_score st !! v = Some (Fin k) → v ≠ s →
    ∃ u ku, origin_node st !! v = Some u ∧
            g_score st !! u = Some (Fin ku) ∧ ku < k;
  ci_start_color : s ≠ e → color_at (grid st) s = color_at g0 s;
  ci_end_color :
    busy = false →
    color_at (grid st) e = color_at g0 e ∨
    color_at (grid st) e = Some states.end_;
  ci_colors : ∀ v,
    v ≠ s → v ≠ e →
    color_at (grid st) v = color_at g0 v ∨
    color_at (grid st) v = Some states.open ∨
    color_at (grid st) v = Some states.closed;
  ci_dims : dims (grid st) = dims g0
}.

(** What every handled event keeps of the state of [main]. *)
Definition coherent (N : Z) (m : main.State) : Prop :=
  main.roles_ok m ∧ consistent (main.grid m) = true ∧
  wired (main.grid m) = true ∧
  length (main.grid m) = Z.to_nat N.

(** How a part of a session ends, once the fuel suffices: with the
    [AttributeError] of a SPACE without start or end node, or in a coherent
    state. *)
Definition ends_well (N : Z) (run : nat → main.Step) : Prop :=
  ∃ n r, (∀ fuel, (n ≤ fuel)%nat → run fuel = r) ∧
         (r = main.Raises AttributeError ∨
          ∃ m', r = main.Next m' ∧ coherent N m').

(** ** Two sessions that end in the same picture *)

(** The colours of the nodes of a grid, line by line. *)
Definition colors_of (g : Grid) : list (list Color) :=
  (λ line : list Node, color <$> line) <$> g.

(** A left click with the mouse at [pos], and SPACE with no button held
    and no event arriving during the search. *)
Definition click (pos : Z * Z) : main.Input * list (list Event) :=
  (main.mkInput OtherEvent true false pos, []).

Definition space : main.Input * list (list Event) :=
  (main.mkInput (KEYDOWN K_SPACE) false false (0, 0), []).

(** On the window of 600 pixels with 25 rows: the start node at [(0, 0)],
    the end node at [(0, 2)], then barriers at [(0, 1)] and [(1, 0)], which
    wall in the start node. *)
Definition walls_first : list (list (main.Input * list (list Event))) :=
  [[click (0, 0)]; [click (0, 48)]; [click (0, 24)]; [click (24, 0)]].

(** The same clicks with a search before the barriers are placed. *)
Definition search_then_walls
  : list (list (main.Input * list (list Event))) :=
  [[click (0, 0)]; [click (0, 48)]; [space]; [click (0, 24)];
   [click (24, 0)]].

(** The state of [main] after the batches, when it handles them all. *)
Definition state_after `{PQ : PriorityQueue}
    (batches : list (list (main.Input * list (list Event))))
  : option main.State :=
  match main.main 40 SCREEN_WIDTH batches with
  | main.Next m => Some m
  | _ => None
  end.

(** What SPACE does after the batches: the grid that is handed to
    [generate_path], and the way the call ends. *)
Definition search_after `{PQ : PriorityQueue}
    (batches : list (list (main.Input * list (list Event))))
  : option (Grid * RunResult) :=
  m ← state_after batches;
  match on_space 40 (main.grid m) (main.start_node m) (main.end_node m)
          [] with
  | Ok x => Some x
  | Raise _ => None
  end.

(** The path of a run that ends with one, the test for a run that ends
    with an empty frontier, and the nodes a run took from the frontier. *)
Definition found (r : RunResult) : option (list ref) :=
  match r with
  | Found _ path => Some path
  | _ => None
  end.

Definition exhausted (r : RunResult) : bool :=
  match r with
  | Exhausted _ => true
  | _ => false
  end.

Definition pops (r : RunResult) : option (list ref) :=
  visited <$> final_state r.

(** * Properties *)

(** ** The executable queue meets the contract *)

Lemma score_ltb_irrefl a : score_ltb a a = false.
Proof. destruct a; unfold score_ltb; [lia|done]. Qed.

Lemma score_ltb_trans a b c :
  score_ltb a b = true → score_ltb b c = true → score_ltb a c = true.
Proof. destruct a, b, c; unfold score_ltb; try done; lia. Qed.

Lemma entry_ltb_spec (a b : entry) :
  entry_ltb a b = true ↔
  score_ltb (entry_priority a) (entry_priority b) = true ∨
  (entry_priority a = entry_priority b ∧ entry_count a < entry_count b).
Proof.
  unfold entry_ltb, Node_lt.
  destruct (decide (entry_priority a = entry_priority b)) as [Heq|Hne].
  - rewrite bool_decide_eq_true_2 by done. simpl.
    rewrite Heq, score_ltb_irrefl.
    destruct (Z.eqb_spec (entry_count a) (entry_count b)); simpl.
    + split; [done|]. intros [?|[_ ?]]; [done|lia].
    + rewrite Z.ltb_lt. split; [by right|]. by intros [?|[_ ?]].
  - rewrite bool_decide_eq_false_2 by done. simpl.
    split; [by left|]. by intros [?|[? _]].
Qed.

Lemma entry_ltb_irrefl (a : entry) : entry_ltb a a = false.
Proof.
  apply not_true_is_false. rewrite entry_ltb_spec, score_ltb_irrefl.
  intros [?|[_ ?]]; [done|lia].
Qed.

Lemma entry_ltb_trans (a b c : entry) :
  entry_ltb a b = true → entry_ltb b c = true → entry_ltb a c = true.
Proof.
  rewrite !entry_ltb_spec. intros [H1|[H1 H1']] [H2|[H2 H2']].
  - left. by eapply score_ltb_trans.
  - left. by rewrite <- H2.
  - left. by rewrite H1.
  - right. split; [congruence|lia].
Qed.

Lemma least_elem (e : entry) q : least e q ∈ e :: q.
Proof.
  induction q as [|e' q IH]; simpl; [by left|].
  destruct (entry_ltb e' (least e q)); [right; left|].
  apply elem_of_cons in IH as [->|IH]; [by left|right; by right].
Qed.

Lemma least_min (e : entry) q e' :
  e' ∈ e :: q → entry_ltb e' (least e q) = false.
Proof.
  revert e'. induction q as [|e1 q IH]; intros e' He'; simpl.
  - apply list_elem_of_singleton in He' as ->. apply entry_ltb_irrefl.
  - destruct (entry_ltb e1 (least e q)) eqn:Hlt.
    + destruct (decide (e' = e1)) as [->|Hne]; [apply entry_ltb_irrefl|].
      apply not_true_is_false. intros Hlt'.
      assert (e' ∈ e :: q) as Hin.
      { apply elem_of_cons in He' as [->|He']; [by left|].
        apply elem_of_cons in He' as [->|He']; [done|by right]. }
      specialize (IH _ Hin).
      by rewrite (entry_ltb_trans _ _ _ Hlt' Hlt) in IH.
    + apply elem_of_cons in He' as [->|He']; [apply IH; by left|].
      apply elem_of_cons in He' as [->|He']; [done|apply IH; by right].
Qed.

Lemma remove_first_perm (e : entry) q :
  e ∈ q → q ≡ₚ e :: remove_first e q.
Proof.
  induction q as [|e' q IH]; intros Hin; [by apply elem_of_nil in Hin|].
  simpl. destruct (decide (e' = e)) as [->|Hne]; [done|].
  apply elem_of_cons in Hin as [->|Hin]; [done|].
  rewrite (IH Hin) at 1. apply Permutation_swap.
Qed.

#[global, refine] Instance list_pq : PriorityQueue :=
  {| pq_put := cons; pq_get := list_get |}.
Proof.
  - done.
  - intros [|e0 q] e q' Hget; [done|]. unfold list_get in Hget.
    injection Hget as <- <-. apply remove_first_perm, least_elem.
  - intros [|e0 q] e q' e' Hget Hin; [done|]. unfold list_get in Hget.
    injection Hget as <- _. by apply least_min.
  - intros [|e0 q] Hne; [done|]. by eexists.
Defined.

(** ** Nodes and pixel coordinates *)

(** C9: [Node.reset] sets the colour to white and empties the neighbour
    list; the six other fields of the node keep their values. *)
Theorem reset_changes_color_and_neighbors_only (n : Node) :
  color (reset n) = colors.white ∧ neighbors (reset n) = [] ∧
  row (reset n) = row n ∧ column (reset n) = column n ∧
  width (reset n) = width n ∧ total_rows (reset n) = total_rows n ∧
  x (reset n) = x n ∧ y (reset n) = y n.
Proof. by repeat split. Qed.

Lemma create_grid_lookup (N W : Z) (grid : Grid) (r : ref) (node : Node) :
  create_grid N W = Ok grid →
  get_node grid r = Some node →
  node = Node_init (Z.of_nat r.1) (Z.of_nat r.2) (W `div` N) N ∧
  Z.of_nat r.1 < N ∧ Z.of_nat r.2 < N.
Proof.
  unfold create_grid, get_node. destruct (N =? 0); [done|].
  intros [= <-]. rewrite list_lookup_fmap.
  destruct (seqZ 0 N !! r.1) as [i|] eqn:Hi; [|done]. simpl.
  rewrite list_lookup_fmap.
  destruct (seqZ 0 N !! r.2) as [j|] eqn:Hj; [|done]. simpl.
  apply lookup_seqZ in Hi as [-> ?], Hj as [-> ?].
  intros [= <-]. by rewrite !Z.add_0_l.
Qed.

(** C10: in a grid made by [create_grid N W] with [0 < N <= W], the pixel
    coordinates [(x, y)] of every node are mapped back by
    [get_clicked_position] to the node's [(row, column)], which is its
    place in the grid. *)
Theorem clicked_position_of_node_pixels (N W : Z) (grid : Grid) (r : ref)
    (node : Node) :
  0 < N ≤ W →
  create_grid N W = Ok grid →
  get_node grid r = Some node →
  get_clicked_position (x node, y node) N W = Ok (row node, column node) ∧
  (row node, column node) = (Z.of_nat r.1, Z.of_nat r.2).
Proof.
  intros HN Hgrid Hnode.
  destruct (create_grid_lookup _ _ _ _ _ Hgrid Hnode) as (-> & _ & _).
  split; [|done]. unfold get_clicked_position, Node_init. simpl.
  assert (0 < W `div` N) as Hw by (apply Z.div_str_pos; lia).
  destruct (Z.eqb_spec N 0); [lia|].
  destruct (Z.eqb_spec (W `div` N) 0); [lia|].
  by rewrite !Z.div_mul by done.
Qed.

Lemma clicked_position_of_node_pixels_witness :
  get_clicked_position (48, 72) 25 600 = Ok (2, 3) ∧
  (2, 3) = (Z.of_nat 2, Z.of_nat 3).
Proof.
  apply (clicked_position_of_node_pixels 25 600
           (match create_grid 25 600 with Ok g => g | Raise _ => [] end)
           (2%nat, 3%nat) (Node_init 2 3 24 25)).
  - lia.
  - reflexivity.
  - reflexivity.
Defined.

(** ** Reading and writing through references *)

Lemma get_node_modify (f : Node → Node) (r r' : ref) (grid : Grid) :
  get_node (modify_node f r grid) r' =
  if decide (r = r') then f <$> get_node grid r' else get_node grid r'.
Proof.
  unfold get_node, modify_node. destruct r as [i j], r' as [i' j']. simpl.
  destruct (decide (i = i')) as [<-|Hi].
  - rewrite list_lookup_alter_eq. destruct (grid !! i) as [line|]; simpl.
    + destruct (decide (j = j')) as [<-|Hj].
      * rewrite decide_True by done. by rewrite list_lookup_alter_eq.
      * rewrite decide_False by congruence.
        by rewrite list_lookup_alter_ne.
    + by destruct (decide _).
  - rewrite list_lookup_alter_ne by done.
    by rewrite decide_False by congruence.
Qed.

Lemma get_node_modify_eq (f : Node → Node) (r : ref) (grid : Grid) :
  get_node (modify_node f r grid) r = f <$> get_node grid r.
Proof. rewrite get_node_modify. by rewrite decide_True. Qed.

Lemma get_node_modify_ne (f : Node → Node) (r r' : ref) (grid : Grid) :
  r ≠ r' → get_node (modify_node f r grid) r' = get_node grid r'.
Proof. intros. rewrite get_node_modify. by rewrite decide_False. Qed.

(** ** The path reconstructor *)

(** C4, as the claim has it, fails: with the origin map that sends the end
    node [(0, 1)] to the start node [(0, 0)], [reconstruct_path] itself
    turns the start node, which was in the start state, into a path node. *)
Lemma reconstruct_path_colours_start :
  ∃ grid',
    reconstruct_path 2 {[ (0, 1)%nat := (0, 0)%nat ]} (0, 1)%nat
      (clicked_grid 2 (0, 0)%nat (0, 1)%nat []) = Some (grid', [(0, 0)%nat]) ∧
    is_start <$> get_node (clicked_grid 2 (0, 0)%nat (0, 1)%nat []) (0, 0)%nat
      = Some true ∧
    is_path <$> get_node grid' (0, 0)%nat = Some true ∧
    is_start <$> get_node grid' (0, 0)%nat = Some false.
Proof. eexists. by vm_compute. Qed.

(** ** The references of a grid *)

Lemma elem_of_grid_refs (g : Grid) (r : ref) :
  r ∈ grid_refs g ↔ is_Some (get_node g r).
Proof.
  unfold grid_refs, get_node. rewrite list_elem_of_join. split.
  - intros (l & Hr & Hl). apply elem_of_lookup_imap in Hl as (i & line & -> & Hi).
    apply list_elem_of_fmap in Hr as (j & -> & Hj). simpl. rewrite Hi.
    apply lookup_lt_is_Some. apply elem_of_seq in Hj. lia.
  - destruct r as [i j]. simpl.
    destruct (g !! i) as [line|] eqn:Hi; [|by intros [? ?]].
    intros Hj%lookup_lt_is_Some.
    exists ((λ j, (i, j)) <$> seq 0 (length line)). split.
    + apply list_elem_of_fmap. exists j. split; [done|].
      apply elem_of_seq. lia.
    + by apply (elem_of_lookup_imap_2
                  (λ i (line : list Node), (λ j, (i, j)) <$> seq 0 (length line))).
Qed.

Lemma all_inf_lookup (g : Grid) (r : ref) :
  all_inf g !! r = if decide (r ∈ grid_refs g) then Some Inf else None.
Proof.
  unfold all_inf. destruct (decide (r ∈ grid_refs g)) as [Hin|Hnin].
  - destruct (list_to_map _ !! r) as [v|] eqn:Hv.
    + apply elem_of_list_to_map_2 in Hv.
      apply list_elem_of_fmap in Hv as (r' & [= -> ->] & _). done.
    + apply not_elem_of_list_to_map in Hv. exfalso. apply Hv.
      rewrite <- list_fmap_compose. apply list_elem_of_fmap. by exists r.
  - apply not_elem_of_list_to_map. rewrite <- list_fmap_compose.
    intros (r' & -> & ?)%list_elem_of_fmap. done.
Qed.

Lemma all_inf_is_Some (g : Grid) (r : ref) :
  is_Some (all_inf g !! r) ↔ is_Some (get_node g r).
Proof.
  rewrite all_inf_lookup, <- elem_of_grid_refs.
  destruct (decide _); split; try done; by intros [? ?].
Qed.

(** ** The start of a run *)

Section Start.
Context {PQ : PriorityQueue}.

Lemma pq_put_not_empty (item : entry) q : pq_empty (pq_put item q) = false.
Proof.
  pose proof (pq_put_perm item q) as Hperm.
  destruct (pq_put item q); [|done].
  by apply Permutation_nil_cons in Hperm.
Qed.

Lemma initial_state_ok (g0 : Grid) (s e : ref) (s_node e_node : Node) :
  get_node g0 s = Some s_node →
  get_node g0 e = Some e_node →
  initial_state g0 s e =
    Ok {| count := 0; origin_node := ∅;
          open_set := pq_put (Fin 0, 0, s) [];
          open_set_hash := {[s]};
          g_score := <[s := Fin 0]> (all_inf g0);
          f_score :=
            <[s := Fin (manhattan_distance (get_pos s_node)
                          (get_pos e_node))]> (all_inf g0);
          grid := g0; visited := [] |}.
Proof. intros Hs He. unfold initial_state, deref. by rewrite Hs, He. Qed.

(** C5: when an event that stops the run is among the events of the first
    iteration, [generate_path] returns at the event loop; the state it
    returns in is the one built before the loop, so that no node was taken
    from the frontier, no node has an origin, every score is as initialised
    and the grid is the grid the run was given. *)
Theorem cancelled_before_first_pop (fuel : nat) (g0 : Grid) (s e : ref)
    (batch : list Event) (events : list (list Event)) :
  is_Some (get_node g0 s) →
  is_Some (get_node g0 e) →
  existsb stops_run batch = true →
  ∃ st,
    generate_path (S fuel) g0 (Some s) (Some e) (batch :: events)
      = Cancelled st ∧
    initial_state g0 s e = Ok st ∧
    grid st = g0 ∧
    visited st = [] ∧
    origin_node st = ∅ ∧
    g_score st = <[s := Fin 0]> (all_inf g0) ∧
    open_set st ≡ₚ [(Fin 0, 0, s)].
Proof.
  intros [s_node Hs] [e_node He] Hstop.
  eexists. unfold generate_path.
  rewrite (initial_state_ok _ _ _ _ _ Hs He). simpl.
  rewrite pq_put_not_empty, Hstop.
  repeat split. apply pq_put_perm.
Qed.

(** What the code does where C8 speaks of the first tuple: the scores of the
    start node are set as the claim says, and the tuple put in the frontier
    is [(0, 0, start_node)]. *)
Lemma initial_scores_and_frontier (g0 : Grid) (s e : ref)
    (s_node e_node : Node) :
  get_node g0 s = Some s_node →
  get_node g0 e = Some e_node →
  ∃ st,
    initial_state g0 s e = Ok st ∧
    g_score st !! s = Some (Fin 0) ∧
    f_score st !! s =
      Some (Fin (manhattan_distance (get_pos s_node) (get_pos e_node))) ∧
    open_set st = pq_put (Fin 0, 0, s) [] ∧
    count st = 0.
Proof.
  intros Hs He. eexists. split; [by apply initial_state_ok|]. simpl.
  by rewrite !lookup_insert_eq.
Qed.

(** Without a start node or without an end node, [generate_path] raises
    [AttributeError], whatever the grid. *)
Lemma generate_path_without_endpoints (fuel : nat) (g0 : Grid)
    (start_node end_node : option ref) (events : list (list Event)) :
  start_node = None ∨ end_node = None →
  generate_path fuel g0 start_node end_node events = Raised AttributeError.
Proof. intros [-> | ->]; [done|]. by destruct start_node. Qed.

End Start.

Lemma cancelled_before_first_pop_witness :
  ∃ st,
    generate_path 1 (prepared_grid 2 (0, 0)%nat (1, 1)%nat [])
      (Some (0, 0)%nat) (Some (1, 1)%nat) [[KEYDOWN K_q]] = Cancelled st ∧
    initial_state (prepared_grid 2 (0, 0)%nat (1, 1)%nat [])
      (0, 0)%nat (1, 1)%nat = Ok st ∧
    grid st = prepared_grid 2 (0, 0)%nat (1, 1)%nat [] ∧
    visited st = [] ∧
    origin_node st = ∅ ∧
    g_score st =
      <[(0, 0)%nat := Fin 0]>
        (all_inf (prepared_grid 2 (0, 0)%nat (1, 1)%nat [])) ∧
    open_set st ≡ₚ [(Fin 0, 0, (0, 0)%nat)].
Proof.
  apply (cancelled_before_first_pop (PQ := list_pq) 0
           (prepared_grid 2 (0, 0)%nat (1, 1)%nat []) (0, 0)%nat (1, 1)%nat
           [KEYDOWN K_q] []).
  - vm_compute. by eexists.
  - vm_compute. by eexists.
  - reflexivity.
Defined.

(** C8 at a start node and an end node two steps apart: [g_score] of the
    start node is 0 and its [f_score] is the Manhattan distance 2, but the
    tuple in the frontier is [(0, 0, start_node)], with priority 0. *)
Theorem first_tuple_has_priority_zero :
  ∃ st,
    initial_state (PQ := list_pq) (prepared_grid 2 (0, 0)%nat (1, 1)%nat [])
      (0, 0)%nat (1, 1)%nat = Ok st ∧
    g_score st !! (0, 0)%nat = Some (Fin 0) ∧
    f_score st !! (0, 0)%nat = Some (Fin 2) ∧
    manhattan_distance (pos (0, 0)%nat) (pos (1, 1)%nat) = 2 ∧
    open_set st = [(Fin 0, 0, (0, 0)%nat)].
Proof. eexists. by vm_compute. Qed.

(** ** The SPACE key *)

(** C6 at a grid without a start node in which a node is still marked
    closed: pressing SPACE clears that node and then [generate_path]
    raises [AttributeError]. *)
Theorem space_without_start_clears_and_raises :
  ∃ g' : Grid,
    on_space (PQ := list_pq) 10
      (modify_node make_closed (0, 1)%nat
         (modify_node make_end (1, 1)%nat
            (match create_grid 2 600 with Ok g => g | Raise _ => [] end)))
      None (Some (1, 1)%nat) [] = Ok (g', Raised AttributeError) ∧
    color_at (modify_node make_closed (0, 1)%nat
         (modify_node make_end (1, 1)%nat
            (match create_grid 2 600 with Ok g => g | Raise _ => [] end)))
      (0, 1)%nat = Some states.closed ∧
    color_at g' (0, 1)%nat = Some colors.white.
Proof. eexists. by vm_compute. Qed.

(** ** The preparation before a run *)

(** A loop that ran to its end kept [P] and gained [Q a] for every [a] it
    handled. *)
Lemma for_each_ok_post {S A : Type} (body : S → A → res S) (P : S → Prop)
    (Q : A → S → Prop) (l : list A) (s s' : S) :
  for_each body s l = Ok s' →
  P s →
  (∀ s a s', a ∈ l → P s → body s a = Ok s' →
     P s' ∧ Q a s' ∧ ∀ b, Q b s → Q b s') →
  P s' ∧ ∀ a, a ∈ l → Q a s'.
Proof.
  revert P s. induction l as [|a l IH]; intros P s Hrun Hs Hbody; simpl in *.
  - injection Hrun as <-. split; [done|]. by intros a ?%elem_of_nil.
  - destruct (body s a) as [s1|] eqn:Ha; [|done]. simpl in Hrun.
    destruct (Hbody s a s1) as (Hs1 & Hq & Hkeep); [by left|done|done|].
    destruct (IH (λ t, P t ∧ Q a t) s1 Hrun (conj Hs1 Hq)) as [[? ?] Hall].
    { intros t b t' Hb [Ht Hqa] Hrun'.
      destruct (Hbody t b t') as (? & ? & Hkeep'); [by right|done|done|].
      split_and!; try done. by apply Hkeep'. }
    split; [done|]. intros b [->|Hb]%elem_of_cons; [done|by apply Hall].
Qed.

Lemma update_neighbors_color (g g' : Grid) (r r' : ref) :
  update_neighbors r g = Ok g' → color_at g' r' = color_at g r'.
Proof.
  unfold update_neighbors. destruct (get_node g r) as [self|]; [|by intros [= <-]].
  destruct (append_if_free _ _ _ _ _) as [l1|]; simpl; [|done].
  destruct (append_if_free _ _ _ _ _) as [l2|]; simpl; [|done].
  destruct (append_if_free _ _ _ _ _) as [l3|]; simpl; [|done].
  destruct (append_if_free _ _ _ _ _) as [l4|]; simpl; [|done].
  intros [= <-]. unfold color_at. rewrite get_node_modify.
  destruct (decide (r = r')); [|done]. by destruct (get_node g r').
Qed.

Lemma cleared_color_idemp (c : Color) :
  cleared_color (cleared_color c) = cleared_color c.
Proof.
  unfold cleared_color.
  destruct (color_eqb c states.barrier || color_eqb c states.end_
            || color_eqb c states.start) eqn:Hc; [by rewrite Hc|done].
Qed.

Lemma prepare_node_color (g g' : Grid) (r r' : ref) :
  prepare_node g r = Ok g' →
  color_at g' r' =
  if decide (r = r') then cleared_color <$> color_at g r' else color_at g r'.
Proof.
  unfold prepare_node. destruct (get_node g r) as [node|] eqn:Hnode.
  - intros Hrun. rewrite (update_neighbors_color _ _ _ _ Hrun).
    destruct (decide (r = r')) as [<-|Hne].
    + unfold color_at at 2. rewrite Hnode. simpl. unfold cleared_color.
      unfold is_barrier, is_end, is_start.
      destruct (color_eqb (color node) states.barrier); simpl;
        [by unfold color_at; rewrite Hnode|].
      destruct (color_eqb (color node) states.end_); simpl;
        [by unfold color_at; rewrite Hnode|].
      destruct (color_eqb (color node) states.start); simpl;
        [by unfold color_at; rewrite Hnode|].
      unfold color_at. by rewrite get_node_modify_eq, Hnode.
    + destruct (_ && _); [|done]. unfold color_at.
      by rewrite get_node_modify_ne.
  - intros [= <-]. destruct (decide (r = r')) as [<-|]; [|done].
    unfold color_at. by rewrite Hnode.
Qed.

(** What the preparation does to the colours, whatever the grid: each
    node gets its cleared colour, so that a second preparation changes no
    colour.  The neighbour lists are another matter, as the theorem after
    these lemmas shows. *)
Lemma reset_for_new_run_colors (g g' : Grid) (r : ref) :
  reset_for_new_run g = Ok g' →
  color_at g' r = cleared_color <$> color_at g r.
Proof.
  intros Hrun. unfold reset_for_new_run in Hrun.
  destruct (for_each_ok_post prepare_node
    (λ t, ∀ r, color_at t r = color_at g r ∨
               color_at t r = cleared_color <$> color_at g r)
    (λ a t, color_at t a = cleared_color <$> color_at g a)
    (grid_refs g) g g' Hrun) as [Hany Hall].
  - intros r'. by left.
  - intros t a t' _ Ht Ha.
    assert (∀ b, color_at t b = cleared_color <$> color_at g b →
                 color_at t' b = cleared_color <$> color_at g b) as Hkeep.
    { intros b Hb. rewrite (prepare_node_color _ _ _ _ Ha), Hb.
      destruct (decide (a = b)); [|done].
      destruct (color_at g b); simpl; [|done].
      by rewrite cleared_color_idemp. }
    split_and!; [|by
      (rewrite (prepare_node_color _ _ _ _ Ha), decide_True by done;
       destruct (Ht a) as [-> | ->]; [done|];
       destruct (color_at g a); simpl; [by rewrite cleared_color_idemp|done])
      |done].
    intros r'. destruct (Ht r') as [Hr'|Hr']; [|right; by apply Hkeep].
    rewrite (prepare_node_color _ _ _ _ Ha), Hr'.
    destruct (decide (a = r')); [by right|by left].
  - destruct (decide (r ∈ grid_refs g)) as [Hin|Hout]; [by apply Hall|].
    rewrite elem_of_grid_refs in Hout.
    destruct (Hany r) as [-> | ->]; [|done]. unfold color_at.
    destruct (get_node g r); [|done]. exfalso. apply Hout. by eexists.
Qed.

Lemma second_preparation_keeps_colors (g g1 g2 : Grid) (r : ref) :
  reset_for_new_run g = Ok g1 →
  reset_for_new_run g1 = Ok g2 →
  color_at g2 r = color_at g1 r.
Proof.
  intros H1 H2. rewrite (reset_for_new_run_colors _ _ _ H2).
  rewrite (reset_for_new_run_colors _ _ _ H1).
  destruct (color_at g r); simpl; [|done]. by rewrite cleared_color_idemp.
Qed.

(** C7 at a two by two grid with a start node: the first preparation gives
    the start node its two neighbours, the second one appends them again,
    so that the grid after two preparations differs from the grid after
    one, in a start node. *)
Theorem second_preparation_grows_start_neighbors :
  ∃ g1 g2 : Grid,
    reset_for_new_run (clicked_grid 2 (0, 0)%nat (1, 1)%nat []) = Ok g1 ∧
    reset_for_new_run g1 = Ok g2 ∧
    color_at g1 (0, 0)%nat = Some states.start ∧
    neighbors_at g1 (0, 0)%nat = Some [(1, 0)%nat; (0, 1)%nat] ∧
    neighbors_at g2 (0, 0)%nat =
      Some [(1, 0)%nat; (0, 1)%nat; (1, 0)%nat; (0, 1)%nat] ∧
    g2 ≠ g1.
Proof. do 2 eexists. by vm_compute. Qed.

(** ** What a prepared grid provides *)

Lemma manhattan_distance_pos (u v : ref) :
  manhattan_distance (pos u) (pos v) =
  Z.abs (Z.of_nat u.1 - Z.of_nat v.1) + Z.abs (Z.of_nat u.2 - Z.of_nat v.2).
Proof. done. Qed.

Lemma prepared_node (g : Grid) (r : ref) (n : Node) :
  prepared g = true →
  get_node g r = Some n →
  get_pos n = pos r ∧
  ∀ v, v ∈ neighbors n ↔ adjacent r v = true ∧ passable g v = true.
Proof.
  unfold prepared. intros [_ Hall]%andb_prop Hn.
  rewrite forallb_forall in Hall.
  specialize (Hall r). rewrite <- list_elem_of_In, elem_of_grid_refs in Hall.
  rewrite Hn in Hall. specialize (Hall (mk_is_Some _ _ eq_refl)).
  unfold node_prepared in Hall.
  apply andb_prop in Hall as [[[Hrow Hcol]%andb_prop Hsound]%andb_prop Hcompl].
  split.
  - unfold get_pos, pos. f_equal; lia.
  - rewrite forallb_forall in Hsound, Hcompl. intros v. split.
    + intros Hv%list_elem_of_In%Hsound. by apply andb_prop in Hv.
    + intros [Hadj Hpass].
      assert (is_Some (get_node g v)) as Hvalid.
      { unfold passable in Hpass. destruct (get_node g v); [by eexists|done]. }
      apply elem_of_grid_refs, list_elem_of_In, Hcompl in Hvalid.
      rewrite Hadj, Hpass in Hvalid. by apply bool_decide_eq_true in Hvalid.
Qed.

Lemma prepared_square (g : Grid) (r : ref) :
  prepared g = true →
  is_Some (get_node g r) ↔ (r.1 < length g)%nat ∧ (r.2 < length g)%nat.
Proof.
  unfold prepared, get_node. intros [Hsq _]%andb_prop.
  rewrite forallb_forall in Hsq. split.
  - destruct (g !! r.1) as [line|] eqn:Hline; [|by intros [? ?]].
    intros Hlt%lookup_lt_is_Some.
    pose proof (lookup_lt_Some _ _ _ Hline).
    apply list_elem_of_lookup_2, list_elem_of_In, Hsq in Hline.
    apply Nat.eqb_eq in Hline. lia.
  - intros [H1 H2]. apply lookup_lt_is_Some in H1 as [line Hline].
    rewrite Hline. apply lookup_lt_is_Some.
    apply list_elem_of_lookup_2, list_elem_of_In, Hsq in Hline.
    apply Nat.eqb_eq in Hline. lia.
Qed.

(** ** Loops *)

Lemma for_each_inv {S A : Type} (body : S → A → res S) (P : S → Prop)
    (l : list A) (s : S) :
  P s →
  (∀ s a, a ∈ l → P s → ∃ s', body s a = Ok s' ∧ P s') →
  ∃ s', for_each body s l = Ok s' ∧ P s'.
Proof.
  revert s. induction l as [|a l IH]; intros s Hs Hbody; simpl.
  - by exists s.
  - destruct (Hbody s a) as (s1 & -> & Hs1); [by left|done|]. simpl.
    apply IH; [done|]. intros s2 b Hb. apply Hbody. by right.
Qed.

(** The same with a fact [Q a] gained when [a] is handled and kept by the
    later rounds. *)
Lemma for_each_inv_post {S A : Type} (body : S → A → res S) (P : S → Prop)
    (Q : A → S → Prop) (l : list A) (s : S) :
  P s →
  (∀ s a, a ∈ l → P s →
     ∃ s', body s a = Ok s' ∧ P s' ∧ Q a s' ∧ ∀ b, Q b s → Q b s') →
  ∃ s', for_each body s l = Ok s' ∧ P s' ∧ ∀ a, a ∈ l → Q a s'.
Proof.
  revert P s. induction l as [|a l IH]; intros P s Hs Hbody; simpl.
  - exists s. repeat split; [done|]. by intros a ?%elem_of_nil.
  - destruct (Hbody s a) as (s1 & -> & Hs1 & Hq & Hkeep); [by left|done|].
    simpl.
    destruct (IH (λ s', P s' ∧ Q a s') s1) as (s2 & Hrun & [Hs2 Hqa] & Hall).
    { done. }
    { intros s' b Hb [Hs' Hqa].
      destruct (Hbody s' b) as (s'' & ? & ? & ? & Hkeep'); [by right|done|].
      exists s''. repeat split; try done. by apply Hkeep'. }
    exists s2. repeat split; try done.
    intros b [->|Hb]%elem_of_cons; [done|by apply Hall].
Qed.

Lemma sum_list_with_update {A : Type} (f f' : A → nat) (l : list A) (v : A) :
  NoDup l → v ∈ l → (∀ r, r ≠ v → f' r = f r) →
  (sum_list_with f' l + f v = sum_list_with f l + f' v)%nat.
Proof.
  intros Hnd Hin Hsame. induction Hnd as [|a l Ha Hnd IH]; simpl.
  - by apply elem_of_nil in Hin.
  - apply elem_of_cons in Hin as [<-|Hin].
    + assert (sum_list_with f' l = sum_list_with f l) as ->; [|lia].
      clear IH. induction l as [|b l IHl]; simpl; [done|].
      rewrite Hsame.
      * rewrite IHl; [done| |by apply NoDup_cons in Hnd as [_ ?]].
        intros ?. apply Ha. by right.
      * intros ->. apply Ha. by left.
    + rewrite (Hsame a) by (by intros ->). specialize (IH Hin). lia.
Qed.

(** ** Grids of one shape *)

Lemma same_shape_refl (g : Grid) : same_shape g g.
Proof. done. Qed.

Lemma same_shape_set_color (g0 g : Grid) (c : Color) (r : ref) :
  same_shape g0 g → same_shape g0 (modify_node (set_color c) r g).
Proof.
  intros Hsh r'. rewrite get_node_modify, <- Hsh.
  destruct (decide (r = r')); [|done]. by destruct (get_node g r').
Qed.

Lemma same_shape_get (g0 g : Grid) (r : ref) (n0 : Node) :
  same_shape g0 g →
  get_node g0 r = Some n0 →
  ∃ n, get_node g r = Some n ∧ get_pos n = get_pos n0 ∧
       neighbors n = neighbors n0.
Proof.
  intros Hsh Hn0. specialize (Hsh r). rewrite Hn0 in Hsh.
  destruct (get_node g r) as [n|]; [|done]. exists n.
  injection Hsh as Hrow Hcol _ _ _ _ Hnb. unfold get_pos.
  split; [done|]. split; [congruence|done].
Qed.

(** ** One round of the loop keeps the invariant and makes progress *)

Lemma no_regress_refl (g0 : Grid) (st : SearchState) : no_regress g0 st st.
Proof. right. done. Qed.

Lemma no_regress_trans (g0 : Grid) (st1 st2 st3 : SearchState) :
  no_regress g0 st3 st2 → no_regress g0 st2 st1 → no_regress g0 st3 st1.
Proof. unfold no_regress. lia. Qed.

Lemma no_regress_progress (g0 : Grid) (st1 st2 st3 : SearchState) :
  no_regress g0 st3 st2 → progress g0 st2 st1 → progress g0 st3 st1.
Proof. unfold no_regress, progress. lia. Qed.

Lemma no_regress_with_grid (g0 g : Grid) (st' st : SearchState) :
  no_regress g0 st' st → no_regress g0 (with_grid g st') st.
Proof. done. Qed.

Lemma elem_of_cells (g0 : Grid) (r : ref) :
  r ∈ cells g0 ↔ is_Some (get_node g0 r).
Proof.
  unfold cells. by rewrite elem_of_elements, elem_of_dom, all_inf_is_Some.
Qed.

Lemma NoDup_cells (g0 : Grid) : NoDup (cells g0).
Proof. unfold cells. apply NoDup_elements. Qed.

Section Loop.
Context {PQ : PriorityQueue}.
Variables (g0 : Grid) (s e : ref).
Hypothesis Hprep : prepared g0 = true.
Hypothesis He : is_Some (get_node g0 e).

Lemma deref_in_run (st : SearchState) (v : ref) :
  same_shape g0 (grid st) →
  is_Some (get_node g0 v) →
  ∃ n, deref (grid st) v = Ok n ∧ get_pos n = pos v ∧
       ∀ w, w ∈ neighbors n ↔ adjacent v w = true ∧ passable g0 w = true.
Proof.
  intros Hsh [n0 Hn0].
  destruct (same_shape_get _ _ _ _ Hsh Hn0) as (n & Hn & Hpos & Hnb).
  destruct (prepared_node _ _ _ Hprep Hn0) as [Hpos0 Hnb0].
  exists n. unfold deref. rewrite Hn. split; [done|].
  split; [congruence|]. by rewrite Hnb.
Qed.

Lemma visit_neighbor_cases (cur : ref) (k : Z) (st : SearchState) (v : ref) :
  base_inv g0 st →
  g_score st !! cur = Some (Fin k) →
  is_Some (get_node g0 v) →
  ∃ gv, g_score st !! v = Some gv ∧
    ((score_ltb (Fin (k + 1)) gv = false ∧
      visit_neighbor e cur st v = Ok st) ∨
     (score_ltb (Fin (k + 1)) gv = true ∧ v ∈ open_set_hash st ∧
      visit_neighbor e cur st v = Ok (improved cur v k e st)) ∨
     (score_ltb (Fin (k + 1)) gv = true ∧ (v ∉ open_set_hash st) ∧
      visit_neighbor e cur st v = Ok (pushed cur v k e st))).
Proof.
  intros Hinv Hcur Hv.
  destruct (proj2 (inv_dom _ _ Hinv v) Hv) as [gv Hgv].
  exists gv. split; [done|].
  unfold visit_neighbor, dict_get. rewrite Hcur, Hgv. simpl.
  destruct (score_ltb (Fin (k + 1)) gv) eqn:Hlt; [|by left]. right.
  destruct (deref_in_run st v (inv_shape _ _ Hinv) Hv) as (n & -> & Hn & _).
  destruct (deref_in_run st e (inv_shape _ _ Hinv) He) as (ne & -> & Hne & _).
  simpl. rewrite Hn, Hne.
  destruct (decide (v ∈ open_set_hash st)); [left|right]; done.
Qed.

Lemma relaxed_measure (cur v : ref) (k : Z) (gv : score)
    (st st' : SearchState) :
  is_Some (get_node g0 v) →
  g_score st !! v = Some gv →
  0 ≤ k →
  score_ltb (Fin (k + 1)) gv = true →
  g_score st' = <[v := Fin (k + 1)]> (g_score st) →
  (length (open_set st') ≤ S (length (open_set st)))%nat →
  no_regress g0 st' st.
Proof.
  intros Hv Hgv Hk Hlt Hg Hlen. unfold no_regress, unreached, work, total_cost.
  rewrite Hg.
  pose proof (NoDup_cells g0) as Hnd.
  apply elem_of_cells in Hv.
  pose proof (sum_list_with_update
    (λ r, match g_score st !! r with Some Inf => 1 | _ => 0 end)%nat
    (λ r, match <[v := Fin (k + 1)]> (g_score st) !! r with
          | Some Inf => 1 | _ => 0 end)%nat
    (cells g0) v Hnd Hv) as Hu.
  pose proof (sum_list_with_update
    (λ r, match g_score st !! r with
          | Some (Fin k) => Z.to_nat k | _ => 0%nat end)
    (λ r, match <[v := Fin (k + 1)]> (g_score st) !! r with
          | Some (Fin k) => Z.to_nat k | _ => 0%nat end)
    (cells g0) v Hnd Hv) as Hc.
  simpl in Hu, Hc. rewrite lookup_insert_eq, Hgv in Hu, Hc.
  specialize (Hu ltac:(by intros; rewrite lookup_insert_ne)).
  specialize (Hc ltac:(by intros; rewrite lookup_insert_ne)).
  destruct gv as [kv|]; unfold score_ltb in Hlt;
    [apply Z.ltb_lt in Hlt; right|left]; lia.
Qed.

Lemma base_inv_improved (cur v : ref) (k : Z) (st : SearchState) :
  base_inv g0 st →
  is_Some (get_node g0 v) →
  0 ≤ k →
  v ∈ open_set_hash st →
  base_inv g0 (improved cur v k e st).
Proof.
  intros [Hsh Hdom Hhash Hnd Hopen Hnn] Hv Hk Hin.
  split; simpl; try done.
  - intros r. rewrite <- Hdom. destruct (decide (v = r)) as [<-|Hne].
    + rewrite lookup_insert_eq. split; [by rewrite Hdom|by eexists].
    + by rewrite lookup_insert_ne.
  - intros w Hw. unfold reached. simpl. destruct (decide (v = w)) as [<-|Hne].
    + rewrite lookup_insert_eq. by eexists.
    + rewrite lookup_insert_ne by done. by apply Hopen.
  - intros w kw. destruct (decide (v = w)) as [<-|Hne].
    + rewrite lookup_insert_eq. intros [= <-]. lia.
    + rewrite lookup_insert_ne by done. apply Hnn.
Qed.

Lemma base_inv_pushed (cur v : ref) (k : Z) (st : SearchState) :
  base_inv g0 st →
  is_Some (get_node g0 v) →
  0 ≤ k →
  v ∉ open_set_hash st →
  base_inv g0 (pushed cur v k e st).
Proof.
  intros [Hsh Hdom Hhash Hnd Hopen Hnn] Hv Hk Hin.
  split; simpl.
  - by apply same_shape_set_color.
  - intros r. rewrite <- Hdom. destruct (decide (v = r)) as [<-|Hne].
    + rewrite lookup_insert_eq. split; [by rewrite Hdom|by eexists].
    + by rewrite lookup_insert_ne.
  - intros w. rewrite pq_put_perm, fmap_cons, elem_of_cons, <- Hhash.
    unfold entry_node at 1. simpl. set_solver.
  - rewrite pq_put_perm, fmap_cons. apply NoDup_cons.
    split; [|done]. by rewrite <- Hhash.
  - intros w Hw. unfold reached. simpl. destruct (decide (v = w)) as [<-|Hne].
    + rewrite lookup_insert_eq. by eexists.
    + rewrite lookup_insert_ne by done. apply Hopen. set_solver.
  - intros w kw. destruct (decide (v = w)) as [<-|Hne].
    + rewrite lookup_insert_eq. intros [= <-]. lia.
    + rewrite lookup_insert_ne by done. apply Hnn.
Qed.

Lemma take_base (st : SearchState) (item : entry) (rest : list entry) :
  base_inv g0 st →
  pq_get (open_set st) = Some (item, rest) →
  entry_node item ∈ open_set_hash st ∧
  base_inv g0 (take item rest st) ∧
  progress g0 (take item rest st) st ∧
  expanded (take item rest st) (entry_node item).
Proof.
  intros [Hsh Hdom Hhash Hnd Hopen Hnn] Hget.
  pose proof (pq_get_perm _ _ _ Hget) as Hperm.
  assert (entry_node item ∈ open_set_hash st) as Hin.
  { apply Hhash. rewrite Hperm, fmap_cons. by left. }
  rewrite Hperm, fmap_cons in Hnd. apply NoDup_cons in Hnd as [Hfresh Hnd].
  split; [done|]. split; [split; simpl; try done|split].
  - intros v. rewrite elem_of_difference, Hhash, Hperm, fmap_cons,
      elem_of_cons, elem_of_singleton.
    split; [by intros [[?|?] ?]|]. intros Hv. split; [by right|].
    by intros ->.
  - intros v [Hv _]%elem_of_difference. by apply Hopen.
  - right. split; [done|]. unfold work, total_cost. simpl.
    apply Permutation_length in Hperm. simpl in Hperm. lia.
  - split; [by apply Hopen|]. simpl. set_solver.
Qed.

(** The colours set at the end of a round. *)
Lemma expand_run (P : SearchState → Prop) (Q : ref → SearchState → Prop)
    (st : SearchState) (cur : ref) (k : Z) :
  base_inv g0 st →
  g_score st !! cur = Some (Fin k) →
  P st →
  (∀ st' v, base_inv g0 st' → g_score st' !! cur = Some (Fin k) → P st' →
     adjacent cur v = true → passable g0 v = true →
     ∀ st'', visit_neighbor e cur st' v = Ok st'' →
       P st'' ∧ Q v st'' ∧ ∀ b, Q b st' → Q b st'') →
  ∃ st1,
    expand s e cur st =
      Ok (with_grid
            (modify_node make_end e
               (if decide (cur ≠ s)
                then modify_node make_closed cur (grid st1)
                else grid st1)) st1) ∧
    base_inv g0 st1 ∧
    g_score st1 !! cur = Some (Fin k) ∧
    no_regress g0 st1 st ∧
    P st1 ∧
    ∀ v, adjacent cur v = true → passable g0 v = true → Q v st1.
Proof.
  intros Hinv Hcur HP Hbody.
  assert (is_Some (get_node g0 cur)) as Hvalid.
  { apply (inv_dom _ _ Hinv). by eexists. }
  destruct (deref_in_run st cur (inv_shape _ _ Hinv) Hvalid)
    as (n & Hn & _ & Hnb).
  unfold expand. rewrite Hn. simpl.
  destruct (for_each_inv_post (visit_neighbor e cur)
    (λ st', base_inv g0 st' ∧ g_score st' !! cur = Some (Fin k) ∧
            no_regress g0 st' st ∧ P st')
    Q (neighbors n) st) as (st1 & -> & (? & ? & ? & ?) & HQ).
  { split_and!; try done. apply no_regress_refl. }
  { intros st' v [Hadj Hpass]%Hnb (Hinv' & Hcur' & Hreg & HP').
    assert (is_Some (get_node g0 v)) as Hv.
    { unfold passable in Hpass. destruct (get_node g0 v); [by eexists|done]. }
    pose proof (inv_nonneg _ _ Hinv' _ _ Hcur') as Hk.
    destruct (visit_neighbor_cases cur k st' v Hinv' Hcur' Hv)
      as (gv & Hgv & [(Hlt & Hrun)|[(Hlt & Hin & Hrun)|(Hlt & Hin & Hrun)]]).
    - exists st'. split; [done|].
      destruct (Hbody st' v Hinv' Hcur' HP' Hadj Hpass _ Hrun) as (? & ? & ?).
      done.
    - eexists. split; [done|].
      destruct (Hbody st' v Hinv' Hcur' HP' Hadj Hpass _ Hrun) as (? & ? & ?).
      assert (v ≠ cur) as Hne.
      { intros ->. rewrite Hcur' in Hgv. injection Hgv as <-.
        unfold score_ltb in Hlt. lia. }
      split_and!; try done.
      + by apply base_inv_improved.
      + simpl. by rewrite lookup_insert_ne.
      + eapply no_regress_trans; [|done].
        eapply (relaxed_measure cur v k gv); try done. simpl. lia.
    - eexists. split; [done|].
      destruct (Hbody st' v Hinv' Hcur' HP' Hadj Hpass _ Hrun) as (? & ? & ?).
      assert (v ≠ cur) as Hne.
      { intros ->. rewrite Hcur' in Hgv. injection Hgv as <-.
        unfold score_ltb in Hlt. lia. }
      split_and!; try done.
      + by apply base_inv_pushed.
      + simpl. by rewrite lookup_insert_ne.
      + eapply no_regress_trans; [|done].
        eapply (relaxed_measure cur v k gv); try done. simpl.
        by rewrite pq_put_perm. }
  simpl. eexists. split; [done|]. split_and!; try done.
  intros v Hadj Hpass. apply HQ. by apply Hnb.
Qed.

Lemma base_inv_with_grid (st : SearchState) (g : Grid) :
  base_inv g0 st → same_shape g0 g → base_inv g0 (with_grid g st).
Proof. intros [Hsh Hdom Hhash Hnd Hopen Hnn] Hg. by split. Qed.

Lemma same_shape_recolor (st : SearchState) (cur : ref) :
  same_shape g0 (grid st) →
  same_shape g0
    (modify_node make_end e
       (if decide (cur ≠ s) then modify_node make_closed cur (grid st)
        else grid st)).
Proof.
  intros Hsh. apply same_shape_set_color.
  destruct (decide _); [by apply same_shape_set_color|done].
Qed.

(** The loop runs until the frontier is empty or the end node is taken from
    it, whatever else [I] is known to hold at every round. *)
Lemma loop_run (I : SearchState → Prop) :
  (∀ st, I st → base_inv g0 st) →
  (∀ st item rest st2, I st →
     pq_get (open_set st) = Some (item, rest) →
     entry_node item ≠ e →
     expand s e (entry_node item) (take item rest st) = Ok st2 →
     I st2) →
  ∀ st events, I st → never_stopped events = true →
  ∃ n,
    (∃ stf, I stf ∧ open_set stf = [] ∧
       ∀ extra, search_loop (S n + extra) s e events st = Exhausted stf) ∨
    (∃ st' item rest, I st' ∧
       pq_get (open_set st') = Some (item, rest) ∧
       entry_node item = e ∧
       ∀ extra, search_loop (S n + extra) s e events st
                = finish extra s e (take item rest st')).
Proof.
  intros Hbase Hstep st.
  remember (unreached g0 st) as u eqn:Hu. revert st Hu.
  induction u as [u IHu] using lt_wf_ind. intros st Hu.
  remember (work g0 st) as w eqn:Hw. revert st Hu Hw.
  induction w as [w IHw] using lt_wf_ind. intros st Hu Hw events HI Hev.
  destruct (pq_empty (open_set st)) eqn:Hq.
  { exists 0%nat. left. exists st. split_and!; try done.
    - by destruct (open_set st).
    - intros extra. simpl. by rewrite Hq. }
  assert (existsb stops_run (hd [] events) = false) as Hhd.
  { destruct events as [|batch events]; [done|]. simpl in Hev.
    apply andb_prop in Hev as [Hev _]. by apply negb_true_iff in Hev. }
  assert (never_stopped (tl events) = true) as Htl.
  { destruct events as [|batch events]; [done|]. simpl in Hev.
    by apply andb_prop in Hev as [_ Hev]. }
  destruct (pq_get_nonempty (open_set st)) as [[item rest] Hget];
    [by intros Hnil; rewrite Hnil in Hq|].
  pose proof (Hbase _ HI) as Hinv.
  destruct (take_base st item rest Hinv Hget)
    as (Hin & Hinv1 & Hprog & [[k Hk] Hout]).
  destruct (decide (entry_node item = e)) as [Hend|Hnend].
  { exists 0%nat. right. exists st, item, rest. split_and!; try done.
    intros extra. simpl. rewrite Hq, Hhd, Hget.
    rewrite decide_True by done. by rewrite decide_True by done. }
  destruct (expand_run (λ _, True) (λ _ _, True) (take item rest st)
              (entry_node item) k Hinv1 Hk Logic.I)
    as (st1 & Hrun & Hinv2 & _ & Hreg & _); [done|].
  pose proof (Hstep _ _ _ _ HI Hget Hnend Hrun) as HI2.
  set (st2 := with_grid _ st1) in *.
  assert (progress g0 st2 st) as Hprog2.
  { eapply no_regress_progress; [|done]. by apply no_regress_with_grid. }
  assert (∃ n, (∃ stf, I stf ∧ open_set stf = [] ∧
       ∀ extra, search_loop (S n + extra) s e (tl events) st2 = Exhausted stf) ∨
    (∃ st' item rest, I st' ∧
       pq_get (open_set st') = Some (item, rest) ∧
       entry_node item = e ∧
       ∀ extra, search_loop (S n + extra) s e (tl events) st2
                = finish extra s e (take item rest st'))) as [n Hn].
  { destruct Hprog2 as [Hlt|[Heq Hlt]].
    - eapply (IHu (unreached g0 st2)); [lia|done|done|done].
    - eapply (IHw (work g0 st2)); [lia|lia|done|done|done]. }
  exists (S n).
  assert (∀ extra, search_loop (S (S n) + extra) s e events st
                   = search_loop (S n + extra) s e (tl events) st2) as Hunfold.
  { intros extra. change (S (S n) + extra)%nat with (S (S n + extra)).
    cbn [search_loop]. rewrite Hq, Hhd, Hget.
    rewrite decide_True by done.
    rewrite decide_False by done. by rewrite Hrun. }
  destruct Hn as [(stf & ? & ? & Hr)|(st' & item' & rest' & ? & ? & ? & Hr)].
  - left. exists stf. split_and!; try done.
    intros extra. by rewrite Hunfold.
  - right. exists st', item', rest'. split_and!; try done.
    intros extra. by rewrite Hunfold.
Qed.

End Loop.

(** ** Colours through references *)

Lemma color_at_set_eq (g : Grid) (r : ref) (c : Color) :
  is_Some (get_node g r) →
  color_at (modify_node (set_color c) r g) r = Some c.
Proof.
  intros [n Hn]. unfold color_at. by rewrite get_node_modify_eq, Hn.
Qed.

Lemma color_at_set_ne (g : Grid) (r r' : ref) (c : Color) :
  r ≠ r' → color_at (modify_node (set_color c) r g) r' = color_at g r'.
Proof. intros. unfold color_at. by rewrite get_node_modify_ne. Qed.

Lemma color_at_set_cases (g : Grid) (r r' : ref) (c : Color) :
  color_at (modify_node (set_color c) r g) r' = Some c ∨
  color_at (modify_node (set_color c) r g) r' = color_at g r'.
Proof.
  destruct (decide (r = r')) as [<-|Hne]; [|right; by apply color_at_set_ne].
  unfold color_at. rewrite get_node_modify_eq.
  destruct (get_node g r); [by left|by right].
Qed.

Lemma same_shape_is_Some (g0 g : Grid) (r : ref) :
  same_shape g0 g → is_Some (get_node g r) ↔ is_Some (get_node g0 r).
Proof.
  intros Hsh. specialize (Hsh r).
  destruct (get_node g r), (get_node g0 r); try done.
  all: split; by intros [? ?].
Qed.

Lemma all_nodes_get (p : Node → bool) (g : Grid) (r : ref) (n : Node) :
  all_nodes p g = true → get_node g r = Some n → p n = true.
Proof.
  unfold all_nodes, get_node. rewrite forallb_forall. intros Hall.
  destruct (g !! r.1) as [line|] eqn:Hline; [|done]. intros Hn.
  apply list_elem_of_lookup_2, list_elem_of_In, Hall in Hline.
  rewrite forallb_forall in Hline.
  by apply Hline, list_elem_of_In, list_elem_of_lookup_2 with r.2.
Qed.

(** ** Connected cells *)

Lemma connected_snoc (g : Grid) (u v w : ref) :
  connected g u v → adjacent v w = true → passable g w = true →
  connected g u w.
Proof.
  induction 1 as [u Hu|u v' v Hu Hadj Hconn IH]; intros Hvw Hw.
  - eapply connected_step; [done|done|]. by apply connected_here.
  - eapply connected_step; [done|done|]. by apply IH.
Qed.

Lemma connected_first (g : Grid) (u v : ref) :
  connected g u v → passable g u = true.
Proof. by destruct 1. Qed.

(** A set of cells closed under steps keeps what is connected to its
    members. *)
Lemma separates_not_connected (g : Grid) (s e : ref) (side : list ref) :
  separates g s e side = true → ¬ connected g s e.
Proof.
  unfold separates. intros [[Hs He]%andb_prop Hclosed]%andb_prop Hconn.
  apply bool_decide_eq_true in Hs. apply negb_true_iff in He.
  apply bool_decide_eq_false in He. apply He. clear He.
  rewrite forallb_forall in Hclosed.
  induction Hconn as [u Hu|u v w Hu Hadj Hconn IH]; [done|].
  apply IH. apply list_elem_of_In, Hclosed in Hs.
  rewrite forallb_forall in Hs.
  assert (v ∈ grid_refs g) as Hv.
  { apply elem_of_grid_refs. apply connected_first in Hconn.
    unfold passable in Hconn. destruct (get_node g v); [by eexists|done]. }
  apply list_elem_of_In, Hs in Hv.
  rewrite Hadj, (connected_first _ _ _ Hconn) in Hv.
  by apply bool_decide_eq_true in Hv.
Qed.

(** ** The state before the loop *)

Section Initial.
Context {PQ : PriorityQueue}.
Variables (g0 : Grid) (s e : ref) (st0 : SearchState).
Hypothesis Hs : is_Some (get_node g0 s).
Hypothesis Hinit : initial_state g0 s e = Ok st0.

Lemma initial_state_fields :
  count st0 = 0 ∧ origin_node st0 = ∅ ∧
  open_set st0 ≡ₚ [(Fin 0, 0, s)] ∧ open_set_hash st0 = {[s]} ∧
  g_score st0 = <[s := Fin 0]> (all_inf g0) ∧
  grid st0 = g0 ∧ visited st0 = [].
Proof.
  unfold initial_state in Hinit.
  destruct (deref g0 s); [|done]. destruct (deref g0 e); [|done].
  simpl in Hinit. injection Hinit as <-. simpl.
  split_and!; try done. apply pq_put_perm.
Qed.

Lemma initial_reached (v : ref) : reached st0 v ↔ v = s.
Proof.
  destruct initial_state_fields as (_ & _ & _ & _ & Hg & _).
  unfold reached. rewrite Hg. split.
  - intros [k Hk]. destruct (decide (s = v)) as [|Hne]; [done|].
    rewrite lookup_insert_ne, all_inf_lookup in Hk by done.
    by destruct (decide _).
  - intros ->. exists 0. apply lookup_insert_eq.
Qed.

Lemma base_inv_initial : base_inv g0 st0.
Proof.
  destruct initial_state_fields as (_ & _ & Hq & Hh & Hg & Hgrid & _).
  split.
  - by rewrite Hgrid.
  - intros r. rewrite Hg. destruct (decide (s = r)) as [<-|Hne].
    + rewrite lookup_insert_eq. split; [done|by eexists].
    + rewrite lookup_insert_ne by done. apply all_inf_is_Some.
  - intros v. rewrite Hh, Hq. simpl. set_solver.
  - rewrite Hq. simpl. apply NoDup_singleton.
  - intros v. rewrite Hh. intros ->%elem_of_singleton.
    by apply initial_reached.
  - intros v k. rewrite Hg. destruct (decide (s = v)) as [<-|Hne].
    + rewrite lookup_insert_eq. by intros [= <-].
    + rewrite lookup_insert_ne, all_inf_lookup by done.
      by destruct (decide _).
Qed.

End Initial.

(** ** A run in which the end node cannot be reached *)

Section Unreachable.
Context {PQ : PriorityQueue}.
Variables (g0 : Grid) (s e : ref).
Hypothesis Hprep : prepared g0 = true.
Hypothesis Hpass : passable g0 s = true.
Hypothesis He : is_Some (get_node g0 e).
Hypothesis Hsep : ¬ connected g0 s e.

Lemma passable_is_Some (v : ref) :
  passable g0 v = true → is_Some (get_node g0 v).
Proof. unfold passable. destruct (get_node g0 v); [by eexists|done]. Qed.

Lemma ui_initial (st0 : SearchState) :
  no_path_node g0 = true →
  initial_state g0 s e = Ok st0 →
  unreachable_inv g0 s None st0.
Proof.
  intros Hnp Hinit.
  pose proof (passable_is_Some _ Hpass) as Hs.
  destruct (initial_state_fields g0 s e st0 Hinit)
    as (_ & _ & Hq & Hh & Hg & Hgrid & _).
  pose proof (initial_reached g0 s e st0 Hinit) as Hreach.
  split.
  - rewrite Hg. apply lookup_insert_eq.
  - by rewrite Hgrid.
  - intros v ->%Hreach. by apply connected_here.
  - intros u v [->%Hreach Hout]. rewrite Hh in Hout. set_solver.
  - intros u [->%Hreach Hout]. rewrite Hh in Hout. set_solver.
  - intros v. rewrite Hgrid. unfold color_at.
    destruct (get_node g0 v) as [n|] eqn:Hn; [|done].
    pose proof (all_nodes_get _ _ _ _ Hnp Hn) as Hc. simpl in Hc.
    apply negb_true_iff, bool_decide_eq_false in Hc. simpl. congruence.
  - done.
Qed.

Lemma ui_take (st : SearchState) (item : entry) (rest : list entry) :
  unreachable_inv g0 s None st →
  unreachable_inv g0 s (Some (entry_node item)) (take item rest st).
Proof.
  intros [Hst Hsc Hconn Hnb Hcl Hnp _].
  assert (∀ u, expanded (take item rest st) u → Some u ≠ Some (entry_node item)
               → expanded st u) as Hexp.
  { intros u [Hr Hout] Hne. split; [done|]. simpl in Hout.
    intros Hin. apply Hout. apply elem_of_difference. split; [done|].
    intros ->%elem_of_singleton. done. }
  split; try done.
  - intros u v Hu Hne. apply Hnb; [by apply Hexp|done].
  - intros u Hu Hne. apply Hcl; [by apply Hexp|done].
  - intros u [= <-]. simpl. set_solver.
Qed.

Lemma ui_visit (cur : ref) (k : Z) (st' st'' : SearchState) (v : ref) :
  base_inv g0 st' →
  g_score st' !! cur = Some (Fin k) →
  unreachable_inv g0 s (Some cur) st' →
  adjacent cur v = true → passable g0 v = true →
  visit_neighbor e cur st' v = Ok st'' →
  unreachable_inv g0 s (Some cur) st'' ∧ reached st'' v ∧
  ∀ b, reached st' b → reached st'' b.
Proof.
  intros Hinv Hcur [Hst Hsc Hconn Hnb Hcl Hnp Hbusy] Hadj Hpv Hrun.
  pose proof (inv_nonneg _ _ Hinv _ _ Hcur) as Hk.
  destruct (visit_neighbor_cases g0 e Hprep He cur k st' v Hinv Hcur
              (passable_is_Some _ Hpv))
    as (gv & Hgv & [(Hlt & Hrun')|[(Hlt & Hin & Hrun')|(Hlt & Hin & Hrun')]]);
    rewrite Hrun' in Hrun; injection Hrun as <-.
  - split; [done|]. split; [|done].
    destruct gv as [kv|]; [by exists kv|done].
  - assert (v ≠ s) as Hvs.
    { intros ->. rewrite Hst in Hgv. injection Hgv as <-.
      unfold score_ltb in Hlt. lia. }
    assert (∀ b, reached st' b → reached (improved cur v k e st') b) as Hmono.
    { intros b [kb Hb]. unfold reached. simpl.
      destruct (decide (v = b)) as [<-|Hne].
      - rewrite lookup_insert_eq. by eexists.
      - rewrite lookup_insert_ne by done. by eexists. }
    assert (∀ u, expanded (improved cur v k e st') u → expanded st' u) as Hexp.
    { intros u [[ku Hu] Hout]. simpl in *. split; [|done].
      rewrite lookup_insert_ne in Hu by (by intros ->). by exists ku. }
    split; [split; simpl; try done|split; [|done]].
    + by rewrite lookup_insert_ne.
    + intros w [kw Hw]. simpl in Hw. destruct (decide (v = w)) as [<-|Hne].
      * eapply connected_snoc; [|done|done]. apply Hconn. by exists k.
      * rewrite lookup_insert_ne in Hw by done. apply Hconn. by exists kw.
    + intros u w Hu Hne Huw Hw. apply Hmono.
      apply (Hnb u w); [by apply Hexp|done..].
    + intros u Hu Hne Hus. apply Hcl; [by apply Hexp|done..].
    + unfold reached. simpl. rewrite lookup_insert_eq. by eexists.
  - assert (v ≠ s) as Hvs.
    { intros ->. rewrite Hst in Hgv. injection Hgv as <-.
      unfold score_ltb in Hlt. lia. }
    assert (v ≠ cur) as Hvc.
    { intros ->. rewrite Hcur in Hgv. injection Hgv as <-.
      unfold score_ltb in Hlt. lia. }
    assert (∀ b, reached st' b → reached (pushed cur v k e st') b) as Hmono.
    { intros b [kb Hb]. unfold reached. simpl.
      destruct (decide (v = b)) as [<-|Hne].
      - rewrite lookup_insert_eq. by eexists.
      - rewrite lookup_insert_ne by done. by eexists. }
    assert (∀ u, expanded (pushed cur v k e st') u → expanded st' u ∧ u ≠ v)
      as Hexp.
    { intros u [[ku Hu] Hout]. simpl in *.
      assert (u ≠ v) as Hne by set_solver. split; [|done].
      split; [|set_solver].
      rewrite lookup_insert_ne in Hu by done. by exists ku. }
    split; [split; simpl|split; [|done]].
    + by rewrite lookup_insert_ne.
    + unfold make_open. by rewrite color_at_set_ne.
    + intros w [kw Hw]. simpl in Hw. destruct (decide (v = w)) as [<-|Hne].
      * eapply connected_snoc; [|done|done]. apply Hconn. by exists k.
      * rewrite lookup_insert_ne in Hw by done. apply Hconn. by exists kw.
    + intros u w Hu Hne Huw Hw. apply Hmono.
      destruct (Hexp _ Hu). by apply (Hnb u w).
    + intros u Hu Hne Hus. destruct (Hexp _ Hu).
      unfold make_open. rewrite color_at_set_ne by done. by apply Hcl.
    + intros w. unfold make_open.
      destruct (color_at_set_cases (grid st') v w states.open) as [-> | ->];
        [done|apply Hnp].
    + intros u [= <-]. specialize (Hbusy cur eq_refl). set_solver.
    + unfold reached. simpl. rewrite lookup_insert_eq. by eexists.
Qed.

Lemma ui_round (cur : ref) (st1 : SearchState) :
  base_inv g0 st1 →
  unreachable_inv g0 s (Some cur) st1 →
  reached st1 cur →
  (∀ v, adjacent cur v = true → passable g0 v = true → reached st1 v) →
  unreachable_inv g0 s None
    (with_grid
       (modify_node make_end e
          (if decide (cur ≠ s) then modify_node make_closed cur (grid st1)
           else grid st1)) st1).
Proof.
  intros Hinv [Hst Hsc Hconn Hnb Hcl Hnp Hbusy] Hcur Hall.
  assert (∀ u, reached st1 u → u ≠ e) as Hne.
  { intros u Hu ->. by apply Hsep, Hconn. }
  assert (s ≠ e) as Hse.
  { apply Hne. by exists 0. }
  split; simpl; try done.
  - unfold make_end. rewrite color_at_set_ne by done.
    destruct (decide (cur ≠ s)); [|done].
    unfold make_closed. by rewrite color_at_set_ne.
  - intros u v Hu _ Huv Hv. destruct (decide (u = cur)) as [->|Huc].
    + by apply Hall.
    + apply (Hnb u v); try done. congruence.
  - intros u Hu _ Hus. unfold make_end.
    rewrite color_at_set_ne by (apply not_eq_sym, Hne, Hu).
    destruct (decide (u = cur)) as [->|Huc].
    + rewrite decide_True by done. unfold make_closed.
      apply color_at_set_eq.
      apply (same_shape_is_Some g0); [apply Hinv|].
      apply (inv_dom _ _ Hinv). destruct Hcur as [k Hk]. by eexists.
    + destruct (decide (cur ≠ s)).
      * unfold make_closed. rewrite color_at_set_ne by done.
        apply Hcl; [done|congruence|done].
      * apply Hcl; [done|congruence|done].
  - intros v. unfold make_end.
    destruct (color_at_set_cases
      (if decide (cur ≠ s) then modify_node make_closed cur (grid st1)
       else grid st1) e v states.end_) as [-> | ->]; [done|].
    destruct (decide (cur ≠ s)); [|apply Hnp]. unfold make_closed.
    destruct (color_at_set_cases (grid st1) cur v states.closed)
      as [-> | ->]; [done|apply Hnp].
Qed.

End Unreachable.

(** C2, as the code has it: on a prepared grid without path nodes, with a
    start node that is not a barrier, and with no sequence of adjacent
    non-barrier cells from the start node to the end node, a run that is
    not stopped ends at the end of the [while] loop with an empty
    frontier; every cell connected to the start node, other than the start
    node, is then closed, the start node has the colour it had, and no
    cell is a path node.  The grid has to be prepared: with neighbour
    lists that an earlier search left on the start node and on barriers, a
    run can leave a walled-in start node through a barrier and end with a
    path. *)
Theorem exhausted_when_end_unreachable {PQ : PriorityQueue} (g0 : Grid)
    (s e : ref) (events : list (list Event)) :
  prepared g0 = true →
  no_path_node g0 = true →
  passable g0 s = true →
  is_Some (get_node g0 e) →
  never_stopped events = true →
  ¬ connected g0 s e →
  ∃ fuel0 st,
    (∀ fuel, (fuel0 ≤ fuel)%nat →
       generate_path fuel g0 (Some s) (Some e) events = Exhausted st) ∧
    open_set st = [] ∧
    (∀ v, connected g0 s v → v ≠ s →
       color_at (grid st) v = Some states.closed) ∧
    color_at (grid st) s = color_at g0 s ∧
    (∀ v, color_at (grid st) v ≠ Some states.path).
Proof.
  intros Hprep Hnp Hpass He Hev Hsep.
  pose proof (passable_is_Some g0 s Hpass) as Hs.
  destruct Hs as [s_node Hs'], He as [e_node He'].
  pose proof (initial_state_ok g0 s e _ _ Hs' He') as Hinit.
  set (st0 := mkState _ _ _ _ _ _ _ _) in Hinit.
  assert (is_Some (get_node g0 s)) as Hs by by eexists.
  assert (is_Some (get_node g0 e)) as He by by eexists.
  destruct (loop_run g0 s e Hprep He
    (λ st, base_inv g0 st ∧ unreachable_inv g0 s None st)) with st0 events
    as [n [(stf & [Hinv Hui] & Hq & Hrun)|
           (st' & item & rest & [Hinv Hui] & Hget & Hend & _)]].
  - by intros st [? ?].
  - intros st item rest st2 [Hinv Hui] Hget Hnend Hrun.
    destruct (take_base g0 e Hprep He st item rest Hinv Hget)
      as (_ & Hinv1 & _ & [[k Hk] Hout]).
    destruct (expand_run g0 s e Hprep He
      (unreachable_inv g0 s (Some (entry_node item))) (λ v st, reached st v)
      (take item rest st) (entry_node item) k Hinv1 Hk)
      as (st1 & Hrun' & Hinv2 & Hk2 & _ & Hui2 & Hall).
    { by apply (ui_take g0 s e). }
    { intros st' v Hinv' Hk' Hui' Hadj Hpv st'' Hvisit.
      by eapply (ui_visit g0 s e Hprep Hpass He Hsep). }
    rewrite Hrun' in Hrun. injection Hrun as <-. split.
    + apply base_inv_with_grid; [done|].
      apply same_shape_recolor, Hinv2.
    + apply (ui_round g0 s e); try done. by exists k.
  - split; [apply (base_inv_initial g0 s e st0 Hs Hinit)|].
    apply (ui_initial g0 s e Hprep Hpass He Hsep st0 Hnp Hinit).
  - done.
  - exists (S n), stf.
    assert (∀ u v, connected g0 u v → reached stf u → reached stf v) as Hclosure.
    { intros u v Hconn. induction Hconn as [u Hu|u v w Hu Hadj Hconn IH];
        [done|].
      intros Hru. apply IH. apply (ui_neighbors _ _ _ _ Hui u v); try done.
      - split; [done|]. rewrite (inv_hash _ _ Hinv), Hq. set_solver.
      - by apply connected_first in Hconn. }
    split_and!.
    + intros fuel Hfuel. unfold generate_path. rewrite Hinit.
      replace fuel with (S n + (fuel - S n))%nat by lia. apply Hrun.
    + done.
    + intros v Hconn Hvs. apply (ui_closed _ _ _ _ Hui); try done.
      split.
      * apply (Hclosure s v Hconn). exists 0. apply (ui_start _ _ _ _ Hui).
      * rewrite (inv_hash _ _ Hinv), Hq. set_solver.
    + apply (ui_start_color _ _ _ _ Hui).
    + apply (ui_no_path _ _ _ _ Hui).
  - exfalso. apply Hsep. apply (ui_connected _ _ _ _ Hui).
    apply (inv_open_reached _ _ Hinv). apply (inv_hash _ _ Hinv).
    rewrite (pq_get_perm _ _ _ Hget), fmap_cons, Hend. by left.
Qed.

Lemma exhausted_when_end_unreachable_witness :
  ∃ fuel0 st,
    (∀ fuel, (fuel0 ≤ fuel)%nat →
       generate_path (PQ := list_pq) fuel
         (prepared_grid 3 (0, 0)%nat (0, 2)%nat
            [(0, 1)%nat; (1, 1)%nat; (2, 1)%nat])
         (Some (0, 0)%nat) (Some (0, 2)%nat) [[OtherEvent]] = Exhausted st) ∧
    open_set st = [] ∧
    (∀ v, connected (prepared_grid 3 (0, 0)%nat (0, 2)%nat
                       [(0, 1)%nat; (1, 1)%nat; (2, 1)%nat]) (0, 0)%nat v →
          v ≠ (0, 0)%nat →
          color_at (grid st) v = Some states.closed) ∧
    color_at (grid st) (0, 0)%nat =
      color_at (prepared_grid 3 (0, 0)%nat (0, 2)%nat
                  [(0, 1)%nat; (1, 1)%nat; (2, 1)%nat]) (0, 0)%nat ∧
    (∀ v, color_at (grid st) v ≠ Some states.path).
Proof.
  apply (exhausted_when_end_unreachable (PQ := list_pq)).
  - by vm_compute.
  - by vm_compute.
  - by vm_compute.
  - vm_compute. by eexists.
  - reflexivity.
  - apply (separates_not_connected _ _ _ [(0, 0)%nat; (1, 0)%nat; (2, 0)%nat]).
    by vm_compute.
Defined.

(** C2, as the claim has it, fails at the start node: on the three by
    three grid with a wall in the middle column the run ends with an empty
    frontier, the start node is connected to itself, and it is not closed:
    it still has the start colour. *)
Lemma start_node_is_not_closed :
  ∃ st,
    generate_path (PQ := list_pq) 10
      (prepared_grid 3 (0, 0)%nat (0, 2)%nat
         [(0, 1)%nat; (1, 1)%nat; (2, 1)%nat])
      (Some (0, 0)%nat) (Some (0, 2)%nat) [] = Exhausted st ∧
    connected (prepared_grid 3 (0, 0)%nat (0, 2)%nat
                 [(0, 1)%nat; (1, 1)%nat; (2, 1)%nat])
      (0, 0)%nat (0, 0)%nat ∧
    color_at (grid st) (0, 0)%nat = Some states.start ∧
    color_at (grid st) (0, 0)%nat ≠ Some states.closed.
Proof.
  eexists. split; [by vm_compute|]. split; [|by vm_compute].
  apply connected_here. by vm_compute.
Qed.

(** ** Distances on a grid without barriers *)

Lemma dist_unfold (u v : ref) :
  dist u v =
  Z.abs (Z.of_nat u.1 - Z.of_nat v.1) + Z.abs (Z.of_nat u.2 - Z.of_nat v.2).
Proof. done. Qed.

Lemma adjacent_dist (u v : ref) : adjacent u v = true ↔ dist u v = 1.
Proof. unfold adjacent, dist. apply Z.eqb_eq. Qed.

Lemma dist_nonneg (u v : ref) : 0 ≤ dist u v.
Proof. rewrite dist_unfold. lia. Qed.

Lemma dist_zero (u v : ref) : dist u v = 0 → u = v.
Proof.
  rewrite dist_unfold. destruct u as [a b], v as [c d]. simpl.
  intros H. f_equal; lia.
Qed.

Lemma dist_self (u : ref) : dist u u = 0.
Proof. rewrite dist_unfold. lia. Qed.

Lemma dist_triangle (u v w : ref) : dist u w ≤ dist u v + dist v w.
Proof. rewrite !dist_unfold. lia. Qed.

Lemma dist_step (s u v : ref) :
  dist u v = 1 → dist s v = dist s u + 1 ∨ dist s v = dist s u - 1.
Proof. rewrite !dist_unfold. lia. Qed.

Lemma dist_step_to (e u v : ref) :
  dist u v = 1 → dist v e = dist u e + 1 ∨ dist v e = dist u e - 1.
Proof. rewrite !dist_unfold. lia. Qed.

(** A step back from a place on a shortest way stays on a shortest way. *)
Lemma on_rect_back (s e u v : ref) :
  on_rect s e u → dist u v = 1 → dist s v = dist s u - 1 → on_rect s e v.
Proof. unfold on_rect. rewrite !dist_unfold. lia. Qed.

Lemma on_rect_successor (N : nat) (s e u : ref) :
  (s.1 < N)%nat → (s.2 < N)%nat → (e.1 < N)%nat → (e.2 < N)%nat →
  on_rect s e u → u ≠ e →
  ∃ v, (v.1 < N)%nat ∧ (v.2 < N)%nat ∧ dist u v = 1 ∧ on_rect s e v ∧
       dist v e = dist u e - 1 ∧ dist s v = dist s u + 1.
Proof.
  unfold on_rect. rewrite !dist_unfold.
  destruct s as [sr sc], e as [er ec], u as [ur uc]. simpl.
  intros ? ? ? ? Hrect Hne.
  destruct (decide (ur < er)%nat); [exists (S ur, uc)|
  destruct (decide (er < ur)%nat); [exists (ur - 1, uc)%nat|
  destruct (decide (uc < ec)%nat); [exists (ur, S uc)|
  exists (ur, uc - 1)%nat]]].
  all: rewrite !dist_unfold; simpl.
  4: assert (uc ≠ ec) by (intros ->; apply Hne; f_equal; lia).
  all: lia.
Qed.

Lemma on_rect_predecessor (N : nat) (s e w : ref) :
  (s.1 < N)%nat → (s.2 < N)%nat → (e.1 < N)%nat → (e.2 < N)%nat →
  on_rect s e w → w ≠ s →
  ∃ v, (v.1 < N)%nat ∧ (v.2 < N)%nat ∧ dist v w = 1 ∧ on_rect s e v ∧
       dist s v = dist s w - 1.
Proof.
  unfold on_rect. rewrite !dist_unfold.
  destruct s as [sr sc], e as [er ec], w as [wr wc]. simpl.
  intros ? ? ? ? Hrect Hne.
  destruct (decide (wr < sr)%nat); [exists (S wr, wc)|
  destruct (decide (sr < wr)%nat); [exists (wr - 1, wc)%nat|
  destruct (decide (wc < sc)%nat); [exists (wr, S wc)|
  exists (wr, wc - 1)%nat]]].
  all: rewrite !dist_unfold; simpl.
  4: assert (wc ≠ sc) by (intros ->; apply Hne; f_equal; lia).
  all: lia.
Qed.

(** ** A run on a grid without barriers *)

Lemma elem_of_entry_nodes (q : list entry) (v : ref) :
  v ∈ entry_node <$> q ↔ ∃ p c, (p, c, v) ∈ q.
Proof.
  rewrite list_elem_of_fmap. split.
  - intros ([[p c] v'] & -> & Hin). by exists p, c.
  - intros (p & c & Hin). by exists (p, c, v).
Qed.

Lemma expanded_take (st : SearchState) (item : entry) (rest : list entry)
    (u : ref) :
  expanded (take item rest st) u → u ≠ entry_node item → expanded st u.
Proof.
  intros [Hr Hout] Hne. split; [done|]. simpl in Hout. set_solver.
Qed.

Lemma expanded_take_2 (st : SearchState) (item : entry) (rest : list entry)
    (u : ref) :
  expanded st u → expanded (take item rest st) u.
Proof. intros [Hr Hout]. split; [done|]. simpl. set_solver. Qed.

Section Shortest.
Context {PQ : PriorityQueue}.
Variables (g0 : Grid) (s e : ref).
Hypothesis Hprep : prepared g0 = true.
Hypothesis Hnb : no_barrier g0 = true.
Hypothesis Hs : is_Some (get_node g0 s).
Hypothesis He : is_Some (get_node g0 e).
Hypothesis Hse : s ≠ e.

Lemma valid_passable (v : ref) :
  is_Some (get_node g0 v) → passable g0 v = true.
Proof.
  intros [n Hn]. unfold passable. rewrite Hn.
  apply (all_nodes_get _ _ _ _ Hnb Hn).
Qed.

Lemma elem_of_pq_put (x y : entry) (q : list entry) :
  x ∈ pq_put y q ↔ x = y ∨ x ∈ q.
Proof. by rewrite pq_put_perm, elem_of_cons. Qed.

Lemma hash_entry (st : SearchState) (v : ref) :
  base_inv g0 st →
  v ∈ open_set_hash st ↔ ∃ p c, (p, c, v) ∈ open_set st.
Proof. intros Hinv. by rewrite (inv_hash _ _ Hinv), elem_of_entry_nodes. Qed.

(** As long as the end node is not expanded, a node of a shortest way
    waits in the frontier. *)
Lemma si_frontier (st : SearchState) :
  base_inv g0 st →
  shortest_inv g0 s e None st →
  ∃ v, on_rect s e v ∧ v ∈ open_set_hash st.
Proof.
  intros Hinv Hsi.
  assert (∀ n u, Z.to_nat (dist u e) = n → expanded st u →
                 ∃ v, on_rect s e v ∧ v ∈ open_set_hash st) as Hind.
  { induction n as [n IH] using lt_wf_ind. intros u Hn Hu.
    destruct (si_expanded _ _ _ _ _ Hsi u Hu) as [_ Hrect].
    pose proof (si_not_end _ _ _ _ _ Hsi u Hu) as Hne.
    apply (prepared_square g0 s Hprep) in Hs as [? ?].
    apply (prepared_square g0 e Hprep) in He as [? ?].
    destruct (on_rect_successor (length g0) s e u)
      as (v & ? & ? & Huv & Hv & Hve & _); try done.
    assert (is_Some (get_node g0 v)) as Hvalid.
    { by apply (prepared_square g0 v Hprep). }
    destruct (si_neighbors _ _ _ _ _ Hsi u v) as (kv & Hkv & _); try done.
    { by apply adjacent_dist. }
    destruct (decide (v ∈ open_set_hash st)) as [Hin|Hout];
      [by exists v|].
    apply (IH (Z.to_nat (dist v e))) with v; [|done|].
    - pose proof (dist_nonneg v e). lia.
    - split; [by exists kv|done]. }
  destruct (si_start _ _ _ _ _ Hsi) as (Hg & Hout & _).
  apply (Hind _ s eq_refl). split; [by exists 0|done].
Qed.

(** Taking the least element of the frontier, in a round after the first. *)
Lemma si_pop (st : SearchState) (item : entry) (rest : list entry) :
  base_inv g0 st →
  shortest_inv g0 s e None st →
  pq_get (open_set st) = Some (item, rest) →
  entry_node item ≠ e →
  g_score st !! entry_node item = Some (Fin (dist s (entry_node item))) ∧
  shortest_inv g0 s e (Some (entry_node item)) (take item rest st) ∧
  visiting g0 s e (entry_node item) (take item rest st).
Proof.
  intros Hinv Hsi Hget Hnend.
  destruct item as [[p c] cur]. unfold entry_node in *. simpl in Hnend |- *.
  pose proof (pq_get_perm _ _ _ Hget) as Hperm.
  assert ((p, c, cur) ∈ open_set st) as Hitem by (rewrite Hperm; by left).
  assert (∀ x, x ∈ rest → x ∈ open_set st) as Hrest.
  { intros x Hx. rewrite Hperm. by right. }
  destruct (si_frontier st Hinv Hsi) as (v & Hv & Hvin).
  apply (hash_entry st v Hinv) in Hvin as (p' & c' & Hv').
  destruct (si_good _ _ _ _ _ Hsi _ _ _ Hv' Hv) as [-> Hgv].
  pose proof (pq_get_min _ _ _ _ Hget Hv') as Hmin.
  destruct (si_priority _ _ _ _ _ Hsi _ _ _ Hitem) as (k & pp & Hk & -> & Hpp).
  pose proof (si_lower _ _ _ _ _ Hsi _ _ Hk) as Hlow.
  pose proof (dist_triangle s cur e) as Htri.
  assert (pp = dist s e ∧ k = dist s cur ∧ on_rect s e cur) as (-> & -> & Hcur).
  { apply not_true_iff_false in Hmin. rewrite entry_ltb_spec in Hmin.
    unfold entry_priority, entry_count in Hmin. simpl in Hmin.
    assert (¬ dist s e < pp) as Hnlt.
    { intros Hlt. apply Hmin. left. unfold score_ltb. by apply Z.ltb_lt. }
    unfold on_rect. lia. }
  assert (∀ c2 v2, (Fin (dist s e), c2, v2) ∈ open_set st →
                   dist s cur ≤ dist s v2 ≤ dist s cur + 1) as Hlevel.
  { intros c2 v2 H2. pose proof (pq_get_min _ _ _ _ Hget H2) as Hmin2.
    apply not_true_iff_false in Hmin2. rewrite entry_ltb_spec in Hmin2.
    unfold entry_priority, entry_count in Hmin2. simpl in Hmin2.
    destruct (si_order _ _ _ _ _ Hsi _ _ _ _ Hitem H2) as [Hord Hw].
    split; [|done]. apply Hord.
    destruct (decide (c2 < c)); [|lia]. exfalso. apply Hmin2. by right. }
  split; [done|]. split; [split|split].
  - destruct (si_start _ _ _ _ _ Hsi) as (? & ? & ?).
    split_and!; try done. simpl. set_solver.
  - intros w kw Hw Hws.
    destruct (si_origin _ _ _ _ _ Hsi w kw Hw Hws) as (u & ? & ? & ? & ?).
    exists u. split_and!; try done. by apply expanded_take_2.
  - intros u Hu. destruct (decide (u = cur)) as [->|Hne]; [done|].
    apply (si_expanded _ _ _ _ _ Hsi). by apply expanded_take in Hu.
  - intros u Hu. destruct (decide (u = cur)) as [->|Hne]; [done|].
    apply (si_not_end _ _ _ _ _ Hsi). by apply expanded_take in Hu.
  - intros u w Hu Hne. apply (si_neighbors _ _ _ _ _ Hsi); [|done].
    apply expanded_take in Hu; [done|]. simpl. congruence.
  - apply (si_lower _ _ _ _ _ Hsi).
  - intros p2 c2 v2 H2. apply (si_priority _ _ _ _ _ Hsi _ c2). by apply Hrest.
  - intros p2 c2 v2 H2. apply (si_good _ _ _ _ _ Hsi _ c2). by apply Hrest.
  - intros c1 v1 c2 v2 H1 H2.
    apply (si_order _ _ _ _ _ Hsi); by apply Hrest.
  - intros c2 v2 w H2. apply (si_layers _ _ _ _ _ Hsi c2). by apply Hrest.
  - intros p2 c2 v2 H2. apply (si_counts _ _ _ _ _ Hsi p2 c2 v2).
    by apply Hrest.
  - intros c2 v2 H2. apply (Hlevel c2). by apply Hrest.
  - intros w Hw Hrect Hle. change (reached st w).
    destruct (decide (dist s w < dist s cur)) as [Hlt|Hnlt].
    { by apply (si_layers _ _ _ _ _ Hsi c cur w). }
    destruct (si_start _ _ _ _ _ Hsi) as (Hgs & _ & _).
    destruct (decide (w = s)) as [->|Hws]; [by exists 0|].
    pose proof Hs as Hs'. pose proof He as He'.
    apply (prepared_square g0 s Hprep) in Hs' as [? ?].
    apply (prepared_square g0 e Hprep) in He' as [? ?].
    destruct (on_rect_predecessor (length g0) s e w)
      as (w' & ? & ? & Hadj & Hrect' & Hd); try done.
    assert (is_Some (get_node g0 w')) as Hvalid.
    { by apply (prepared_square g0 w' Hprep). }
    assert (reached st w') as Hr'.
    { apply (si_layers _ _ _ _ _ Hsi c cur w'); try done. lia. }
    destruct (decide (w' ∈ open_set_hash st)) as [Hin|Hout].
    + apply (hash_entry st w' Hinv) in Hin as (p2 & c2 & Hent).
      destruct (si_good _ _ _ _ _ Hsi _ _ _ Hent Hrect') as [-> _].
      specialize (Hlevel _ _ Hent). lia.
    + destruct (si_neighbors _ _ _ _ _ Hsi w' w) as (kw & Hkw & _);
        try done.
      * by apply adjacent_dist.
      * by exists kw.
Qed.

(** Taking the start node from the frontier, in the first round. *)
Lemma si_pop_first (st : SearchState) (item : entry) (rest : list entry) :
  initial_like g0 s st →
  pq_get (open_set st) = Some (item, rest) →
  entry_node item = s ∧
  g_score st !! s = Some (Fin (dist s s)) ∧
  shortest_inv g0 s e (Some s) (take item rest st) ∧
  visiting g0 s e s (take item rest st).
Proof.
  intros (Hc & Ho & Hq & Hh & Hg) Hget.
  pose proof (pq_get_perm _ _ _ Hget) as Hperm. rewrite Hq in Hperm.
  assert (item = (Fin 0, 0, s) ∧ rest = []) as [-> ->].
  { apply Permutation_singleton_l in Hperm. by injection Hperm as <- <-. }
  assert (∀ v k, g_score st !! v = Some (Fin k) → v = s ∧ k = 0) as Honly.
  { intros v k. rewrite Hg. destruct (decide (s = v)) as [<-|Hne].
    - rewrite lookup_insert_eq. by intros [= <-].
    - rewrite lookup_insert_ne, all_inf_lookup by done.
      by destruct (decide _). }
  assert (g_score st !! s = Some (Fin 0)) as Hgs.
  { rewrite Hg. apply lookup_insert_eq. }
  rewrite dist_self. split; [done|]. split; [done|].
  split; [split|split]; simpl.
  - split_and!; [done|set_solver|by rewrite Ho].
  - intros v k Hv Hvs. by destruct (Honly _ _ Hv).
  - intros u [[k Hu] _]. destruct (Honly _ _ Hu) as [-> ->].
    rewrite dist_self. split; [done|]. unfold on_rect. rewrite dist_self. lia.
  - intros u [[k Hu] _]. by destruct (Honly _ _ Hu) as [-> ->].
  - intros u w [[k Hu] _]. by destruct (Honly _ _ Hu) as [-> ->].
  - intros v k Hv. destruct (Honly _ _ Hv) as [-> ->]. by rewrite dist_self.
  - by intros p c v ?%elem_of_nil.
  - by intros p c v ?%elem_of_nil.
  - by intros c1 v1 c2 v2 ?%elem_of_nil.
  - by intros c v w ?%elem_of_nil.
  - by intros p c v ?%elem_of_nil.
  - by intros c v ?%elem_of_nil.
  - intros w _ _ Hw. rewrite dist_self in Hw.
    pose proof (dist_nonneg s w).
    assert (s = w) as <- by (apply dist_zero; lia). by exists 0.
Qed.

(** The visit of one neighbour. *)
Lemma si_visit (cur : ref) (st' st'' : SearchState) (v : ref) :
  base_inv g0 st' →
  g_score st' !! cur = Some (Fin (dist s cur)) →
  shortest_inv g0 s e (Some cur) st' ∧ visiting g0 s e cur st' ∧
    cur ∉ open_set_hash st' →
  adjacent cur v = true → passable g0 v = true →
  visit_neighbor e cur st' v = Ok st'' →
  (shortest_inv g0 s e (Some cur) st'' ∧ visiting g0 s e cur st'' ∧
     cur ∉ open_set_hash st'') ∧
  (∃ kw, g_score st'' !! v = Some (Fin kw) ∧ kw ≤ dist s cur + 1) ∧
  ∀ b, (∃ kw, g_score st' !! b = Some (Fin kw) ∧ kw ≤ dist s cur + 1) →
       (∃ kw, g_score st'' !! b = Some (Fin kw) ∧ kw ≤ dist s cur + 1).
Proof.
  intros Hinv Hcur (Hsi & Hvi & Hout) Hadj Hpv Hrun.
  assert (is_Some (get_node g0 v)) as Hv.
  { unfold passable in Hpv. destruct (get_node g0 v); [by eexists|done]. }
  pose proof (proj1 (adjacent_dist cur v) Hadj) as Hd1.
  pose proof (dist_step s cur v Hd1) as Hstep.
  pose proof (dist_nonneg s cur) as Hk.
  destruct (si_start _ _ _ _ _ Hsi) as (Hgs & Hsout & Hos).
  assert (expanded st' cur) as Hexp_cur.
  { split; [by eexists|done]. }
  destruct (si_expanded _ _ _ _ _ Hsi cur Hexp_cur) as [_ Hrect_cur].
  destruct (visit_neighbor_cases g0 e Hprep He cur _ st' v Hinv Hcur Hv)
    as (gv & Hgv & [(Hlt & Hrun')|[(Hlt & Hin & Hrun')|(Hlt & Hin & Hrun')]]);
    rewrite Hrun' in Hrun; injection Hrun as <-.
  - (* the score of the neighbour is not improved *)
    split; [done|]. split; [|done].
    destruct gv as [kv|]; unfold score_ltb in Hlt; [|done].
    exists kv. split; [done|]. lia.
  - (* improved, already in the frontier *)
    destruct (inv_open_reached _ _ Hinv v Hin) as [kv Hkv].
    rewrite Hkv in Hgv. injection Hgv as <-.
    unfold score_ltb in Hlt. apply Z.ltb_lt in Hlt.
    destruct (proj1 (hash_entry st' v Hinv) Hin) as (pv & cv & Hent).
    assert (¬ on_rect s e v) as Hnrect.
    { intros Hrect.
      destruct (si_good _ _ _ _ _ Hsi _ _ _ Hent Hrect) as [_ Hg].
      rewrite Hkv in Hg. injection Hg as ->. lia. }
    assert (v ≠ s) as Hvs.
    { intros ->. rewrite Hgs in Hkv. injection Hkv as <-. lia. }
    assert (v ≠ cur) as Hvc.
    { intros ->. rewrite Hcur in Hkv. injection Hkv as <-. lia. }
    assert (∀ u, expanded (improved cur v (dist s cur) e st') u →
                 expanded st' u ∧ u ≠ v) as Hexp.
    { intros u [[ku Hu] Huout]. simpl in *.
      assert (u ≠ v) as Hne by (by intros ->).
      rewrite lookup_insert_ne in Hu by done.
      split; [|done]. split; [by exists ku|done]. }
    assert (∀ u, expanded st' u → expanded (improved cur v (dist s cur) e st') u)
      as Hexp2.
    { intros u [[ku Hu] Huout]. split; [|done]. unfold reached. simpl.
      rewrite lookup_insert_ne by (by intros ->). by exists ku. }
    assert (∀ w, reached st' w → reached (improved cur v (dist s cur) e st') w)
      as Hmono.
    { intros w [kw Hw]. unfold reached. simpl.
      destruct (decide (v = w)) as [<-|Hne].
      - rewrite lookup_insert_eq. by eexists.
      - rewrite lookup_insert_ne by done. by eexists. }
    split; [split; [split|split; [split|done]]|split]; simpl.
    + split_and!; [by rewrite lookup_insert_ne|done|
                   by rewrite lookup_insert_ne].
    + intros w kw. destruct (decide (v = w)) as [<-|Hne].
      * rewrite !lookup_insert_eq. intros [= <-] _. exists cur.
        split_and!; try done.
        -- by apply Hexp2.
        -- rewrite lookup_insert_ne by done. rewrite Hcur. do 2 f_equal. lia.
      * rewrite !lookup_insert_ne by done. intros Hw Hws.
        destruct (si_origin _ _ _ _ _ Hsi w kw Hw Hws)
          as (u & ? & Hu & ? & Hgu).
        exists u. split_and!; try done; [by apply Hexp2|].
        rewrite lookup_insert_ne; [done|]. intros ->. by destruct Hu.
    + intros u [Hu Hne]%Hexp. rewrite lookup_insert_ne by done.
      by apply (si_expanded _ _ _ _ _ Hsi).
    + intros u [Hu Hne]%Hexp. by apply (si_not_end _ _ _ _ _ Hsi u).
    + intros u w [Hu Hne]%Hexp Hbusy Huw Hw.
      destruct (si_neighbors _ _ _ _ _ Hsi u w Hu Hbusy Huw Hw)
        as (kw & Hkw & Hle).
      destruct (decide (v = w)) as [<-|Hne'].
      * rewrite lookup_insert_eq. eexists. split; [done|].
        rewrite Hkv in Hkw. injection Hkw as <-. lia.
      * rewrite lookup_insert_ne by done. by exists kw.
    + intros w kw. destruct (decide (v = w)) as [<-|Hne].
      * rewrite lookup_insert_eq. intros [= <-]. lia.
      * rewrite lookup_insert_ne by done. apply (si_lower _ _ _ _ _ Hsi).
    + intros p c w Hw.
      destruct (si_priority _ _ _ _ _ Hsi p c w Hw) as (k & pp & Hgw & -> & ?).
      destruct (decide (v = w)) as [<-|Hne].
      * rewrite lookup_insert_eq. eexists _, pp. split_and!; try done.
        rewrite Hkv in Hgw. injection Hgw as <-. lia.
      * rewrite lookup_insert_ne by done. by exists k, pp.
    + intros p c w Hw Hrect.
      rewrite lookup_insert_ne by (by intros ->).
      by apply (si_good _ _ _ _ _ Hsi p c w).
    + apply (si_order _ _ _ _ _ Hsi).
    + intros c w w' Hw Hw' Hrect Hlt'.
      by apply Hmono, (si_layers _ _ _ _ _ Hsi c w w').
    + apply (si_counts _ _ _ _ _ Hsi).
    + apply (vi_level _ _ _ _ _ Hvi).
    + intros w Hw Hrect Hle. by apply Hmono, (vi_below _ _ _ _ _ Hvi).
    + rewrite lookup_insert_eq. eexists. split; [done|]. lia.
    + intros b (kb & Hb & Hle). destruct (decide (v = b)) as [<-|Hne].
      * rewrite lookup_insert_eq. eexists. split; [done|]. lia.
      * rewrite lookup_insert_ne by done. by exists kb.
  - (* put in the frontier *)
    assert (gv = Inf) as ->.
    { destruct gv as [kv|]; [|done]. exfalso.
      unfold score_ltb in Hlt. apply Z.ltb_lt in Hlt.
      destruct (si_expanded _ _ _ _ _ Hsi v) as [Hg _].
      { split; [by exists kv|done]. }
      rewrite Hgv in Hg. injection Hg as ->. lia. }
    assert (∀ w, reached st' w → w ≠ v) as Hnew.
    { intros w [kw Hw] ->. by rewrite Hgv in Hw. }
    assert (v ≠ s) as Hvs by (apply not_eq_sym, Hnew; by exists 0).
    assert (v ≠ cur) as Hvc by (apply not_eq_sym, Hnew; by eexists).
    assert (dist s v = dist s cur + 1) as Hdv.
    { destruct Hstep as [?|Hback]; [done|]. exfalso.
      apply (Hnew v); [|done]. apply (vi_below _ _ _ _ _ Hvi); [done| |lia].
      by apply (on_rect_back s e cur v). }
    assert (∀ u, expanded (pushed cur v (dist s cur) e st') u →
                 expanded st' u ∧ u ≠ v) as Hexp.
    { intros u [[ku Hu] Huout]. simpl in *.
      assert (u ≠ v) as Hne by set_solver.
      rewrite lookup_insert_ne in Hu by done.
      split; [|done]. split; [by exists ku|set_solver]. }
    assert (∀ u, expanded st' u → expanded (pushed cur v (dist s cur) e st') u)
      as Hexp2.
    { intros u [[ku Hu] Huout].
      assert (u ≠ v) as Hne by (apply Hnew; by exists ku).
      split; [|simpl; set_solver]. unfold reached. simpl.
      rewrite lookup_insert_ne by done. by exists ku. }
    assert (∀ w, reached st' w → reached (pushed cur v (dist s cur) e st') w)
      as Hmono.
    { intros w [kw Hw]. unfold reached. simpl.
      destruct (decide (v = w)) as [<-|Hne].
      - rewrite lookup_insert_eq. by eexists.
      - rewrite lookup_insert_ne by done. by eexists. }
    assert (∀ p c w, (p, c, w) ∈ open_set st' → w ≠ v) as Hold.
    { intros p c w Hw ->. apply Hin. apply (hash_entry st' v Hinv).
      by exists p, c. }
    split; [split; [split|split; [split|]]|split]; simpl.
    + split_and!; [by rewrite lookup_insert_ne|set_solver|
                   by rewrite lookup_insert_ne].
    + intros w kw. destruct (decide (v = w)) as [<-|Hne].
      * rewrite !lookup_insert_eq. intros [= <-] _. exists cur.
        split_and!; try done.
        -- by apply Hexp2.
        -- rewrite lookup_insert_ne by done. rewrite Hcur. do 2 f_equal. lia.
      * rewrite !lookup_insert_ne by done. intros Hw Hws.
        destruct (si_origin _ _ _ _ _ Hsi w kw Hw Hws)
          as (u & ? & Hu & ? & Hgu).
        exists u. split_and!; try done; [by apply Hexp2|].
        rewrite lookup_insert_ne; [done|].
        apply not_eq_sym, Hnew. by destruct Hu.
    + intros u [Hu Hne]%Hexp. rewrite lookup_insert_ne by done.
      by apply (si_expanded _ _ _ _ _ Hsi).
    + intros u [Hu Hne]%Hexp. by apply (si_not_end _ _ _ _ _ Hsi u).
    + intros u w [Hu Hne]%Hexp Hbusy Huw Hw.
      destruct (si_neighbors _ _ _ _ _ Hsi u w Hu Hbusy Huw Hw)
        as (kw & Hkw & Hle).
      rewrite lookup_insert_ne; [by exists kw|].
      apply not_eq_sym, Hnew. by exists kw.
    + intros w kw. destruct (decide (v = w)) as [<-|Hne].
      * rewrite lookup_insert_eq. intros [= <-]. lia.
      * rewrite lookup_insert_ne by done. apply (si_lower _ _ _ _ _ Hsi).
    + intros p c w [[= -> -> ->]|Hw]%elem_of_pq_put.
      * rewrite lookup_insert_eq. eexists _, _. split_and!; try done.
      * rewrite lookup_insert_ne by (apply not_eq_sym; by eapply Hold).
        by apply (si_priority _ _ _ _ _ Hsi p c w).
    + intros p c w [[= -> -> ->]|Hw]%elem_of_pq_put Hrect.
      * rewrite lookup_insert_eq. unfold on_rect in Hrect.
        fold (dist v e). split; do 2 f_equal; lia.
      * rewrite lookup_insert_ne by (apply not_eq_sym; by eapply Hold).
        by apply (si_good _ _ _ _ _ Hsi p c w).
    + intros c1 v1 c2 v2 [[= Hp1 -> ->]|H1]%elem_of_pq_put
                         [[= Hp2 -> ->]|H2]%elem_of_pq_put.
      * lia.
      * pose proof (si_counts _ _ _ _ _ Hsi _ _ _ H2).
        pose proof (vi_level _ _ _ _ _ Hvi _ _ H2). lia.
      * pose proof (vi_level _ _ _ _ _ Hvi _ _ H1). lia.
      * by apply (si_order _ _ _ _ _ Hsi).
    + intros c w w' [[= Hp -> ->]|Hw]%elem_of_pq_put Hw' Hrect Hlt'.
      * apply Hmono, (vi_below _ _ _ _ _ Hvi); [done|done|lia].
      * by apply Hmono, (si_layers _ _ _ _ _ Hsi c w w').
    + intros p c w [[= -> -> ->]|Hw]%elem_of_pq_put; [lia|].
      pose proof (si_counts _ _ _ _ _ Hsi _ _ _ Hw). lia.
    + intros c w [[= Hp -> ->]|Hw]%elem_of_pq_put; [lia|].
      by apply (vi_level _ _ _ _ _ Hvi c).
    + intros w Hw Hrect Hle. by apply Hmono, (vi_below _ _ _ _ _ Hvi).
    + set_solver.
    + rewrite lookup_insert_eq. eexists. split; [done|]. lia.
    + intros b (kb & Hb & Hle). destruct (decide (v = b)) as [<-|Hne].
      * rewrite lookup_insert_eq. eexists. split; [done|]. lia.
      * rewrite lookup_insert_ne by done. by exists kb.
Qed.

(** The end of a round. *)
Lemma si_round (cur : ref) (st1 : SearchState) (g : Grid) :
  shortest_inv g0 s e (Some cur) st1 →
  (∀ v, adjacent cur v = true → passable g0 v = true →
        ∃ kw, g_score st1 !! v = Some (Fin kw) ∧ kw ≤ dist s cur + 1) →
  shortest_inv g0 s e None (with_grid g st1).
Proof.
  intros [? ? ? ? Hn ? ? ? ? ? ?] Hall. split; try done.
  intros u w Hu _ Huw Hw. destruct (decide (u = cur)) as [->|Hne].
  - apply Hall; [done|]. by apply valid_passable.
  - apply Hn; try done. congruence.
Qed.

(** Walking back from a reached node takes as many steps as its score. *)
Lemma walk_back_length (busy : option ref) (st : SearchState) :
  base_inv g0 st →
  shortest_inv g0 s e busy st →
  ∀ n k v, Z.to_nat k = n → g_score st !! v = Some (Fin k) →
  ∀ fuel g, (n < fuel)%nat →
  ∃ g' path,
    reconstruct_path fuel (origin_node st) v g = Some (g', path) ∧
    length path = n ∧ adjacent_chain v path ∧ last (v :: path) = Some s.
Proof.
  intros Hinv Hsi. destruct (si_start _ _ _ _ _ Hsi) as (Hgs & _ & Hos).
  induction n as [|n IH]; intros k v Hk Hv fuel g Hfuel.
  - pose proof (inv_nonneg _ _ Hinv _ _ Hv) as Hnn.
    assert (k = 0) as -> by lia.
    assert (v = s) as ->.
    { destruct (decide (v = s)) as [|Hne]; [done|].
      destruct (si_origin _ _ _ _ _ Hsi v 0 Hv Hne) as (u & _ & _ & _ & Hu).
      apply (inv_nonneg _ _ Hinv) in Hu. lia. }
    destruct fuel as [|fuel]; [lia|]. simpl. rewrite Hos. by exists g, [].
  - assert (v ≠ s) as Hne.
    { intros ->. rewrite Hgs in Hv. injection Hv as <-. lia. }
    destruct (si_origin _ _ _ _ _ Hsi v k Hv Hne) as (u & Ho & _ & Hadj & Hu).
    destruct fuel as [|fuel]; [lia|]. simpl. rewrite Ho.
    destruct (IH (k - 1) u ltac:(lia) Hu fuel
                (modify_node make_path u g) ltac:(lia))
      as (g' & path & -> & Hlen & Hchain & Hlast).
    exists g', (u :: path). split_and!; try done.
    + simpl. by rewrite Hlen.
    + simpl. split; [|done]. apply adjacent_dist. apply adjacent_dist in Hadj.
      rewrite dist_unfold in *. lia.
Qed.

End Shortest.

Lemma reconstruct_path_more_fuel (fuel fuel' : nat) (origin : gmap ref ref)
    (v : ref) (g : Grid) (r : Grid * list ref) :
  reconstruct_path fuel origin v g = Some r →
  (fuel ≤ fuel')%nat →
  reconstruct_path fuel' origin v g = Some r.
Proof.
  revert fuel' v g r. induction fuel as [|fuel IH]; intros fuel' v g r; [done|].
  destruct fuel' as [|fuel']; [lia|]. simpl.
  destruct (origin !! v) as [u|]; [|done].
  destruct (reconstruct_path fuel origin u _) as [[g1 p1]|] eqn:Hrec; [|done].
  intros [= <-] Hle. by rewrite (IH fuel' _ _ _ Hrec) by lia.
Qed.

(** The run on a prepared grid without barriers ends with a path of as
    many steps as the Manhattan distance of the two end points. *)
Lemma shortest_run {PQ : PriorityQueue} (g0 : Grid)
    (s e : ref) (s_node e_node : Node) (events : list (list Event)) :
  prepared g0 = true →
  no_barrier g0 = true →
  get_node g0 s = Some s_node →
  get_node g0 e = Some e_node →
  s ≠ e →
  never_stopped events = true →
  ∃ fuel0 st path,
    (∀ fuel, (fuel0 ≤ fuel)%nat →
       generate_path fuel g0 (Some s) (Some e) events = Found st path) ∧
    Z.of_nat (length path) =
      manhattan_distance (get_pos s_node) (get_pos e_node) ∧
    adjacent_chain e path ∧
    last path = Some s.
Proof.
  intros Hprep Hnb Hs' He' Hse Hev.
  pose proof (initial_state_ok g0 s e _ _ Hs' He') as Hinit.
  set (st0 := mkState _ _ _ _ _ _ _ _) in Hinit.
  assert (is_Some (get_node g0 s)) as Hs by by eexists.
  assert (is_Some (get_node g0 e)) as He by by eexists.
  destruct (prepared_node _ _ _ Hprep Hs') as [-> _].
  destruct (prepared_node _ _ _ Hprep He') as [-> _].
  fold (dist s e).
  destruct (loop_run g0 s e Hprep He
    (λ st, base_inv g0 st ∧
           (initial_like g0 s st ∨ shortest_inv g0 s e None st)))
    with st0 events
    as [n [(stf & [Hinv Hsi] & Hq & _)|
           (st' & item & rest & [Hinv Hsi] & Hget & Hend & Hrun)]].
  - by intros st [? ?].
  - intros st item rest st2 [Hinv Hsi] Hget Hnend Hrun.
    destruct (take_base g0 e Hprep He st item rest Hinv Hget)
      as (_ & Hinv1 & _ & _).
    assert (g_score (take item rest st) !! entry_node item
              = Some (Fin (dist s (entry_node item))) ∧
            shortest_inv g0 s e (Some (entry_node item)) (take item rest st) ∧
            visiting g0 s e (entry_node item) (take item rest st))
      as (Hk & Hsi1 & Hvi1).
    { destruct Hsi as [Hini|Hsi].
      - destruct (si_pop_first g0 s e Hprep Hnb Hs He Hse st item rest
                    Hini Hget) as (-> & ? & ? & ?). done.
      - destruct (si_pop g0 s e Hprep Hnb Hs He Hse st item rest
                    Hinv Hsi Hget Hnend) as (? & ? & ?). done. }
    destruct (expand_run g0 s e Hprep He
      (λ st', shortest_inv g0 s e (Some (entry_node item)) st' ∧
              visiting g0 s e (entry_node item) st' ∧
              entry_node item ∉ open_set_hash st')
      (λ v st', ∃ kw, g_score st' !! v = Some (Fin kw) ∧
                      kw ≤ dist s (entry_node item) + 1)
      (take item rest st) (entry_node item) _ Hinv1 Hk)
      as (st1 & Hrun' & Hinv2 & _ & _ & (Hsi2 & _ & _) & Hall).
    { split_and!; try done. simpl. set_solver. }
    { intros st' v Hinv' Hk' HP Hadj Hpv st'' Hvisit.
      by apply (si_visit g0 s e Hprep Hnb Hs He Hse (entry_node item) st'). }
    rewrite Hrun' in Hrun. injection Hrun as <-. split.
    + apply base_inv_with_grid; [done|].
      apply same_shape_recolor, Hinv2.
    + right. by apply (si_round g0 s e Hnb (entry_node item)).
  - split; [apply (base_inv_initial g0 s e st0 Hs Hinit)|]. left.
    destruct (initial_state_fields g0 s e st0 Hinit) as (? & ? & ? & ? & ? & _).
    done.
  - done.
  - (* the frontier cannot run empty *)
    exfalso. destruct Hsi as [(_ & _ & Hperm & _)|Hsi].
    + rewrite Hq in Hperm. by apply Permutation_nil_cons in Hperm.
    + destruct (si_frontier g0 s e Hprep Hs He stf Hinv Hsi) as (v & _ & Hv).
      apply (hash_entry g0 stf v Hinv) in Hv as (p & c & Hv).
      rewrite Hq in Hv. by apply elem_of_nil in Hv.
  - (* the end node is taken from the frontier *)
    destruct item as [[p c] cur]. unfold entry_node in Hend. simpl in Hend.
    subst cur.
    pose proof (pq_get_perm _ _ _ Hget) as Hperm.
    destruct Hsi as [(_ & _ & Hq & _)|Hsi].
    { rewrite Hq in Hperm. apply Permutation_singleton_l in Hperm.
      by injection Hperm as _ _ <-. }
    assert ((p, c, e) ∈ open_set st') as Hitem by (rewrite Hperm; by left).
    destruct (si_good _ _ _ _ _ Hsi _ _ _ Hitem) as [_ Hge].
    { unfold on_rect. rewrite dist_self. lia. }
    pose proof (dist_nonneg s e) as Hnn.
    destruct (walk_back_length g0 s e None st' Hinv Hsi
                (Z.to_nat (dist s e)) (dist s e) e eq_refl Hge
                (S (Z.to_nat (dist s e))) (grid st') ltac:(lia))
      as (g' & path & Hrec & Hlen & Hchain & Hlast).
    assert (path ≠ []) as Hpath.
    { intros ->. simpl in Hlen.
      apply Hse, dist_zero. lia. }
    exists (S n + S (Z.to_nat (dist s e)))%nat.
    eexists _, path. split_and!.
    + intros fuel Hfuel. unfold generate_path. rewrite Hinit.
      replace fuel with (S n + (fuel - S n))%nat by lia.
      rewrite Hrun. unfold finish, take. simpl.
      rewrite (reconstruct_path_more_fuel _ (fuel - S n) _ _ _ _ Hrec) by lia.
      reflexivity.
    + lia.
    + done.
    + destruct path as [|u path]; [done|]. by rewrite last_cons_cons in Hlast.
Qed.

(** The run on the empty five by five grid from [(0, 0)] to [(4, 4)]: a
    path of eight steps, whose seven inner nodes are path nodes, while the
    two end points have their own colours again. *)
Example five_by_five_run :
  ∃ st path,
    generate_path (PQ := list_pq) 40
      (prepared_grid 5 (0, 0)%nat (4, 4)%nat [])
      (Some (0, 0)%nat) (Some (4, 4)%nat) [] = Found st path ∧
    length path = 8%nat ∧
    color_at (grid st) (0, 0)%nat = Some states.start ∧
    color_at (grid st) (4, 4)%nat = Some states.end_ ∧
    color_at (grid st) <$> path =
      replicate 7 (Some states.path) ++ [Some states.start].
Proof. eexists _, _. by vm_compute. Qed.


(** ** The order of the visits does not depend on the priority queue *)

Lemma score_ltb_total (a b : score) :
  score_ltb a b = false → score_ltb b a = false → a = b.
Proof.
  destruct a, b; unfold score_ltb; try done.
  intros ?%Z.ltb_ge ?%Z.ltb_ge. f_equal. lia.
Qed.

(** Two elements that are not below each other have the same priority and
    the same count. *)
Lemma entry_ltb_antisym (a b : entry) :
  entry_ltb a b = false → entry_ltb b a = false →
  entry_priority a = entry_priority b ∧ entry_count a = entry_count b.
Proof.
  intros Hab%not_true_iff_false Hba%not_true_iff_false.
  rewrite entry_ltb_spec in Hab, Hba.
  assert (entry_priority a = entry_priority b) as Hp.
  { apply score_ltb_total; apply not_true_iff_false; tauto. }
  split; [done|].
  destruct (Z.lt_trichotomy (entry_count a) (entry_count b)) as [?|[?|?]];
    [|done|]; exfalso; [apply Hab|apply Hba]; by right.
Qed.

Lemma NoDup_fmap_eq {A B : Type} (f : A → B) (l : list A) (x y : A) :
  NoDup (f <$> l) → x ∈ l → y ∈ l → f x = f y → x = y.
Proof.
  induction l as [|a l IH]; intros Hnd Hx Hy Hxy; [by apply elem_of_nil in Hx|].
  rewrite fmap_cons in Hnd. apply NoDup_cons in Hnd as [Ha Hnd].
  apply elem_of_cons in Hx as [->|Hx], Hy as [->|Hy]; try done.
  - exfalso. apply Ha. rewrite Hxy. by apply list_elem_of_fmap_2.
  - exfalso. apply Ha. rewrite <- Hxy. by apply list_elem_of_fmap_2.
  - by apply IH.
Qed.

Lemma for_each_sim {S A : Type} (body1 body2 : S → A → res S)
    (R : S → S → Prop) (l : list A) :
  (∀ a s1 s2, R s1 s2 → res_rel R (body1 s1 a) (body2 s2 a)) →
  ∀ s1 s2, R s1 s2 → res_rel R (for_each body1 s1 l) (for_each body2 s2 l).
Proof.
  intros Hbody. induction l as [|a l IH]; intros s1 s2 HR; simpl; [done|].
  specialize (Hbody a s1 s2 HR).
  destruct (body1 s1 a), (body2 s2 a); simpl in *; try done. by apply IH.
Qed.

Section TwoQueues.
Variables (PQ1 PQ2 : PriorityQueue).

Lemma visit_neighbor_sim (end_node cur v : ref) (st1 st2 : SearchState) :
  same_state st1 st2 ∧ counts_ok st1 →
  res_rel (λ a b, same_state a b ∧ counts_ok a)
    (visit_neighbor (PQ := PQ1) end_node cur st1 v)
    (visit_neighbor (PQ := PQ2) end_node cur st2 v).
Proof.
  destruct st1 as [c o q1 h g f gr vis], st2 as [c2 o2 q2 h2 g2 f2 gr2 vis2].
  unfold same_state, counts_ok. simpl.
  intros [(<- & <- & Hq & <- & <- & <- & <- & <-) [Hle Hnd]].
  unfold visit_neighbor. simpl.
  destruct (dict_get g cur) as [gc|]; simpl; [|done].
  destruct (dict_get g v) as [gv|]; simpl; [|done].
  destruct (score_ltb (score_add gc 1) gv); simpl; [|done].
  destruct (deref gr v) as [n|]; simpl; [|done].
  destruct (deref gr end_node) as [ne|]; simpl; [|done].
  destruct (decide (v ∈ h)); simpl; [done|].
  split_and!; try done.
  - by rewrite !pq_put_perm, Hq.
  - intros x. rewrite pq_put_perm. intros [->|Hx]%elem_of_cons.
    + unfold entry_count. simpl. lia.
    + specialize (Hle x Hx). lia.
  - rewrite pq_put_perm, fmap_cons. apply NoDup_cons. split; [|done].
    intros (x & Hc & Hx)%list_elem_of_fmap. specialize (Hle x Hx).
    unfold entry_count in Hc at 1. simpl in Hc. lia.
Qed.

Lemma expand_sim (start_node end_node cur : ref) (st1 st2 : SearchState) :
  same_state st1 st2 ∧ counts_ok st1 →
  res_rel (λ a b, same_state a b ∧ counts_ok a)
    (expand (PQ := PQ1) start_node end_node cur st1)
    (expand (PQ := PQ2) start_node end_node cur st2).
Proof.
  intros Hsame. unfold expand.
  assert (grid st1 = grid st2) as <- by apply Hsame.
  destruct (deref (grid st1) cur) as [n|]; simpl; [|done].
  pose proof (for_each_sim
    (visit_neighbor (PQ := PQ1) end_node cur)
    (visit_neighbor (PQ := PQ2) end_node cur)
    (λ a b, same_state a b ∧ counts_ok a) (neighbors n)
    (λ v a b, visit_neighbor_sim end_node cur v a b) st1 st2 Hsame) as Hloop.
  destruct (for_each _ st1 _) as [a|], (for_each _ st2 _) as [b|];
    simpl in *; try done.
  destruct Hloop as [(? & ? & ? & ? & ? & ? & Hg & ?) Hc].
  split; [|exact Hc]. unfold same_state. simpl. rewrite Hg. by split_and!.
Qed.

Lemma take_sim (item : entry) (rest1 rest2 : list entry)
    (st1 st2 : SearchState) :
  same_state st1 st2 → counts_ok st1 →
  open_set st1 ≡ₚ item :: rest1 →
  open_set st2 ≡ₚ item :: rest2 →
  same_state (take item rest1 st1) (take item rest2 st2) ∧
  counts_ok (take item rest1 st1).
Proof.
  intros (? & ? & Hq & Hh & ? & ? & ? & Hv) [Hle Hnd] Hp1 Hp2.
  unfold same_state, counts_ok. simpl. rewrite Hh, Hv. split_and!; try done.
  - apply (Permutation_cons_inv (a := item)). by rewrite <- Hp1, <- Hp2.
  - intros x Hx. apply Hle. rewrite Hp1. by right.
  - rewrite Hp1, fmap_cons in Hnd. by apply NoDup_cons in Hnd as [_ ?].
Qed.

(** With pairwise different counts the frontier has one least element, and
    both queues give it. *)
Lemma pq_get_sim (st1 st2 : SearchState) (item1 item2 : entry)
    (rest1 rest2 : list entry) :
  same_state st1 st2 → counts_ok st1 →
  pq_get (PriorityQueue := PQ1) (open_set st1) = Some (item1, rest1) →
  pq_get (PriorityQueue := PQ2) (open_set st2) = Some (item2, rest2) →
  item1 = item2.
Proof.
  intros (_ & _ & Hq & _) [_ Hnd] H1 H2.
  pose proof (pq_get_perm _ _ _ H1) as Hp1.
  pose proof (pq_get_perm _ _ _ H2) as Hp2.
  assert (item1 ∈ open_set st1) as Hin1 by (rewrite Hp1; by left).
  assert (item2 ∈ open_set st2) as Hin2 by (rewrite Hp2; by left).
  assert (item2 ∈ open_set st1) as Hin21 by by rewrite Hq.
  assert (item1 ∈ open_set st2) as Hin12 by by rewrite <- Hq.
  pose proof (pq_get_min _ _ _ _ H1 Hin21) as Hmin1.
  pose proof (pq_get_min _ _ _ _ H2 Hin12) as Hmin2.
  destruct (entry_ltb_antisym _ _ Hmin1 Hmin2) as [_ Hc].
  symmetry. by apply (NoDup_fmap_eq entry_count (open_set st1)).
Qed.

Lemma search_loop_sim (fuel : nat) (start_node end_node : ref)
    (events : list (list Event)) (st1 st2 : SearchState) :
  same_state st1 st2 → counts_ok st1 →
  same_result
    (search_loop (PQ := PQ1) fuel start_node end_node events st1)
    (search_loop (PQ := PQ2) fuel start_node end_node events st2).
Proof.
  revert events st1 st2.
  induction fuel as [|fuel IH]; intros events st1 st2 Hsame Hcounts; [done|].
  simpl.
  pose proof Hsame as (_ & Ho & Hq & Hh & _ & _ & Hg & _).
  assert (pq_empty (open_set st1) = pq_empty (open_set st2)) as <-.
  { destruct (open_set st1) as [|x q1], (open_set st2) as [|y q2]; try done.
    - by apply Permutation_nil_cons in Hq.
    - symmetry in Hq. by apply Permutation_nil_cons in Hq. }
  destruct (pq_empty (open_set st1)) eqn:Hempty; [done|].
  destruct (existsb stops_run (hd [] events)); [done|].
  assert (open_set st1 ≠ []) as Hne1.
  { intros Hnil. by rewrite Hnil in Hempty. }
  assert (open_set st2 ≠ []) as Hne2.
  { intros Hnil. rewrite Hnil in Hq. symmetry in Hq.
    by apply Permutation_nil in Hq. }
  destruct (pq_get_nonempty (PriorityQueue := PQ1) _ Hne1)
    as [[item1 rest1] H1].
  destruct (pq_get_nonempty (PriorityQueue := PQ2) _ Hne2)
    as [[item2 rest2] H2].
  rewrite H1, H2.
  pose proof (pq_get_sim st1 st2 _ _ _ _ Hsame Hcounts H1 H2) as <-.
  rewrite <- Hh.
  destruct (decide (entry_node item1 ∈ open_set_hash st1)); [|done].
  destruct (take_sim item1 rest1 rest2 st1 st2 Hsame Hcounts
              (pq_get_perm _ _ _ H1) (pq_get_perm _ _ _ H2))
    as [Hsame' Hcounts'].
  destruct (decide (entry_node item1 = end_node)).
  - unfold finish. simpl. rewrite <- Ho, <- Hg.
    destruct (reconstruct_path fuel _ _ _) as [[g' path]|]; [|done].
    split; [|done]. destruct Hsame' as (? & ? & ? & ? & ? & ? & ? & ?).
    unfold same_state. simpl in *. by split_and!.
  - pose proof (expand_sim start_node end_node (entry_node item1) _ _
                  (conj Hsame' Hcounts')) as Hexp.
    destruct (expand _ _ _ (take item1 rest1 st1)) as [a|],
             (expand _ _ _ (take item1 rest2 st2)) as [b|];
      simpl in Hexp; try done.
    destruct Hexp. by apply IH.
Qed.

End TwoQueues.

(** With any two priority queues that meet the contract of
    [queue.PriorityQueue], two runs on the same grid with the same start
    node, end node and events end the same way, having taken the same
    nodes from the frontier in the same order and left the same grid
    (hence the same path marking), the same path and the same scores.
    The insertion counts in the frontier are pairwise different, so that
    the priority and the count fix the element that [get] returns, and
    [Node.__lt__] never decides.  The grid is the same value in both runs,
    neighbour lists included. *)
Theorem visits_fixed_by_priority_and_count (PQ1 PQ2 : PriorityQueue)
    (fuel : nat) (g0 : Grid) (start_node end_node : option ref)
    (events : list (list Event)) :
  same_result
    (generate_path (PQ := PQ1) fuel g0 start_node end_node events)
    (generate_path (PQ := PQ2) fuel g0 start_node end_node events).
Proof.
  unfold generate_path.
  destruct start_node as [s|], end_node as [e|]; try done.
  unfold initial_state.
  destruct (deref g0 s) as [sn|]; simpl; [|done].
  destruct (deref g0 e) as [en|]; simpl; [|done].
  apply search_loop_sim.
  - unfold same_state. simpl. split_and!; try done.
    by rewrite !pq_put_perm.
  - split; simpl.
    + intros x. rewrite pq_put_perm. by intros ->%list_elem_of_singleton.
    + rewrite pq_put_perm. apply NoDup_singleton.
Qed.

(** * Further properties of the program *)

(** ** The heuristic *)

(** [manhattan_distance] is a metric on the points of the plane: never
    negative, zero exactly between a point and itself, symmetric, and
    subject to the triangle inequality. *)
Theorem manhattan_distance_is_metric (p q r : Z * Z) :
  0 ≤ manhattan_distance p q ∧
  (manhattan_distance p q = 0 ↔ p = q) ∧
  manhattan_distance p q = manhattan_distance q p ∧
  manhattan_distance p r ≤ manhattan_distance p q + manhattan_distance q r.
Proof.
  destruct p as [x1 y1], q as [x2 y2], r as [x3 y3].
  unfold manhattan_distance. split_and!; try lia.
  split; [intros H; f_equal; lia|intros [= -> ->]; lia].
Qed.

(** One step to a point at distance 1 changes the Manhattan distance to
    any target by exactly one: the heuristic of [generate_path] never
    drops by more than the cost of the step. *)
Theorem manhattan_distance_step (p q target : Z * Z) :
  manhattan_distance p q = 1 →
  manhattan_distance q target = manhattan_distance p target + 1 ∨
  manhattan_distance q target = manhattan_distance p target - 1.
Proof.
  destruct p as [x1 y1], q as [x2 y2], target as [x3 y3].
  unfold manhattan_distance. lia.
Qed.

Lemma manhattan_distance_step_witness :
  manhattan_distance (2, 4) (5, 5) = manhattan_distance (2, 3) (5, 5) + 1 ∨
  manhattan_distance (2, 4) (5, 5) = manhattan_distance (2, 3) (5, 5) - 1.
Proof. apply (manhattan_distance_step (2, 3) (2, 4) (5, 5)). reflexivity. Defined.

(** ** Pixels and cells *)

(** In a grid made by [create_grid N W] with [0 < N <= W], every pixel of
    the square that [draw_node] paints for a node, from [(x, y)] up to
    [width] further in both directions, is mapped by
    [get_clicked_position] to the [(row, column)] of that node. *)
Theorem clicked_position_inside_node (N W : Z) (g : Grid) (r : ref)
    (node : Node) (px py : Z) :
  0 < N ≤ W →
  create_grid N W = Ok g →
  get_node g r = Some node →
  x node ≤ px < x node + width node →
  y node ≤ py < y node + width node →
  get_clicked_position (px, py) N W = Ok (row node, column node).
Proof.
  intros HN Hgrid Hnode.
  destruct (create_grid_lookup _ _ _ _ _ Hgrid Hnode) as (-> & _ & _).
  unfold get_clicked_position, Node_init. simpl. intros Hx Hy.
  assert (0 < W `div` N) as Hw by (apply Z.div_str_pos; lia).
  destruct (Z.eqb_spec N 0); [lia|].
  destruct (Z.eqb_spec (W `div` N) 0); [lia|].
  do 2 f_equal; symmetry.
  - apply (Z.div_unique _ _ _ (px - Z.of_nat r.1 * (W `div` N))); lia.
  - apply (Z.div_unique _ _ _ (py - Z.of_nat r.2 * (W `div` N))); lia.
Qed.

Lemma clicked_position_inside_node_witness :
  get_clicked_position (50, 95) 25 600 = Ok (2, 3).
Proof.
  apply (clicked_position_inside_node 25 600
           (match create_grid 25 600 with Ok g => g | Raise _ => [] end)
           (2%nat, 3%nat) (Node_init 2 3 24 25) 50 95).
  - lia.
  - reflexivity.
  - reflexivity.
  - simpl. lia.
  - simpl. lia.
Defined.

(** For [0 < N <= W], [get_clicked_position] returns a row inside the grid
    exactly for the pixels left of [N * (W // N)], and likewise for the
    column: when [N] does not divide [W], the pixels of the remaining strip
    of the window are mapped to places outside the grid. *)
Theorem clicked_position_in_grid (N W px py : Z) :
  0 < N ≤ W →
  ∃ row column,
    get_clicked_position (px, py) N W = Ok (row, column) ∧
    (0 ≤ row < N ↔ 0 ≤ px < N * (W `div` N)) ∧
    (0 ≤ column < N ↔ 0 ≤ py < N * (W `div` N)).
Proof.
  intros HN. unfold get_clicked_position.
  assert (0 < W `div` N) as Hw by (apply Z.div_str_pos; lia).
  destruct (Z.eqb_spec N 0); [lia|].
  destruct (Z.eqb_spec (W `div` N) 0); [lia|].
  eexists _, _. split; [done|].
  pose proof (Z.div_mod px (W `div` N) ltac:(lia)).
  pose proof (Z.mod_pos_bound px (W `div` N) Hw).
  pose proof (Z.div_mod py (W `div` N) ltac:(lia)).
  pose proof (Z.mod_pos_bound py (W `div` N) Hw).
  split; nia.
Qed.

Lemma clicked_position_in_grid_witness :
  ∃ row column,
    get_clicked_position (9, 4) 3 10 = Ok (row, column) ∧
    (0 ≤ row < 3 ↔ 0 ≤ 9 < 3 * (10 `div` 3)) ∧
    (0 ≤ column < 3 ↔ 0 ≤ 4 < 3 * (10 `div` 3)).
Proof. apply (clicked_position_in_grid 3 10 9 4). lia. Defined.

(** With more cells per side than pixels, [create_grid] still returns a
    grid, of nodes of width 0, and [get_clicked_position] then raises
    [ZeroDivisionError] for every click. *)
Theorem too_many_rows_for_the_window (N W : Z) (coords : Z * Z) :
  0 ≤ W < N →
  (∃ g, create_grid N W = Ok g ∧
        ∀ r node, get_node g r = Some node → width node = 0) ∧
  get_clicked_position coords N W = Raise ZeroDivisionError.
Proof.
  intros HN. assert (W `div` N = 0) as Hw by (apply Z.div_small; lia).
  split.
  - destruct (create_grid N W) as [g|] eqn:Hg.
    + exists g. split; [done|]. intros r node Hnode.
      destruct (create_grid_lookup _ _ _ _ _ Hg Hnode) as (-> & _ & _).
      done.
    + unfold create_grid in Hg. destruct (Z.eqb_spec N 0); [lia|done].
  - unfold get_clicked_position. destruct (Z.eqb_spec N 0); [lia|].
    destruct coords. by rewrite Hw.
Qed.

Lemma too_many_rows_for_the_window_witness :
  (∃ g, create_grid 5 3 = Ok g ∧
        ∀ r node, get_node g r = Some node → width node = 0) ∧
  get_clicked_position (1, 2) 5 3 = Raise ZeroDivisionError.
Proof. apply (too_many_rows_for_the_window 5 3 (1, 2)). lia. Defined.

(** ** Consistent grids *)

Lemma dims_modify_node (f : Node → Node) (r : ref) (g : Grid) :
  dims (modify_node f r g) = dims g.
Proof.
  unfold dims, modify_node.
  rewrite (list_fmap_alter length (alter f r.2) id).
  - by apply list_alter_id.
  - apply Forall_forall. intros line _. apply length_alter.
Qed.

Lemma get_node_is_Some_dims (g : Grid) (r : ref) :
  is_Some (get_node g r) ↔ ∃ len, dims g !! r.1 = Some len ∧ (r.2 < len)%nat.
Proof.
  unfold get_node, dims. rewrite list_lookup_fmap.
  destruct (g !! r.1) as [line|]; simpl.
  - rewrite lookup_lt_is_Some. split.
    + intros ?. by exists (length line).
    + by intros (len & [= <-] & ?).
  - split; [by intros [? ?]|by intros (? & ? & ?)].
Qed.

Lemma same_dims_is_Some (g t : Grid) (r : ref) :
  dims t = dims g → is_Some (get_node t r) ↔ is_Some (get_node g r).
Proof. intros Hd. by rewrite !get_node_is_Some_dims, Hd. Qed.

Lemma consistent_square (g : Grid) (i len : nat) :
  consistent g = true → dims g !! i = Some len → len = length g.
Proof.
  unfold consistent, dims. intros [Hsq _]%andb_prop.
  rewrite forallb_forall in Hsq. rewrite list_lookup_fmap.
  destruct (g !! i) as [line|] eqn:Hline; [|done]. intros [= <-].
  apply list_elem_of_lookup_2, list_elem_of_In, Hsq in Hline.
  by apply Nat.eqb_eq in Hline.
Qed.

Lemma consistent_is_Some (g : Grid) (r : ref) :
  consistent g = true →
  is_Some (get_node g r) ↔ (r.1 < length g)%nat ∧ (r.2 < length g)%nat.
Proof.
  intros Hc. rewrite get_node_is_Some_dims. split.
  - intros (len & Hlen & ?).
    pose proof (consistent_square _ _ _ Hc Hlen) as ->.
    apply lookup_lt_Some in Hlen. unfold dims in Hlen.
    rewrite length_fmap in Hlen. done.
  - intros [H1 H2].
    assert (is_Some (dims g !! r.1)) as [len Hlen].
    { apply lookup_lt_is_Some. unfold dims. by rewrite length_fmap. }
    exists len. split; [done|].
    by rewrite (consistent_square _ _ _ Hc Hlen).
Qed.

Lemma consistent_node (g : Grid) (r : ref) (n : Node) :
  consistent g = true →
  get_node g r = Some n →
  row n = Z.of_nat r.1 ∧ column n = Z.of_nat r.2 ∧
  total_rows n = Z.of_nat (length g).
Proof.
  unfold consistent. intros [_ Hall]%andb_prop Hn.
  rewrite forallb_forall in Hall. specialize (Hall r).
  rewrite <- list_elem_of_In, elem_of_grid_refs, Hn in Hall.
  specialize (Hall (mk_is_Some _ _ eq_refl)). unfold node_consistent in Hall.
  apply andb_prop in Hall as [[? ?]%andb_prop ?]. lia.
Qed.

Lemma consistent_intro (g : Grid) :
  (∀ i len, dims g !! i = Some len → len = length g) →
  (∀ r n, get_node g r = Some n →
          row n = Z.of_nat r.1 ∧ column n = Z.of_nat r.2 ∧
          total_rows n = Z.of_nat (length g)) →
  consistent g = true.
Proof.
  intros Hsq Hnodes. unfold consistent. apply andb_true_intro. split.
  - apply forallb_forall. intros line [i Hi]%list_elem_of_In%list_elem_of_lookup.
    apply Nat.eqb_eq. apply (Hsq i). unfold dims.
    by rewrite list_lookup_fmap, Hi.
  - apply forallb_forall. intros r [n Hn]%list_elem_of_In%elem_of_grid_refs.
    rewrite Hn. destruct (Hnodes r n Hn) as (? & ? & ?).
    unfold node_consistent. apply andb_true_intro. split; [|lia].
    apply andb_true_intro. split; lia.
Qed.

Lemma create_grid_consistent (N W : Z) :
  0 < N →
  ∃ g, create_grid N W = Ok g ∧
       length g = Z.to_nat N ∧
       consistent g = true ∧
       ∀ r node, get_node g r = Some node →
                 color node = colors.white ∧ neighbors node = [] ∧
                 width node = W `div` N.
Proof.
  intros HN. destruct (create_grid N W) as [g|] eqn:Hg.
  2: { unfold create_grid in Hg. destruct (Z.eqb_spec N 0); [lia|done]. }
  exists g. split; [done|].
  assert (length g = Z.to_nat N) as Hlen.
  { unfold create_grid in Hg. destruct (N =? 0); [done|].
    injection Hg as <-. by rewrite length_fmap, length_seqZ. }
  split; [done|]. split.
  - apply consistent_intro.
    + intros i len. unfold dims. rewrite list_lookup_fmap, Hlen.
      unfold create_grid in Hg. destruct (N =? 0); [done|].
      injection Hg as <-. rewrite list_lookup_fmap.
      destruct (seqZ 0 N !! i); [|done]. simpl. intros [= <-].
      by rewrite length_fmap, length_seqZ.
    + intros r n Hn.
      destruct (create_grid_lookup _ _ _ _ _ Hg Hn) as (-> & _ & _).
      simpl. rewrite Hlen. lia.
  - intros r node Hnode.
    by destruct (create_grid_lookup _ _ _ _ _ Hg Hnode) as (-> & _ & _).
Qed.

(** [create_grid] with a positive size returns a square grid of that size
    in which every node knows its place, is white and has no neighbours. *)
Theorem create_grid_is_consistent (N W : Z) :
  0 < N →
  ∃ g, create_grid N W = Ok g ∧
       length g = Z.to_nat N ∧
       consistent g = true ∧
       ∀ r node, get_node g r = Some node →
                 color node = colors.white ∧ neighbors node = [] ∧
                 width node = W `div` N.
Proof. intros. by apply create_grid_consistent. Qed.

Lemma create_grid_is_consistent_witness :
  ∃ g, create_grid 3 600 = Ok g ∧
       length g = Z.to_nat 3 ∧
       consistent g = true ∧
       ∀ r node, get_node g r = Some node →
                 color node = colors.white ∧ neighbors node = [] ∧
                 width node = 600 `div` 3.
Proof. apply (create_grid_is_consistent 3 600). lia. Defined.

(** A negative size is not refused: [create_grid] returns the empty grid
    (a size of 0 raises [ZeroDivisionError]). *)
Theorem create_grid_negative_size (N W : Z) :
  N < 0 → create_grid N W = Ok [].
Proof.
  intros HN. unfold create_grid. destruct (Z.eqb_spec N 0); [lia|].
  unfold seqZ. by replace (Z.to_nat N) with 0%nat by lia.
Qed.

Lemma create_grid_negative_size_witness : create_grid (-4) 600 = Ok [].
Proof. apply (create_grid_negative_size (-4) 600). lia. Defined.

Lemma NoDup_grid_refs (g : Grid) : NoDup (grid_refs g).
Proof.
  unfold grid_refs.
  assert (∀ k, NoDup (mjoin (imap (λ i (line : list Node),
                 (λ j, ((k + i)%nat, j)) <$> seq 0 (length line)) g)) ∧
               ∀ r, r ∈ mjoin (imap (λ i (line : list Node),
                 (λ j, ((k + i)%nat, j)) <$> seq 0 (length line)) g) →
                    (k ≤ r.1)%nat) as Hgen.
  { induction g as [|line g IH]; intros k.
    { split; [apply NoDup_nil_2|]. by intros r ?%elem_of_nil. }
    rewrite imap_cons. simpl.
    rewrite (imap_ext _ (λ i (line : list Node),
               (λ j, ((S k + i)%nat, j)) <$> seq 0 (length line))).
    2: { intros i x _. simpl. by replace (k + S i)%nat with (S (k + i)) by lia. }
    destruct (IH (S k)) as [Hnd Hge]. split.
    - apply NoDup_app. split_and!; [|
        |done].
      + apply NoDup_fmap_2; [|apply NoDup_seq]. by intros ?? [=].
      + intros r (j & -> & _)%list_elem_of_fmap Hin.
        specialize (Hge _ Hin). simpl in Hge. lia.
    - intros r [(j & -> & _)%list_elem_of_fmap|Hin%Hge]%elem_of_app;
        simpl; lia. }
  by destruct (Hgen 0%nat).
Qed.

(** ** The preparation of a consistent grid *)

Lemma py_index_ok (len i : nat) :
  (i < len)%nat → py_index len (Z.of_nat i) = Ok i.
Proof.
  intros Hi. unfold py_index. cbv zeta.
  assert ((0 <=? Z.of_nat i) = true) as H1 by (apply Z.leb_le; lia).
  assert ((Z.of_nat i <? Z.of_nat len) = true) as H2 by (apply Z.ltb_lt; lia).
  rewrite H1. simpl. rewrite H1, H2. simpl. by rewrite Nat2Z.id.
Qed.

Lemma py_getitem_ok {A : Type} (l : list A) (i : nat) (a : A) :
  l !! i = Some a → py_getitem l (Z.of_nat i) = Ok a.
Proof.
  intros Ha. unfold py_getitem.
  rewrite py_index_ok by by eapply lookup_lt_Some. simpl. by rewrite Ha.
Qed.

Lemma grid_item_ok (t : Grid) (v : ref) (n : Node) :
  get_node t v = Some n →
  grid_item t (Z.of_nat v.1) (Z.of_nat v.2) = Ok (v, n).
Proof.
  destruct v as [i j]. unfold get_node, grid_item. simpl.
  destruct (t !! i) as [line|] eqn:Hline; [|done]. intros Hn.
  rewrite py_index_ok by by eapply lookup_lt_Some.
  rewrite (py_getitem_ok _ _ _ Hline). simpl.
  rewrite py_index_ok by by eapply lookup_lt_Some.
  by rewrite (py_getitem_ok _ _ _ Hn).
Qed.

Lemma append_if_free_ok (guard guard' : bool) (t : Grid) (i j : Z) (v : ref)
    (acc : list ref) :
  guard = guard' →
  (guard' = true →
   i = Z.of_nat v.1 ∧ j = Z.of_nat v.2 ∧ is_Some (get_node t v)) →
  append_if_free guard t i j acc
  = Ok (acc ++ if guard' then free_at t v else []).
Proof.
  intros -> Hv. unfold append_if_free. destruct guard'.
  - destruct (Hv eq_refl) as (-> & -> & [n Hn]).
    rewrite (grid_item_ok _ _ _ Hn). simpl.
    unfold free_at, passable. rewrite Hn.
    destruct (is_barrier n); simpl; [by rewrite app_nil_r|done].
  - by rewrite app_nil_r.
Qed.

Lemma update_neighbors_ok (t : Grid) (r : ref) (self : Node) :
  get_node t r = Some self →
  row self = Z.of_nat r.1 → column self = Z.of_nat r.2 →
  total_rows self = Z.of_nat (length t) →
  (r.1 < length t)%nat → (r.2 < length t)%nat →
  (∀ v, (v.1 < length t)%nat → (v.2 < length t)%nat →
        is_Some (get_node t v)) →
  update_neighbors r t
  = Ok (modify_node (set_neighbors (neighbors self ++ fresh_neighbors t r))
          r t).
Proof.
  intros Hself Hrow Hcol Htotal Hr1 Hr2 Hvalid. unfold update_neighbors.
  rewrite Hself, Hrow, Hcol, Htotal. destruct r as [i j]. simpl in *.
  rewrite (append_if_free_ok _ (0 <? i)%nat t _ _ (i - 1, j)%nat).
  2: { destruct (Z.ltb_spec 0 (Z.of_nat i)), (Nat.ltb_spec 0 i); done || lia. }
  2: { intros Hg%Nat.ltb_lt. simpl. split_and!; [lia|done|].
       apply Hvalid; simpl; lia. }
  simpl.
  rewrite (append_if_free_ok _ (S i <? length t)%nat t _ _ (S i, j)).
  2: { destruct (Z.ltb_spec (Z.of_nat i) (Z.of_nat (length t) - 1)),
         (Nat.ltb_spec (S i) (length t)); done || lia. }
  2: { intros Hg%Nat.ltb_lt. simpl. split_and!; [lia|done|].
       apply Hvalid; simpl; lia. }
  simpl.
  rewrite (append_if_free_ok _ (0 <? j)%nat t _ _ (i, j - 1)%nat).
  2: { destruct (Z.ltb_spec 0 (Z.of_nat j)), (Nat.ltb_spec 0 j); done || lia. }
  2: { intros Hg%Nat.ltb_lt. simpl. split_and!; [done|lia|].
       apply Hvalid; simpl; lia. }
  simpl.
  rewrite (append_if_free_ok _ (S j <? length t)%nat t _ _ (i, S j)).
  2: { destruct (Z.ltb_spec (Z.of_nat j) (Z.of_nat (length t) - 1)),
         (Nat.ltb_spec (S j) (length t)); done || lia. }
  2: { intros Hg%Nat.ltb_lt. simpl. split_and!; [done|lia|].
       apply Hvalid; simpl; lia. }
  simpl. unfold fresh_neighbors. simpl. by rewrite <- !app_assoc.
Qed.

Lemma passable_modify_node (f : Node → Node) (r v : ref) (g : Grid) :
  (∀ n, get_node g r = Some n → is_barrier (f n) = is_barrier n) →
  passable (modify_node f r g) v = passable g v.
Proof.
  intros Hf. unfold passable. rewrite get_node_modify.
  destruct (decide (r = v)) as [<-|]; [|done].
  destruct (get_node g r) as [n|] eqn:Hn; [|done]. simpl. by rewrite Hf.
Qed.

Lemma fresh_neighbors_ext (g t : Grid) (r : ref) :
  length t = length g → (∀ v, passable t v = passable g v) →
  fresh_neighbors t r = fresh_neighbors g r.
Proof. intros Hlen Hp. unfold fresh_neighbors, free_at. by rewrite Hlen, !Hp. Qed.

Lemma dims_length (g t : Grid) : dims t = dims g → length t = length g.
Proof.
  intros Hd. apply (f_equal length) in Hd. unfold dims in Hd.
  by rewrite !length_fmap in Hd.
Qed.

Lemma prepare_node_ok (g t : Grid) (a : ref) (n : Node) :
  consistent g = true →
  dims t = dims g →
  (∀ v, passable t v = passable g v) →
  get_node g a = Some n →
  get_node t a = Some n →
  ∃ t', prepare_node t a = Ok t' ∧
        dims t' = dims g ∧
        (∀ v, passable t' v = passable g v) ∧
        get_node t' a = Some (prepared_node_of g a n) ∧
        ∀ r, r ≠ a → get_node t' r = get_node t r.
Proof.
  intros Hc Hd Hp Hg Ht.
  pose proof (dims_length _ _ Hd) as Hlen.
  destruct (consistent_node _ _ _ Hc Hg) as (Hrow & Hcol & Htot).
  assert ((a.1 < length g)%nat ∧ (a.2 < length g)%nat) as [Ha1 Ha2].
  { apply (consistent_is_Some g a Hc). by eexists. }
  unfold prepare_node. rewrite Ht.
  assert (negb (is_barrier n) && negb (is_end n) && negb (is_start n)
          = negb (kept n)) as ->.
  { unfold kept. by destruct (is_barrier n), (is_end n), (is_start n). }
  set (t1 := if negb (kept n) then modify_node reset a t else t).
  set (n1 := if kept n then n else reset n).
  assert (get_node t1 a = Some n1) as Hn1.
  { unfold t1, n1. destruct (kept n); simpl; [done|].
    by rewrite get_node_modify_eq, Ht. }
  assert (dims t1 = dims g) as Hd1.
  { unfold t1. destruct (negb (kept n)); [|done].
    by rewrite dims_modify_node. }
  assert (∀ v, passable t1 v = passable g v) as Hp1.
  { intros v. rewrite <- Hp. unfold t1. destruct (kept n) eqn:Hk; simpl; [done|].
    apply passable_modify_node. intros n' Hn'. rewrite Ht in Hn'.
    injection Hn' as <-. unfold kept in Hk.
    destruct (is_barrier n); [done|]. done. }
  assert (∀ r, r ≠ a → get_node t1 r = get_node t r) as Hother.
  { intros r Hr. unfold t1. destruct (negb (kept n)); [|done].
    by rewrite get_node_modify_ne. }
  pose proof (dims_length _ _ Hd1) as Hlen1.
  rewrite (update_neighbors_ok t1 a n1 Hn1).
  2-4: unfold n1; destruct (kept n); simpl; congruence.
  2-3: by rewrite Hlen1.
  2: { intros v Hv1 Hv2. apply (same_dims_is_Some g t1 v Hd1).
       apply (consistent_is_Some g v Hc). by rewrite <- Hlen1. }
  eexists. split; [done|]. split_and!.
  - by rewrite dims_modify_node.
  - intros v. rewrite <- Hp1. by apply passable_modify_node.
  - rewrite get_node_modify_eq, Hn1. simpl.
    rewrite (fresh_neighbors_ext g t1 a Hlen1 Hp1).
    unfold prepared_node_of. fold n1. do 3 f_equal.
    unfold n1. by destruct (kept n).
  - intros r Hr. rewrite get_node_modify_ne by done. by apply Hother.
Qed.

Lemma prepare_loop_ok (g : Grid) (l : list ref) :
  consistent g = true →
  NoDup l →
  (∀ r, r ∈ l → is_Some (get_node g r)) →
  ∀ t, dims t = dims g →
       (∀ v, passable t v = passable g v) →
       (∀ r, r ∈ l → get_node t r = get_node g r) →
  ∃ t', for_each prepare_node t l = Ok t' ∧
        dims t' = dims g ∧
        (∀ v, passable t' v = passable g v) ∧
        (∀ r, r ∈ l → get_node t' r = prepared_node_of g r <$> get_node g r) ∧
        ∀ r, r ∉ l → get_node t' r = get_node t r.
Proof.
  intros Hc. induction l as [|a l IH]; intros Hnd Hvalid t Hd Hp Hsame.
  - exists t. split_and!; try done. by intros r ?%elem_of_nil.
  - apply NoDup_cons in Hnd as [Ha Hnd].
    destruct (Hvalid a) as [n Hn]; [by left|].
    destruct (prepare_node_ok g t a n Hc Hd Hp Hn) as (t1 & Hrun & Hd1 & Hp1 & Ha1 & Ho1).
    { rewrite Hsame; [done|by left]. }
    destruct (IH Hnd) with t1 as (t' & Hrun' & Hd' & Hp' & Hin' & Hout');
      try done.
    { intros r Hr. apply Hvalid. by right. }
    { intros r Hr. rewrite Ho1 by (by intros ->). apply Hsame. by right. }
    exists t'. simpl. rewrite Hrun. simpl. split_and!; try done.
    + intros r [->|Hr]%elem_of_cons; [|by apply Hin'].
      rewrite Hout' by done. by rewrite Ha1, Hn.
    + intros r Hr. rewrite Hout' by (intros ?; apply Hr; by right).
      apply Ho1. intros ->. apply Hr. by left.
Qed.

Lemma reset_for_new_run_result (g : Grid) :
  consistent g = true →
  ∃ g', reset_for_new_run g = Ok g' ∧
        dims g' = dims g ∧
        (∀ v, passable g' v = passable g v) ∧
        ∀ r, get_node g' r = prepared_node_of g r <$> get_node g r.
Proof.
  intros Hc. unfold reset_for_new_run.
  destruct (prepare_loop_ok g (grid_refs g) Hc (NoDup_grid_refs g)) with g
    as (g' & Hrun & Hd & Hp & Hin & Hout); try done.
  { intros r. by rewrite elem_of_grid_refs. }
  exists g'. split_and!; try done. intros r.
  destruct (decide (r ∈ grid_refs g)) as [Hr|Hr]; [by apply Hin|].
  rewrite Hout by done. rewrite elem_of_grid_refs in Hr.
  destruct (get_node g r); [|done]. exfalso. apply Hr. by eexists.
Qed.

(** The preparation that precedes a run never raises on a consistent
    grid.  It leaves a barrier, end or start node with the neighbour list
    it had followed by its neighbours as the grid now is, and every other
    node white with exactly these neighbours: the lists of the nodes that
    are not reset grow with every preparation, and keep what earlier
    preparations put there. *)
Theorem preparation_of_consistent_grid (g : Grid) :
  consistent g = true →
  ∃ g', reset_for_new_run g = Ok g' ∧
        ∀ r, get_node g' r = prepared_node_of g r <$> get_node g r.
Proof.
  intros Hc. destruct (reset_for_new_run_result g Hc) as (g' & ? & _ & _ & ?).
  by exists g'.
Qed.

Lemma preparation_of_consistent_grid_witness :
  ∃ g', reset_for_new_run (prepared_grid 3 (0, 0)%nat (2, 2)%nat [(1, 1)%nat])
        = Ok g' ∧
        ∀ r, get_node g' r =
             prepared_node_of
               (prepared_grid 3 (0, 0)%nat (2, 2)%nat [(1, 1)%nat]) r
             <$> get_node (prepared_grid 3 (0, 0)%nat (2, 2)%nat [(1, 1)%nat])
                   r.
Proof.
  apply (preparation_of_consistent_grid
           (prepared_grid 3 (0, 0)%nat (2, 2)%nat [(1, 1)%nat])).
  by vm_compute.
Defined.

Lemma adjacent_cases (r v : ref) :
  adjacent r v = true ↔
  (0 < r.1 ∧ v = (r.1 - 1, r.2))%nat ∨ v = (S r.1, r.2) ∨
  (0 < r.2 ∧ v = (r.1, r.2 - 1))%nat ∨ v = (r.1, S r.2).
Proof.
  unfold adjacent, manhattan_distance, pos. destruct r as [i j], v as [i' j'].
  simpl. rewrite Z.eqb_eq. split.
  - intros H.
    assert ((0 < i ∧ i' = i - 1 ∧ j' = j)%nat ∨ (i' = S i ∧ j' = j) ∨
            (0 < j ∧ i' = i ∧ j' = j - 1)%nat ∨ (i' = i ∧ j' = S j))
      as [(? & -> & ->)|[[-> ->]|[(? & -> & ->)|[-> ->]]]] by lia; auto.
  - intros [[? [= -> ->]]|[[= -> ->]|[[? [= -> ->]]|[= -> ->]]]]; lia.
Qed.

Lemma elem_of_free_at (g : Grid) (v w : ref) :
  w ∈ free_at g v ↔ w = v ∧ passable g v = true.
Proof.
  unfold free_at. destruct (passable g v).
  - rewrite list_elem_of_singleton. naive_solver.
  - rewrite elem_of_nil. naive_solver.
Qed.

Lemma elem_of_fresh_neighbors (g : Grid) (r v : ref) :
  consistent g = true →
  v ∈ fresh_neighbors g r ↔ adjacent r v = true ∧ passable g v = true.
Proof.
  intros Hc. unfold fresh_neighbors. rewrite adjacent_cases, !elem_of_app.
  assert (∀ w, passable g w = true →
               (w.1 < length g)%nat ∧ (w.2 < length g)%nat) as Hin.
  { intros w Hw. apply (consistent_is_Some g w Hc).
    unfold passable in Hw. destruct (get_node g w); [by eexists|done]. }
  split.
  - intros [H|[H|[H|H]]].
    + destruct (0 <? r.1)%nat eqn:Hlt; [|by apply elem_of_nil in H].
      apply elem_of_free_at in H as [-> ?]. apply Nat.ltb_lt in Hlt. auto.
    + destruct (S r.1 <? length g)%nat; [|by apply elem_of_nil in H].
      apply elem_of_free_at in H as [-> ?]. auto.
    + destruct (0 <? r.2)%nat eqn:Hlt; [|by apply elem_of_nil in H].
      apply elem_of_free_at in H as [-> ?]. apply Nat.ltb_lt in Hlt. auto 6.
    + destruct (S r.2 <? length g)%nat; [|by apply elem_of_nil in H].
      apply elem_of_free_at in H as [-> ?]. auto 6.
  - intros [[[Hlt ->] | [-> | [[Hlt ->] | ->]]] Hp].
    + left. apply Nat.ltb_lt in Hlt. rewrite Hlt. by apply elem_of_free_at.
    + right; left. destruct (Hin _ Hp) as [H1 _]. simpl in H1.
      apply Nat.ltb_lt in H1. rewrite H1. by apply elem_of_free_at.
    + right; right; left. apply Nat.ltb_lt in Hlt. rewrite Hlt.
      by apply elem_of_free_at.
    + right; right; right. destruct (Hin _ Hp) as [_ H2]. simpl in H2.
      apply Nat.ltb_lt in H2. rewrite H2. by apply elem_of_free_at.
Qed.

Lemma prepared_intro (g : Grid) :
  (∀ i len, dims g !! i = Some len → len = length g) →
  (∀ r n, get_node g r = Some n →
          row n = Z.of_nat r.1 ∧ column n = Z.of_nat r.2 ∧
          ∀ v, v ∈ neighbors n ↔ adjacent r v = true ∧ passable g v = true) →
  prepared g = true.
Proof.
  intros Hsq Hnodes. unfold prepared. apply andb_true_intro. split.
  - apply forallb_forall. intros line [i Hi]%list_elem_of_In%list_elem_of_lookup.
    apply Nat.eqb_eq. apply (Hsq i). unfold dims.
    by rewrite list_lookup_fmap, Hi.
  - apply forallb_forall. intros r [n Hn]%list_elem_of_In%elem_of_grid_refs.
    rewrite Hn. destruct (Hnodes r n Hn) as (Hrow & Hcol & Hnb).
    unfold node_prepared. repeat (apply andb_true_intro; split); try lia.
    + apply forallb_forall. intros v Hv%list_elem_of_In%Hnb.
      destruct Hv as [-> ->]. done.
    + apply forallb_forall. intros v _.
      destruct (adjacent r v && passable g v) eqn:Hv; [|done]. simpl.
      apply bool_decide_eq_true. apply Hnb. by apply andb_prop in Hv.
Qed.

Lemma preparation_consistent (g g' : Grid) :
  consistent g = true →
  dims g' = dims g →
  (∀ r, get_node g' r = prepared_node_of g r <$> get_node g r) →
  consistent g' = true.
Proof.
  intros Hc Hd Hnodes. pose proof (dims_length _ _ Hd) as Hlen.
  apply consistent_intro.
  - intros i len. rewrite Hd, Hlen. by apply consistent_square.
  - intros r n'. rewrite Hnodes, Hlen.
    destruct (get_node g r) as [n|] eqn:Hn; [|done]. intros [= <-].
    destruct (consistent_node _ _ _ Hc Hn) as (? & ? & ?).
    unfold prepared_node_of. by destruct (kept n).
Qed.

(** The preparation hands [generate_path] the grid it expects, as long as
    the neighbour lists of the barrier, end and start nodes, which the
    preparation does not empty, hold nothing but adjacent places without a
    barrier: on a consistent grid (nodes that know their place, in a
    square), the prepared grid is again consistent and every neighbour list
    in it holds exactly the adjacent places that are not barriers; the
    colours are cleared, those of the barriers and of the two end points
    apart.  This covers the first preparation after the clicks, when all
    lists are empty. *)
Theorem preparation_gives_prepared_grid (g : Grid) :
  consistent g = true →
  (∀ r n v, get_node g r = Some n → kept n = true → v ∈ neighbors n →
            adjacent r v = true ∧ passable g v = true) →
  ∃ g', reset_for_new_run g = Ok g' ∧
        length g' = length g ∧
        consistent g' = true ∧ prepared g' = true ∧
        ∀ r, color_at g' r = cleared_color <$> color_at g r.
Proof.
  intros Hc Hold.
  destruct (reset_for_new_run_result g Hc) as (g' & Hrun & Hd & Hp & Hnodes).
  pose proof (dims_length _ _ Hd) as Hlen.
  exists g'. split_and!; [done|done|by apply (preparation_consistent g)| |].
  - apply prepared_intro.
    + intros i len. rewrite Hd, Hlen. by apply consistent_square.
    + intros r n'. rewrite Hnodes.
      destruct (get_node g r) as [n|] eqn:Hn; [|done]. intros [= <-].
      destruct (consistent_node _ _ _ Hc Hn) as (? & ? & ?).
      split_and!.
      * unfold prepared_node_of. by destruct (kept n).
      * unfold prepared_node_of. by destruct (kept n).
      * intros v. unfold prepared_node_of. simpl. rewrite elem_of_app.
        rewrite (elem_of_fresh_neighbors g r v Hc), Hp. split; [|auto].
        intros [Hv|Hv]; [|done].
        destruct (kept n) eqn:Hk; [|by apply elem_of_nil in Hv].
        by apply (Hold r n v).
  - intros r. unfold color_at. rewrite Hnodes.
    destruct (get_node g r) as [n|]; [|done]. simpl. f_equal.
    unfold prepared_node_of, cleared_color, kept, is_barrier, is_end, is_start.
    by destruct (color_eqb (color n) states.barrier
                 || color_eqb (color n) states.end_
                 || color_eqb (color n) states.start).
Qed.

Lemma preparation_gives_prepared_grid_witness :
  ∃ g', reset_for_new_run (clicked_grid 4 (0, 0)%nat (3, 3)%nat
                             [(1, 1)%nat; (2, 1)%nat]) = Ok g' ∧
        length g' = length (clicked_grid 4 (0, 0)%nat (3, 3)%nat
                              [(1, 1)%nat; (2, 1)%nat]) ∧
        consistent g' = true ∧ prepared g' = true ∧
        ∀ r, color_at g' r =
             cleared_color
             <$> color_at (clicked_grid 4 (0, 0)%nat (3, 3)%nat
                             [(1, 1)%nat; (2, 1)%nat]) r.
Proof.
  apply (preparation_gives_prepared_grid
           (clicked_grid 4 (0, 0)%nat (3, 3)%nat [(1, 1)%nat; (2, 1)%nat])).
  - by vm_compute.
  - intros r n v Hn Hk Hv. exfalso.
    assert (r ∈ grid_refs (clicked_grid 4 (0, 0)%nat (3, 3)%nat
                             [(1, 1)%nat; (2, 1)%nat])) as Hr.
    { apply elem_of_grid_refs. by eexists. }
    vm_compute in Hr.
    repeat (apply elem_of_cons in Hr as [->|Hr];
            [vm_compute in Hn; injection Hn as <-; by apply elem_of_nil in Hv|]).
    by apply elem_of_nil in Hr.
Defined.

(** ** Runs on grids with barriers *)

Lemma reconstruct_path_walk (fuel : nat) (origin : gmap ref ref) (v : ref)
    (g g' : Grid) (path : list ref) :
  reconstruct_path fuel origin v g = Some (g', path) →
  walk origin v path ∧ g' = mark_path path g.
Proof.
  revert v g g' path. induction fuel as [|fuel IH]; intros v g g' path; [done|].
  simpl. destruct (origin !! v) as [u|] eqn:Hu.
  - destruct (reconstruct_path fuel origin u _) as [[g1 p1]|] eqn:Hrec; [|done].
    intros [= <- <-]. by apply IH in Hrec as [? ->].
  - by intros [= <- <-].
Qed.

Lemma walk_reconstruct (origin : gmap ref ref) (path : list ref) :
  ∀ v fuel g, walk origin v path → (length path < fuel)%nat →
  reconstruct_path fuel origin v g = Some (mark_path path g, path).
Proof.
  induction path as [|u path IH]; intros v fuel g Hwalk Hfuel.
  - destruct fuel as [|fuel]; [simpl in Hfuel; lia|]. simpl in *.
    by rewrite Hwalk.
  - destruct fuel as [|fuel]; [simpl in Hfuel; lia|]. simpl in *.
    destruct Hwalk as [-> Hwalk]. rewrite (IH u fuel); [done|done|lia].
Qed.

Lemma get_node_mark_path (path : list ref) (g : Grid) (v : ref) :
  get_node (mark_path path g) v =
  if decide (v ∈ path) then make_path <$> get_node g v else get_node g v.
Proof.
  revert g. induction path as [|u path IH]; intros g.
  - rewrite decide_False; [done|]. apply not_elem_of_nil.
  - change (mark_path (u :: path) g)
      with (mark_path path (modify_node make_path u g)).
    rewrite IH, get_node_modify. destruct (decide (u = v)) as [<-|Huv].
    + rewrite (decide_True (P := u ∈ u :: path)) by (by left).
      destruct (decide (u ∈ path)); by destruct (get_node g u).
    + destruct (decide (v ∈ path)) as [Hin|Hout].
      * rewrite decide_True; [done|by right].
      * rewrite decide_False; [done|]. by intros [?|?]%elem_of_cons.
Qed.

Lemma same_shape_mark_path (g0 g : Grid) (path : list ref) :
  same_shape g0 g → same_shape g0 (mark_path path g).
Proof.
  revert g. induction path as [|u path IH]; intros g Hsh; [done|].
  simpl. apply IH. by apply same_shape_set_color.
Qed.

Lemma dims_mark_path (g : Grid) (path : list ref) :
  dims (mark_path path g) = dims g.
Proof.
  revert g. induction path as [|u path IH]; intros g; [done|].
  simpl. by rewrite IH, dims_modify_node.
Qed.

Lemma same_shape_consistent (g0 g : Grid) :
  same_shape g0 g → dims g = dims g0 →
  consistent g0 = true → consistent g = true.
Proof.
  intros Hsh Hd Hc. pose proof (dims_length _ _ Hd) as Hlen.
  apply consistent_intro.
  - intros i len. rewrite Hd, Hlen. by apply consistent_square.
  - intros v n Hn. specialize (Hsh v). rewrite Hn, Hlen in *.
    destruct (get_node g0 v) as [n0|] eqn:Hn0; [|done].
    simpl in Hsh. injection Hsh as Hrow Hcol _ Htot _ _ _.
    rewrite Hrow, Hcol, Htot. by apply consistent_node.
Qed.

Lemma passable_set_color (g : Grid) (c : Color) (r v : ref) :
  color_eqb c states.barrier = false →
  passable g v = true → passable (modify_node (set_color c) r g) v = true.
Proof.
  intros Hc. unfold passable. rewrite get_node_modify.
  destruct (decide (r = v)) as [<-|]; [|done].
  destruct (get_node g r) as [n|]; [|done]. simpl. intros _.
  unfold is_barrier. simpl. by rewrite Hc.
Qed.

Lemma passable_mark_path (g : Grid) (path : list ref) (v : ref) :
  passable g v = true → passable (mark_path path g) v = true.
Proof.
  revert g. induction path as [|u path IH]; intros g Hv; [done|].
  simpl. apply IH. by apply passable_set_color.
Qed.

Lemma adjacent_sym (u v : ref) : adjacent u v = adjacent v u.
Proof.
  unfold adjacent. f_equal. fold (dist u v) (dist v u).
  rewrite !dist_unfold. lia.
Qed.

(** A chain of adjacent cells is at least as long as the distance between
    its ends. *)
Lemma chain_dist (s : ref) (path : list ref) :
  ∀ v, adjacent_chain v path → last (v :: path) = Some s →
       dist s v ≤ Z.of_nat (length path).
Proof.
  induction path as [|u path IH]; intros v Hchain Hlast.
  - injection Hlast as ->. rewrite dist_self. simpl. lia.
  - destruct Hchain as [Hadj Hchain]. specialize (IH u Hchain Hlast).
    apply adjacent_dist in Hadj. pose proof (dist_triangle s u v).
    rewrite !dist_unfold in *. simpl length. lia.
Qed.

Section Route.
Context {PQ : PriorityQueue}.
Variables (g0 : Grid) (s e : ref).
Hypothesis Hprep : prepared g0 = true.
Hypothesis He : is_Some (get_node g0 e).

Lemma ri_initial (st0 : SearchState) :
  initial_state g0 s e = Ok st0 → route_inv g0 s e None st0.
Proof.
  intros Hinit.
  destruct (initial_state_fields g0 s e st0 Hinit)
    as (_ & Ho & Hq & Hh & Hg & Hgrid & _).
  pose proof (initial_reached g0 s e st0 Hinit) as Hreach.
  split.
  - rewrite Hg. apply lookup_insert_eq.
  - by rewrite Ho.
  - intros v k Hv Hne. destruct Hne. apply Hreach. by exists k.
  - intros v k Hv. assert (v = s) as -> by (apply Hreach; by exists k).
    rewrite Hg, lookup_insert_eq in Hv. injection Hv as <-.
    by rewrite dist_self.
  - intros u v [->%Hreach Hout]. rewrite Hh in Hout. set_solver.
  - intros u [->%Hreach Hout]. rewrite Hh in Hout. set_solver.
  - by rewrite Hgrid.
  - by rewrite Hgrid.
  - by rewrite Hgrid.
  - left. by rewrite Hgrid.
  - intros v _ _. left. by rewrite Hgrid.
  - by rewrite Hgrid.
Qed.

Lemma ri_take (st : SearchState) (item : entry) (rest : list entry) :
  route_inv g0 s e None st →
  route_inv g0 s e (Some (entry_node item)) (take item rest st).
Proof.
  intros [Hst Hso Hor Hlow Hnb Hne Hbar Hpass Hsc Hec Hcol Hdim].
  split; try done.
  - intros u v Hu Hbusy. apply Hnb; [|done].
    apply (expanded_take _ _ _ _ Hu). congruence.
  - intros u Hu Hbusy. apply Hne; [|done].
    apply (expanded_take _ _ _ _ Hu). congruence.
Qed.

Lemma ri_visit (cur : ref) (k : Z) (st' st'' : SearchState) (v : ref) :
  base_inv g0 st' →
  g_score st' !! cur = Some (Fin k) →
  route_inv g0 s e (Some cur) st' →
  adjacent cur v = true → passable g0 v = true →
  visit_neighbor e cur st' v = Ok st'' →
  route_inv g0 s e (Some cur) st'' ∧ reached st'' v ∧
  ∀ b, reached st' b → reached st'' b.
Proof.
  intros Hinv Hcur [Hst Hso Hor Hlow Hnb Hne Hbar Hpass Hsc Hec Hcol Hdim] Hadj Hpv Hrun.
  pose proof (inv_nonneg _ _ Hinv _ _ Hcur) as Hk.
  destruct (visit_neighbor_cases g0 e Hprep He cur k st' v Hinv Hcur
              (passable_is_Some _ _ Hpv))
    as (gv & Hgv & [(Hlt & Hrun')|[(Hlt & Hin & Hrun')|(Hlt & Hin & Hrun')]]);
    rewrite Hrun' in Hrun; injection Hrun as <-.
  { split; [done|]. split; [|done].
    destruct gv as [kv|]; [by exists kv|done]. }
  all: assert (v ≠ s) as Hvs
    by (intros ->; rewrite Hst in Hgv; injection Hgv as <-;
        unfold score_ltb in Hlt; lia).
  all: assert (v ≠ cur) as Hvc
    by (intros ->; rewrite Hcur in Hgv; injection Hgv as <-;
        unfold score_ltb in Hlt; lia).
  all: assert (∀ b, reached st' b →
                    ∃ kb, <[v := Fin (k + 1)]> (g_score st') !! b
                          = Some (Fin kb)) as Hmono
    by (intros b [kb Hb]; destruct (decide (v = b)) as [<-|Hvb];
        [rewrite lookup_insert_eq; by eexists
        |rewrite lookup_insert_ne by done; by eexists]).
  all: assert (∀ w kw, <[v := Fin (k + 1)]> (g_score st') !! w
                       = Some (Fin kw) → w ≠ s →
       ∃ u ku, <[v := cur]> (origin_node st') !! w = Some u ∧
               adjacent u w = true ∧ passable g0 w = true ∧
               <[v := Fin (k + 1)]> (g_score st') !! u = Some (Fin ku) ∧
               ku < kw) as Hor'.
  1,3: intros w kw Hw Hws; destruct (decide (v = w)) as [<-|Hvw];
    [rewrite lookup_insert_eq in Hw; injection Hw as <-;
     exists cur, k; rewrite lookup_insert_eq;
     rewrite lookup_insert_ne by done; split_and!; try done; lia|];
    rewrite lookup_insert_ne in Hw by done;
    destruct (Hor w kw Hw Hws) as (u & ku & Hou & Hauw & Hpw & Hu & Hlt');
    rewrite lookup_insert_ne by done;
    destruct (decide (v = u)) as [<-|Hvu];
    [exists v, (k + 1); rewrite lookup_insert_eq; split_and!; try done;
     rewrite Hgv in Hu; injection Hu as ->; unfold score_ltb in Hlt; lia
    |exists u, ku; by rewrite lookup_insert_ne].
  all: assert (∀ w kw, <[v := Fin (k + 1)]> (g_score st') !! w
                       = Some (Fin kw) → dist s w ≤ kw) as Hlow'.
  1,3: intros w kw Hw; destruct (decide (v = w)) as [<-|Hvw];
    [rewrite lookup_insert_eq in Hw; injection Hw as <-;
     specialize (Hlow cur k Hcur); apply adjacent_dist in Hadj;
     pose proof (dist_triangle s cur v); lia
    |rewrite lookup_insert_ne in Hw by done; by apply Hlow].
  - assert (∀ u, expanded (improved cur v k e st') u → expanded st' u) as Hexp.
    { intros u [[ku Hu] Hout]. simpl in *. split; [|done].
      rewrite lookup_insert_ne in Hu by (by intros ->). by exists ku. }
    split; [split; simpl; try done|split].
    + by rewrite lookup_insert_ne.
    + by rewrite lookup_insert_ne.
    + intros u w Hu Hbusy Huw Hw. apply Hmono.
      apply (Hnb u w); [by apply Hexp|done..].
    + intros u Hu Hbusy. apply Hne; [by apply Hexp|done].
    + unfold reached. simpl. rewrite lookup_insert_eq. by eexists.
    + intros b Hb. by apply Hmono.
  - assert (∀ u, expanded (pushed cur v k e st') u → expanded st' u) as Hexp.
    { intros u [[ku Hu] Hout]. simpl in *.
      assert (u ≠ v) as Huv by set_solver.
      split; [|set_solver].
      rewrite lookup_insert_ne in Hu by done. by exists ku. }
    split; [split; simpl; try done|split].
    + by rewrite lookup_insert_ne.
    + by rewrite lookup_insert_ne.
    + intros u w Hu Hbusy Huw Hw. apply Hmono.
      apply (Hnb u w); [by apply Hexp|done..].
    + intros u Hu Hbusy. apply Hne; [by apply Hexp|done].
    + intros w Hws Hwe Hw. rewrite get_node_modify_ne; [by apply Hbar|].
      intros ->. congruence.
    + intros w Hw. apply passable_set_color; [done|by apply Hpass].
    + intros Hse. unfold make_open. rewrite color_at_set_ne by done.
      by apply Hsc.
    + intros w Hws Hwe. unfold make_open.
      destruct (decide (v = w)) as [<-|Hvw].
      * right; left. apply color_at_set_eq.
        apply (same_shape_is_Some g0); [apply Hinv|].
        by apply passable_is_Some.
      * rewrite color_at_set_ne by done. by apply Hcol.
    + by rewrite dims_modify_node.
    + unfold reached. simpl. rewrite lookup_insert_eq. by eexists.
    + intros b Hb. by apply Hmono.
Qed.

Lemma ri_round (cur : ref) (st1 : SearchState) :
  base_inv g0 st1 →
  route_inv g0 s e (Some cur) st1 →
  reached st1 cur →
  cur ≠ e →
  (∀ v, adjacent cur v = true → passable g0 v = true → reached st1 v) →
  route_inv g0 s e None
    (with_grid
       (modify_node make_end e
          (if decide (cur ≠ s) then modify_node make_closed cur (grid st1)
           else grid st1)) st1).
Proof.
  intros Hinv [Hst Hso Hor Hlow Hnb Hne Hbar Hpass Hsc Hec Hcol Hdim] [k Hcur] Hce Hall.
  split; simpl; try done.
  - intros u v Hu _ Huv Hv. destruct (decide (u = cur)) as [->|Huc].
    + by apply Hall.
    + apply (Hnb u v); try done. congruence.
  - intros u Hu _. destruct (decide (u = cur)) as [->|Huc]; [done|].
    apply Hne; [done|congruence].
  - intros v Hvs Hve Hv. rewrite get_node_modify_ne by done.
    destruct (decide (cur ≠ s)) as [Hcs|]; [|by apply Hbar].
    rewrite get_node_modify_ne; [by apply Hbar|]. intros ->.
    destruct (Hor v k Hcur Hcs) as (_ & _ & _ & _ & Hpv & _). congruence.
  - intros v Hv. apply passable_set_color; [done|].
    destruct (decide (cur ≠ s)); [|by apply Hpass].
    apply passable_set_color; [done|by apply Hpass].
  - intros Hse. unfold make_end. rewrite color_at_set_ne by done.
    destruct (decide (cur ≠ s)); [|by apply Hsc].
    unfold make_closed. rewrite color_at_set_ne by done. by apply Hsc.
  - intros _. right. unfold make_end. apply color_at_set_eq.
    apply (same_shape_is_Some g0); [|done].
    destruct (decide (cur ≠ s)); [|apply Hinv].
    apply same_shape_set_color, Hinv.
  - intros v Hvs Hve. unfold make_end. rewrite color_at_set_ne by done.
    destruct (decide (cur ≠ s)); [|by apply Hcol]. unfold make_closed.
    destruct (decide (cur = v)) as [<-|Hcv].
    + right; right. apply color_at_set_eq.
      apply (same_shape_is_Some g0); [apply Hinv|].
      apply (inv_dom _ _ Hinv). by eexists.
    + rewrite color_at_set_ne by done. by apply Hcol.
  - rewrite dims_modify_node.
    destruct (decide (cur ≠ s)); [by rewrite dims_modify_node|done].
Qed.

(** One iteration that does not take the end node keeps the invariants. *)
Lemma route_step (st : SearchState) (item : entry) (rest : list entry)
    (st2 : SearchState) :
  base_inv g0 st ∧ route_inv g0 s e None st →
  pq_get (open_set st) = Some (item, rest) →
  entry_node item ≠ e →
  expand s e (entry_node item) (take item rest st) = Ok st2 →
  base_inv g0 st2 ∧ route_inv g0 s e None st2.
Proof.
  intros [Hinv Hri] Hget Hnend Hrun.
  destruct (take_base g0 e Hprep He st item rest Hinv Hget)
    as (_ & Hinv1 & _ & [[k Hk] Hout]).
  destruct (expand_run g0 s e Hprep He
    (route_inv g0 s e (Some (entry_node item))) (λ v st, reached st v)
    (take item rest st) (entry_node item) k Hinv1 Hk)
    as (st1 & Hrun' & Hinv2 & Hk2 & _ & Hri2 & Hall).
  { by apply ri_take. }
  { intros st' v Hinv' Hk' Hri' Hadj Hpv st'' Hvisit.
    by eapply ri_visit. }
  rewrite Hrun' in Hrun. injection Hrun as <-. split.
  - apply base_inv_with_grid; [done|].
    apply same_shape_recolor, Hinv2.
  - apply ri_round; try done. by exists k.
Qed.

End Route.

(** ** Runs on wired grids *)

Lemma wired_node (g : Grid) (r : ref) (n : Node) :
  wired g = true → get_node g r = Some n →
  get_pos n = pos r ∧ ∀ v, v ∈ neighbors n → is_Some (get_node g v).
Proof.
  unfold wired. rewrite forallb_forall. intros Hall Hn.
  specialize (Hall r). rewrite <- list_elem_of_In, elem_of_grid_refs in Hall.
  rewrite Hn in Hall. specialize (Hall (mk_is_Some _ _ eq_refl)).
  apply andb_prop in Hall as [[Hrow Hcol]%andb_prop Hnb]. split.
  - unfold get_pos, pos. f_equal; lia.
  - rewrite forallb_forall in Hnb. intros v Hv%list_elem_of_In%Hnb.
    by apply bool_decide_eq_true in Hv.
Qed.

Lemma wired_intro (g : Grid) :
  (∀ r n, get_node g r = Some n →
          row n = Z.of_nat r.1 ∧ column n = Z.of_nat r.2 ∧
          ∀ v, v ∈ neighbors n → is_Some (get_node g v)) →
  wired g = true.
Proof.
  intros Hall. unfold wired. apply forallb_forall.
  intros r [n Hn]%list_elem_of_In%elem_of_grid_refs. rewrite Hn.
  destruct (Hall r n Hn) as (Hrow & Hcol & Hnb).
  repeat (apply andb_true_intro; split); try lia.
  apply forallb_forall. intros v Hv%list_elem_of_In%Hnb.
  by apply bool_decide_eq_true.
Qed.

Lemma prepared_wired (g : Grid) : prepared g = true → wired g = true.
Proof.
  intros Hprep. apply wired_intro. intros r n Hn.
  destruct (prepared_node g r n Hprep Hn) as [Hpos Hnb].
  unfold get_pos, pos in Hpos. injection Hpos as Hrow Hcol.
  split_and!; try done.
  intros v [_ Hv]%Hnb. by apply passable_is_Some.
Qed.

Section Wired.
Context {PQ : PriorityQueue}.
Variables (g0 : Grid) (s e : ref).
Hypothesis Hwired : wired g0 = true.
Hypothesis He : is_Some (get_node g0 e).

Lemma deref_wired (st : SearchState) (v : ref) :
  same_shape g0 (grid st) →
  is_Some (get_node g0 v) →
  ∃ n, deref (grid st) v = Ok n ∧ get_pos n = pos v ∧
       ∀ w, w ∈ neighbors n → is_Some (get_node g0 w).
Proof.
  intros Hsh [n0 Hn0].
  destruct (same_shape_get _ _ _ _ Hsh Hn0) as (n & Hn & Hpos & Hnb).
  destruct (wired_node _ _ _ Hwired Hn0) as [Hpos0 Hnb0].
  exists n. unfold deref. rewrite Hn. split; [done|].
  split; [congruence|]. by rewrite Hnb.
Qed.

Lemma visit_cases_wired (cur : ref) (k : Z) (st : SearchState) (v : ref) :
  base_inv g0 st →
  g_score st !! cur = Some (Fin k) →
  is_Some (get_node g0 v) →
  ∃ gv, g_score st !! v = Some gv ∧
    ((score_ltb (Fin (k + 1)) gv = false ∧
      visit_neighbor e cur st v = Ok st) ∨
     (score_ltb (Fin (k + 1)) gv = true ∧ v ∈ open_set_hash st ∧
      visit_neighbor e cur st v = Ok (improved cur v k e st)) ∨
     (score_ltb (Fin (k + 1)) gv = true ∧ (v ∉ open_set_hash st) ∧
      visit_neighbor e cur st v = Ok (pushed cur v k e st))).
Proof.
  intros Hinv Hcur Hv.
  destruct (proj2 (inv_dom _ _ Hinv v) Hv) as [gv Hgv].
  exists gv. split; [done|].
  unfold visit_neighbor, dict_get. rewrite Hcur, Hgv. simpl.
  destruct (score_ltb (Fin (k + 1)) gv) eqn:Hlt; [|by left]. right.
  destruct (deref_wired st v (inv_shape _ _ Hinv) Hv) as (n & -> & Hn & _).
  destruct (deref_wired st e (inv_shape _ _ Hinv) He) as (ne & -> & Hne & _).
  simpl. rewrite Hn, Hne.
  destruct (decide (v ∈ open_set_hash st)); [left|right]; done.
Qed.

Lemma pushed_wired (cur v : ref) (k : Z) (st : SearchState) :
  base_inv g0 st →
  is_Some (get_node g0 v) →
  0 ≤ k →
  v ∉ open_set_hash st →
  base_inv g0 (pushed cur v k e st).
Proof.
  intros [Hsh Hdom Hhash Hnd Hopen Hnn] Hv Hk Hin.
  split; simpl.
  - by apply same_shape_set_color.
  - intros r. rewrite <- Hdom. destruct (decide (v = r)) as [<-|Hne].
    + rewrite lookup_insert_eq. split; [by rewrite Hdom|by eexists].
    + by rewrite lookup_insert_ne.
  - intros w. rewrite pq_put_perm, fmap_cons, elem_of_cons, <- Hhash.
    unfold entry_node at 1. simpl. set_solver.
  - rewrite pq_put_perm, fmap_cons. apply NoDup_cons.
    split; [|done]. by rewrite <- Hhash.
  - intros w Hw. unfold reached. simpl. destruct (decide (v = w)) as [<-|Hne].
    + rewrite lookup_insert_eq. by eexists.
    + rewrite lookup_insert_ne by done. apply Hopen. set_solver.
  - intros w kw. destruct (decide (v = w)) as [<-|Hne].
    + rewrite lookup_insert_eq. intros [= <-]. lia.
    + rewrite lookup_insert_ne by done. apply Hnn.
Qed.

Lemma take_wired (st : SearchState) (item : entry) (rest : list entry) :
  base_inv g0 st →
  pq_get (open_set st) = Some (item, rest) →
  entry_node item ∈ open_set_hash st ∧
  base_inv g0 (take item rest st) ∧
  progress g0 (take item rest st) st ∧
  expanded (take item rest st) (entry_node item).
Proof.
  intros [Hsh Hdom Hhash Hnd Hopen Hnn] Hget.
  pose proof (pq_get_perm _ _ _ Hget) as Hperm.
  assert (entry_node item ∈ open_set_hash st) as Hin.
  { apply Hhash. rewrite Hperm, fmap_cons. by left. }
  rewrite Hperm, fmap_cons in Hnd. apply NoDup_cons in Hnd as [Hfresh Hnd].
  split; [done|]. split; [split; simpl; try done|split].
  - intros v. rewrite elem_of_difference, Hhash, Hperm, fmap_cons,
      elem_of_cons, elem_of_singleton.
    split; [by intros [[?|?] ?]|]. intros Hv. split; [by right|].
    by intros ->.
  - intros v [Hv _]%elem_of_difference. by apply Hopen.
  - right. split; [done|]. unfold work, total_cost. simpl.
    apply Permutation_length in Hperm. simpl in Hperm. lia.
  - split; [by apply Hopen|]. simpl. set_solver.
Qed.

(** The visits of the neighbours of a node, whatever [P] every visit
    keeps. *)
Lemma expand_wired (P : SearchState → Prop) (st : SearchState) (cur : ref)
    (k : Z) :
  base_inv g0 st →
  g_score st !! cur = Some (Fin k) →
  P st →
  (∀ st' v st'', base_inv g0 st' → g_score st' !! cur = Some (Fin k) →
     P st' → is_Some (get_node g0 v) →
     visit_neighbor e cur st' v = Ok st'' → P st'') →
  ∃ st1,
    expand s e cur st =
      Ok (with_grid
            (modify_node make_end e
               (if decide (cur ≠ s)
                then modify_node make_closed cur (grid st1)
                else grid st1)) st1) ∧
    base_inv g0 st1 ∧
    g_score st1 !! cur = Some (Fin k) ∧
    no_regress g0 st1 st ∧
    P st1.
Proof.
  intros Hinv Hcur HP Hbody.
  assert (is_Some (get_node g0 cur)) as Hvalid.
  { apply (inv_dom _ _ Hinv). by eexists. }
  destruct (deref_wired st cur (inv_shape _ _ Hinv) Hvalid)
    as (n & Hn & _ & Hnb).
  unfold expand. rewrite Hn. simpl.
  destruct (for_each_inv (visit_neighbor e cur)
    (λ st', base_inv g0 st' ∧ g_score st' !! cur = Some (Fin k) ∧
            no_regress g0 st' st ∧ P st')
    (neighbors n) st) as (st1 & -> & (? & ? & ? & ?)).
  { split_and!; try done. apply no_regress_refl. }
  { intros st' v Hv%Hnb (Hinv' & Hcur' & Hreg & HP').
    pose proof (inv_nonneg _ _ Hinv' _ _ Hcur') as Hk.
    destruct (visit_cases_wired cur k st' v Hinv' Hcur' Hv)
      as (gv & Hgv & [(Hlt & Hrun)|[(Hlt & Hin & Hrun)|(Hlt & Hin & Hrun)]]).
    - exists st'. by split.
    - eexists. split; [done|].
      pose proof (Hbody st' v _ Hinv' Hcur' HP' Hv Hrun).
      assert (v ≠ cur) as Hne.
      { intros ->. rewrite Hcur' in Hgv. injection Hgv as <-.
        unfold score_ltb in Hlt. lia. }
      split_and!; try done.
      + by apply base_inv_improved.
      + simpl. by rewrite lookup_insert_ne.
      + eapply no_regress_trans; [|done].
        eapply (relaxed_measure g0 cur v k gv); try done. simpl. lia.
    - eexists. split; [done|].
      pose proof (Hbody st' v _ Hinv' Hcur' HP' Hv Hrun).
      assert (v ≠ cur) as Hne.
      { intros ->. rewrite Hcur' in Hgv. injection Hgv as <-.
        unfold score_ltb in Hlt. lia. }
      split_and!; try done.
      + by apply pushed_wired.
      + simpl. by rewrite lookup_insert_ne.
      + eapply no_regress_trans; [|done].
        eapply (relaxed_measure g0 cur v k gv); try done. simpl.
        by rewrite pq_put_perm. }
  simpl. eexists. by split.
Qed.

(** The loop ends whatever the events are: with an empty frontier, at a
    stopping event, or when the end node is taken from the frontier. *)
Lemma loop_ends (I : SearchState → Prop) :
  (∀ st, I st → base_inv g0 st) →
  (∀ st item rest st2, I st →
     pq_get (open_set st) = Some (item, rest) →
     entry_node item ≠ e →
     expand s e (entry_node item) (take item rest st) = Ok st2 →
     I st2) →
  ∀ st events, I st →
  ∃ n,
    (∃ stf, I stf ∧ open_set stf = [] ∧
       ∀ extra, search_loop (S n + extra) s e events st = Exhausted stf) ∨
    (∃ stc, I stc ∧
       ∀ extra, search_loop (S n + extra) s e events st = Cancelled stc) ∨
    (∃ st' item rest, I st' ∧
       pq_get (open_set st') = Some (item, rest) ∧
       entry_node item = e ∧
       ∀ extra, search_loop (S n + extra) s e events st
                = finish extra s e (take item rest st')).
Proof.
  intros Hbase Hstep st.
  remember (unreached g0 st) as u eqn:Hu. revert st Hu.
  induction u as [u IHu] using lt_wf_ind. intros st Hu.
  remember (work g0 st) as w eqn:Hw. revert st Hu Hw.
  induction w as [w IHw] using lt_wf_ind. intros st Hu Hw events HI.
  destruct (pq_empty (open_set st)) eqn:Hq.
  { exists 0%nat. left. exists st. split_and!; try done.
    - by destruct (open_set st).
    - intros extra. simpl. by rewrite Hq. }
  destruct (existsb stops_run (hd [] events)) eqn:Hhd.
  { exists 0%nat. right; left. exists st. split; [done|].
    intros extra. simpl. by rewrite Hq, Hhd. }
  destruct (pq_get_nonempty (open_set st)) as [[item rest] Hget];
    [by intros Hnil; rewrite Hnil in Hq|].
  pose proof (Hbase _ HI) as Hinv.
  destruct (take_wired st item rest Hinv Hget)
    as (Hin & Hinv1 & Hprog & [[k Hk] Hout]).
  destruct (decide (entry_node item = e)) as [Hend|Hnend].
  { exists 0%nat. right; right. exists st, item, rest. split_and!; try done.
    intros extra. simpl. rewrite Hq, Hhd, Hget.
    rewrite decide_True by done. by rewrite decide_True by done. }
  destruct (expand_wired (λ _, True) (take item rest st) (entry_node item) k
              Hinv1 Hk Logic.I)
    as (st1 & Hrun & Hinv2 & _ & Hreg & _); [done|].
  pose proof (Hstep _ _ _ _ HI Hget Hnend Hrun) as HI2.
  set (st2 := with_grid _ st1) in *.
  assert (progress g0 st2 st) as Hprog2.
  { eapply no_regress_progress; [|done]. by apply no_regress_with_grid. }
  assert (∃ n,
    (∃ stf, I stf ∧ open_set stf = [] ∧
       ∀ extra, search_loop (S n + extra) s e (tl events) st2
                = Exhausted stf) ∨
    (∃ stc, I stc ∧
       ∀ extra, search_loop (S n + extra) s e (tl events) st2
                = Cancelled stc) ∨
    (∃ st' item rest, I st' ∧
       pq_get (open_set st') = Some (item, rest) ∧
       entry_node item = e ∧
       ∀ extra, search_loop (S n + extra) s e (tl events) st2
                = finish extra s e (take item rest st'))) as [n Hn].
  { destruct Hprog2 as [Hlt|[Heq Hlt]].
    - eapply (IHu (unreached g0 st2)); [lia|done|done].
    - eapply (IHw (work g0 st2)); [lia|lia|done|done]. }
  exists (S n).
  assert (∀ extra, search_loop (S (S n) + extra) s e events st
                   = search_loop (S n + extra) s e (tl events) st2) as Hunfold.
  { intros extra. change (S (S n) + extra)%nat with (S (S n + extra)).
    cbn [search_loop]. rewrite Hq, Hhd, Hget.
    rewrite decide_True by done.
    rewrite decide_False by done. by rewrite Hrun. }
  destruct Hn as [(stf & ? & ? & Hr)|[(stc & ? & Hr)|
                  (st' & item' & rest' & ? & ? & ? & Hr)]].
  - left. exists stf. split_and!; try done.
    intros extra. by rewrite Hunfold.
  - right; left. exists stc. split; [done|].
    intros extra. by rewrite Hunfold.
  - right; right. exists st', item', rest'. split_and!; try done.
    intros extra. by rewrite Hunfold.
Qed.

Lemma ci_initial (st0 : SearchState) :
  initial_state g0 s e = Ok st0 → chain_inv g0 s e false st0.
Proof.
  intros Hinit.
  destruct (initial_state_fields g0 s e st0 Hinit)
    as (_ & Ho & Hq & Hh & Hg & Hgrid & _).
  pose proof (initial_reached g0 s e st0 Hinit) as Hreach.
  split.
  - rewrite Hg. apply lookup_insert_eq.
  - by rewrite Ho.
  - intros v k Hv Hne. destruct Hne. apply Hreach. by exists k.
  - by rewrite Hgrid.
  - left. by rewrite Hgrid.
  - intros v _ _. left. by rewrite Hgrid.
  - by rewrite Hgrid.
Qed.

Lemma ci_visit (cur : ref) (k : Z) (st' st'' : SearchState) (v : ref) :
  base_inv g0 st' →
  g_score st' !! cur = Some (Fin k) →
  chain_inv g0 s e true st' →
  is_Some (get_node g0 v) →
  visit_neighbor e cur st' v = Ok st'' →
  chain_inv g0 s e true st''.
Proof.
  intros Hinv Hcur [Hst Hso Hor Hsc Hec Hcol Hdim] Hv Hrun.
  pose proof (inv_nonneg _ _ Hinv _ _ Hcur) as Hk.
  destruct (visit_cases_wired cur k st' v Hinv Hcur Hv)
    as (gv & Hgv & [(Hlt & Hrun')|[(Hlt & Hin & Hrun')|(Hlt & Hin & Hrun')]]);
    rewrite Hrun' in Hrun; injection Hrun as <-; [done| |].
  all: assert (v ≠ s) as Hvs
    by (intros ->; rewrite Hst in Hgv; injection Hgv as <-;
        unfold score_ltb in Hlt; lia).
  all: assert (v ≠ cur) as Hvc
    by (intros ->; rewrite Hcur in Hgv; injection Hgv as <-;
        unfold score_ltb in Hlt; lia).
  all: assert (∀ w kw, <[v := Fin (k + 1)]> (g_score st') !! w
                       = Some (Fin kw) → w ≠ s →
       ∃ u ku, <[v := cur]> (origin_node st') !! w = Some u ∧
               <[v := Fin (k + 1)]> (g_score st') !! u = Some (Fin ku) ∧
               ku < kw) as Hor'.
  1,3: intros w kw Hw Hws; destruct (decide (v = w)) as [<-|Hvw];
    [rewrite lookup_insert_eq in Hw; injection Hw as <-;
     exists cur, k; rewrite lookup_insert_eq;
     rewrite lookup_insert_ne by done; split_and!; try done; lia|];
    rewrite lookup_insert_ne in Hw by done;
    destruct (Hor w kw Hw Hws) as (u & ku & Hou & Hu & Hlt');
    rewrite lookup_insert_ne by done;
    destruct (decide (v = u)) as [<-|Hvu];
    [exists v, (k + 1); rewrite lookup_insert_eq; split_and!; try done;
     rewrite Hgv in Hu; injection Hu as ->; unfold score_ltb in Hlt; lia
    |exists u, ku; by rewrite lookup_insert_ne].
  - split; simpl; try done.
    + by rewrite lookup_insert_ne.
    + by rewrite lookup_insert_ne.
  - split; simpl; try done.
    + by rewrite lookup_insert_ne.
    + by rewrite lookup_insert_ne.
    + intros Hse. unfold make_open. rewrite color_at_set_ne by done.
      by apply Hsc.
    + intros w Hws Hwe. unfold make_open.
      destruct (decide (v = w)) as [<-|Hvw].
      * right; left. apply color_at_set_eq.
        by apply (same_shape_is_Some g0); [apply Hinv|].
      * rewrite color_at_set_ne by done. by apply Hcol.
    + by rewrite dims_modify_node.
Qed.

Lemma ci_round (cur : ref) (st1 : SearchState) :
  base_inv g0 st1 →
  chain_inv g0 s e true st1 →
  reached st1 cur →
  chain_inv g0 s e false
    (with_grid
       (modify_node make_end e
          (if decide (cur ≠ s) then modify_node make_closed cur (grid st1)
           else grid st1)) st1).
Proof.
  intros Hinv [Hst Hso Hor Hsc Hec Hcol Hdim] [k Hcur].
  split; simpl; try done.
  - intros Hse. unfold make_end. rewrite color_at_set_ne by done.
    destruct (decide (cur ≠ s)); [|by apply Hsc].
    unfold make_closed. rewrite color_at_set_ne by done. by apply Hsc.
  - intros _. right. unfold make_end. apply color_at_set_eq.
    apply (same_shape_is_Some g0); [|done].
    destruct (decide (cur ≠ s)); [|apply Hinv].
    apply same_shape_set_color, Hinv.
  - intros v Hvs Hve. unfold make_end. rewrite color_at_set_ne by done.
    destruct (decide (cur ≠ s)); [|by apply Hcol]. unfold make_closed.
    destruct (decide (cur = v)) as [<-|Hcv].
    + right; right. apply color_at_set_eq.
      apply (same_shape_is_Some g0); [apply Hinv|].
      apply (inv_dom _ _ Hinv). by eexists.
    + rewrite color_at_set_ne by done. by apply Hcol.
  - rewrite dims_modify_node.
    destruct (decide (cur ≠ s)); [by rewrite dims_modify_node|done].
Qed.

(** One iteration that does not take the end node keeps the invariants. *)
Lemma chain_step (st : SearchState) (item : entry) (rest : list entry)
    (st2 : SearchState) :
  base_inv g0 st ∧ chain_inv g0 s e false st →
  pq_get (open_set st) = Some (item, rest) →
  entry_node item ≠ e →
  expand s e (entry_node item) (take item rest st) = Ok st2 →
  base_inv g0 st2 ∧ chain_inv g0 s e false st2.
Proof.
  intros [Hinv Hci] Hget Hnend Hrun.
  destruct (take_wired st item rest Hinv Hget)
    as (_ & Hinv1 & _ & [[k Hk] Hout]).
  destruct (expand_wired (chain_inv g0 s e true)
    (take item rest st) (entry_node item) k Hinv1 Hk)
    as (st1 & Hrun' & Hinv2 & Hk2 & _ & Hci2).
  { destruct Hci. by split. }
  { intros st' v st'' Hinv' Hk' Hci' Hv Hvisit. by eapply ci_visit. }
  rewrite Hrun' in Hrun. injection Hrun as <-. split.
  - apply base_inv_with_grid; [done|].
    apply same_shape_recolor, Hinv2.
  - apply ci_round; try done. by exists k.
Qed.

(** The origins lead from every reached node back to the start node in
    no more steps than its score. *)
Lemma chain_back (busy : bool) (st : SearchState) :
  base_inv g0 st →
  chain_inv g0 s e busy st →
  ∀ n v k, (Z.to_nat k ≤ n)%nat → g_score st !! v = Some (Fin k) →
  ∃ path, walk (origin_node st) v path ∧ (length path ≤ n)%nat ∧
          ∀ u, u ∈ path → reached st u.
Proof.
  intros Hinv [Hst Hso Hor Hsc Hec Hcol Hdim].
  induction n as [|n IH]; intros v k Hk Hv.
  - pose proof (inv_nonneg _ _ Hinv _ _ Hv) as Hnn.
    assert (k = 0) as -> by lia.
    assert (v = s) as ->.
    { destruct (decide (v = s)) as [|Hvs]; [done|].
      destruct (Hor v 0 Hv Hvs) as (u & ku & _ & Hu & ?).
      apply (inv_nonneg _ _ Hinv) in Hu. lia. }
    exists []. split_and!; try done. by intros u ?%elem_of_nil.
  - destruct (decide (v = s)) as [->|Hvs].
    { exists []. split_and!; [done|simpl; lia|by intros u ?%elem_of_nil]. }
    destruct (Hor v k Hv Hvs) as (u & ku & Hou & Hu & Hlt).
    pose proof (inv_nonneg _ _ Hinv _ _ Hu) as Hnn.
    destruct (IH u ku ltac:(lia) Hu) as (path & Hwalk & Hlen & Hreached).
    exists (u :: path). split_and!; [done|simpl; lia|].
    intros w [->|Hw]%elem_of_cons; [by exists ku|by apply Hreached].
Qed.

(** What the branch for the end node returns. *)
Lemma finish_wired (st : SearchState) (item : entry) (rest : list entry) :
  base_inv g0 st →
  chain_inv g0 s e false st →
  pq_get (open_set st) = Some (item, rest) →
  entry_node item = e →
  ∃ path,
    walk (origin_node st) e path ∧
    (∀ u, u ∈ path → is_Some (get_node g0 u)) ∧
    ∀ fuel, (length path < fuel)%nat →
      finish fuel s e (take item rest st) =
      Found (with_grid
               (modify_node make_start s
                  (modify_node make_end e (mark_path path (grid st))))
               (take item rest st)) path.
Proof.
  intros Hinv Hci Hget Hend.
  assert (reached st e) as [k Hk].
  { apply (inv_open_reached _ _ Hinv), (inv_hash _ _ Hinv).
    rewrite (pq_get_perm _ _ _ Hget), fmap_cons, Hend. by left. }
  destruct (chain_back false st Hinv Hci (Z.to_nat k) e k ltac:(lia) Hk)
    as (path & Hwalk & Hlen & Hreached).
  exists path. split_and!; try done.
  - intros u [ku Hu]%Hreached. apply (inv_dom _ _ Hinv). by eexists.
  - intros fuel Hfuel. unfold finish. simpl.
    by rewrite (walk_reconstruct _ _ _ _ _ Hwalk Hfuel).
Qed.

End Wired.

(** A call of [generate_path] on a wired grid returns. *)
Lemma run_returns {PQ : PriorityQueue} (g0 : Grid) (s e : ref)
    (events : list (list Event)) :
  wired g0 = true →
  is_Some (get_node g0 s) →
  is_Some (get_node g0 e) →
  ∃ n r, returns r = true ∧
         ∀ fuel, (n ≤ fuel)%nat →
                 generate_path fuel g0 (Some s) (Some e) events = r.
Proof.
  intros Hwired Hs He.
  destruct Hs as [s_node Hs'], He as [e_node He'].
  pose proof (initial_state_ok g0 s e _ _ Hs' He') as Hinit.
  set (st0 := mkState _ _ _ _ _ _ _ _) in Hinit.
  assert (is_Some (get_node g0 s)) as Hs by by eexists.
  assert (is_Some (get_node g0 e)) as He by by eexists.
  destruct (loop_ends g0 s e Hwired He
    (λ st, base_inv g0 st ∧ chain_inv g0 s e false st)) with st0 events
    as [n [(stf & _ & _ & Hrun)|[(stc & _ & Hrun)|
           (st' & item & rest & [Hinv Hci] & Hget & Hend & Hrun)]]].
  - by intros st [? ?].
  - intros st item rest st2. by apply chain_step.
  - split; [apply (base_inv_initial g0 s e st0 Hs Hinit)|].
    by apply ci_initial.
  - exists (S n), (Exhausted stf). split; [done|]. intros fuel Hfuel.
    unfold generate_path. rewrite Hinit.
    replace fuel with (S n + (fuel - S n))%nat by lia. apply Hrun.
  - exists (S n), (Cancelled stc). split; [done|]. intros fuel Hfuel.
    unfold generate_path. rewrite Hinit.
    replace fuel with (S n + (fuel - S n))%nat by lia. apply Hrun.
  - destruct (finish_wired g0 s e st' item rest Hinv Hci Hget Hend)
      as (path & _ & _ & Hfin).
    eexists (S n + S (length path))%nat, (Found _ path). split; [done|].
    intros fuel Hfuel. unfold generate_path. rewrite Hinit.
    replace fuel with (S n + (fuel - S n))%nat by lia. rewrite Hrun.
    apply Hfin. lia.
Qed.


(** What is known of the result of the loop, whatever the fuel, from a
    fact [I] that every iteration keeps. *)
Lemma search_loop_inv {PQ : PriorityQueue} (s e : ref)
    (I : SearchState → Prop) :
  (∀ st item rest st2, I st →
     pq_get (open_set st) = Some (item, rest) →
     entry_node item ≠ e →
     expand s e (entry_node item) (take item rest st) = Ok st2 →
     I st2) →
  ∀ fuel st events, I st →
  match search_loop fuel s e events st with
  | Exhausted st' => I st' ∧ open_set st' = []
  | Cancelled st' => I st'
  | Found stf path =>
      ∃ st' item rest fuel',
        I st' ∧ pq_get (open_set st') = Some (item, rest) ∧
        entry_node item = e ∧
        finish fuel' s e (take item rest st') = Found stf path
  | Raised _ | OutOfFuel => True
  end.
Proof.
  intros Hstep. induction fuel as [|fuel IH]; intros st events HI; [done|].
  simpl. destruct (pq_empty (open_set st)) eqn:Hq.
  { split; [done|]. by destruct (open_set st). }
  destruct (existsb stops_run (hd [] events)); [done|].
  destruct (pq_get (open_set st)) as [[item rest]|] eqn:Hget; [|done].
  destruct (decide (entry_node item ∈ open_set_hash st)); [|done].
  destruct (decide (entry_node item = e)) as [Hend|Hnend].
  - destruct (finish fuel s e (take item rest st)) as [stf path| | | |]
      eqn:Hfin; try done.
    + by exists st, item, rest, fuel.
    + unfold finish in Hfin. by destruct (reconstruct_path _ _ _ _) as [[??]|].
    + unfold finish in Hfin. by destruct (reconstruct_path _ _ _ _) as [[??]|].
  - destruct (expand s e (entry_node item) (take item rest st)) as [st2|]
      eqn:Hrun; [|done].
    apply IH. by eapply Hstep.
Qed.

Section Routes.
Context {PQ : PriorityQueue}.
Variables (g0 : Grid) (s e : ref).

(** The origins lead from every reached node back to the start node, by
    steps between adjacent cells along which the score goes down. *)
Lemma route_walk (busy : option ref) (st : SearchState) :
  route_inv g0 s e busy st →
  ∀ path v k,
    g_score st !! v = Some (Fin k) →
    walk (origin_node st) v path →
    adjacent_chain v path ∧ last (v :: path) = Some s ∧ NoDup (v :: path) ∧
    (∀ u, u ∈ path → ∃ ku, g_score st !! u = Some (Fin ku) ∧ ku < k) ∧
    (∀ u, u ∈ v :: path → u ≠ s → passable g0 u = true).
Proof.
  intros [Hst Hso Hor Hlow Hnb Hne Hbar Hpass Hsc].
  induction path as [|u path IH]; intros v k Hv Hwalk.
  - simpl in Hwalk. assert (v = s) as ->.
    { destruct (decide (v = s)) as [|Hvs]; [done|].
      destruct (Hor v k Hv Hvs) as (u & ku & Hu & _). congruence. }
    split_and!; try done.
    + apply NoDup_singleton.
    + by intros u ?%elem_of_nil.
    + by intros u ->%list_elem_of_singleton.
  - destruct Hwalk as [Hvu Hwalk].
    assert (v ≠ s) as Hvs by (intros ->; congruence).
    destruct (Hor v k Hv Hvs) as (u' & ku & Hu' & Hadj & Hpv & Hu & Hlt).
    assert (u' = u) as -> by congruence.
    destruct (IH u ku Hu Hwalk) as (Hchain & Hlast & Hnd & Hless & Hpath).
    assert (∀ w, w ∈ u :: path →
                 ∃ kw, g_score st !! w = Some (Fin kw) ∧ kw < k) as Hless'.
    { intros w [->|Hw]%elem_of_cons; [by exists ku|].
      destruct (Hless w Hw) as (kw & ? & ?). exists kw. split; [done|lia]. }
    split_and!; try done.
    + simpl. split; [|done]. by rewrite adjacent_sym.
    + apply NoDup_cons. split; [|done]. intros Hin.
      destruct (Hless' v Hin) as (kv & Hkv & ?).
      rewrite Hv in Hkv. injection Hkv as <-. lia.
    + intros w [->|Hw]%elem_of_cons; [done|]. by apply Hpath.
Qed.

Lemma route_back (busy : option ref) (st : SearchState) :
  base_inv g0 st →
  route_inv g0 s e busy st →
  ∀ n v k, (Z.to_nat k ≤ n)%nat → g_score st !! v = Some (Fin k) →
  ∃ path, walk (origin_node st) v path ∧ (length path ≤ n)%nat.
Proof.
  intros Hinv [Hst Hso Hor Hlow Hnb Hne Hbar Hpass Hsc].
  induction n as [|n IH]; intros v k Hk Hv.
  - pose proof (inv_nonneg _ _ Hinv _ _ Hv) as Hnn.
    assert (k = 0) as -> by lia.
    assert (v = s) as ->.
    { destruct (decide (v = s)) as [|Hvs]; [done|].
      destruct (Hor v 0 Hv Hvs) as (u & ku & _ & _ & _ & Hu & ?).
      apply (inv_nonneg _ _ Hinv) in Hu. lia. }
    by exists [].
  - destruct (decide (v = s)) as [->|Hvs]; [exists []; split; [done|simpl; lia]|].
    destruct (Hor v k Hv Hvs) as (u & ku & Hou & _ & _ & Hu & Hlt).
    pose proof (inv_nonneg _ _ Hinv _ _ Hu) as Hnn.
    destruct (IH u ku ltac:(lia) Hu) as (path & Hwalk & Hlen).
    exists (u :: path). split; [done|]. simpl. lia.
Qed.

Lemma route_connected (busy : option ref) (st : SearchState) :
  passable g0 s = true →
  base_inv g0 st →
  route_inv g0 s e busy st →
  ∀ v, reached st v → connected g0 s v.
Proof.
  intros Hps Hinv Hri v [k Hv].
  destruct (route_back busy st Hinv Hri (Z.to_nat k) v k ltac:(lia) Hv)
    as (path & Hwalk & _).
  revert v k Hv Hwalk. induction path as [|u path IH]; intros v k Hv Hwalk.
  - destruct (route_walk busy st Hri [] v k Hv Hwalk) as (_ & Hlast & _).
    injection Hlast as ->. by apply connected_here.
  - destruct Hwalk as [Hvu Hwalk].
    assert (v ≠ s) as Hvs.
    { intros ->. rewrite (ri_start_origin _ _ _ _ _ Hri) in Hvu. done. }
    destruct (ri_origin _ _ _ _ _ Hri v k Hv Hvs)
      as (u' & ku & Hu' & Hadj & Hpv & Hu & _).
    assert (u' = u) as -> by congruence.
    eapply connected_snoc; [|done|done]. by apply (IH u ku).
Qed.

(** What the branch for the end node returns. *)
Lemma finish_route (st : SearchState) (item : entry) (rest : list entry) :
  base_inv g0 st →
  route_inv g0 s e None st →
  pq_get (open_set st) = Some (item, rest) →
  entry_node item = e →
  ∃ path k,
    g_score st !! e = Some (Fin k) ∧
    walk (origin_node st) e path ∧
    (length path ≤ Z.to_nat k)%nat ∧
    ∀ fuel, (length path < fuel)%nat →
      finish fuel s e (take item rest st) =
      Found (with_grid
               (modify_node make_start s
                  (modify_node make_end e (mark_path path (grid st))))
               (take item rest st)) path.
Proof.
  intros Hinv Hri Hget Hend.
  assert (reached st e) as [k Hk].
  { apply (inv_open_reached _ _ Hinv), (inv_hash _ _ Hinv).
    rewrite (pq_get_perm _ _ _ Hget), fmap_cons, Hend. by left. }
  destruct (route_back None st Hinv Hri (Z.to_nat k) e k ltac:(lia) Hk)
    as (path & Hwalk & Hlen).
  exists path, k. split_and!; try done.
  intros fuel Hfuel. unfold finish. simpl.
  by rewrite (walk_reconstruct _ _ _ _ _ Hwalk Hfuel).
Qed.

End Routes.

(** The colours after a run on a wired grid. *)
Lemma run_colors {PQ : PriorityQueue} (g0 : Grid) (s e : ref)
    (events : list (list Event)) (fuel : nat) (st : SearchState) :
  wired g0 = true →
  s ≠ e →
  final_state (generate_path fuel g0 (Some s) (Some e) events) = Some st →
  same_shape g0 (grid st) ∧ dims (grid st) = dims g0 ∧
  (∀ v, v ≠ s → v ≠ e →
        color_at (grid st) v = color_at g0 v ∨
        color_at (grid st) v = Some states.open ∨
        color_at (grid st) v = Some states.closed ∨
        color_at (grid st) v = Some states.path) ∧
  (color_at (grid st) s = color_at g0 s ∨
   color_at (grid st) s = Some states.start) ∧
  (color_at (grid st) e = color_at g0 e ∨
   color_at (grid st) e = Some states.end_).
Proof.
  intros Hwired Hse Hrun. unfold generate_path in Hrun.
  destruct (initial_state g0 s e) as [st0|] eqn:Hinit; [|done].
  assert (is_Some (get_node g0 s) ∧ is_Some (get_node g0 e)) as [Hs He].
  { unfold initial_state, deref in Hinit.
    destruct (get_node g0 s); [|done]. destruct (get_node g0 e); [|done].
    split; by eexists. }
  pose proof (search_loop_inv s e
    (λ st, base_inv g0 st ∧ chain_inv g0 s e false st)
    (chain_step g0 s e Hwired He) fuel st0 events) as Hres.
  assert (base_inv g0 st0 ∧ chain_inv g0 s e false st0) as Hinv0.
  { split; [apply (base_inv_initial g0 s e st0 Hs Hinit)|].
    by apply ci_initial. }
  specialize (Hres Hinv0).
  assert (∀ st', base_inv g0 st' → chain_inv g0 s e false st' →
    same_shape g0 (grid st') ∧ dims (grid st') = dims g0 ∧
    (∀ v, v ≠ s → v ≠ e →
          color_at (grid st') v = color_at g0 v ∨
          color_at (grid st') v = Some states.open ∨
          color_at (grid st') v = Some states.closed ∨
          color_at (grid st') v = Some states.path) ∧
    (color_at (grid st') s = color_at g0 s ∨
     color_at (grid st') s = Some states.start) ∧
    (color_at (grid st') e = color_at g0 e ∨
     color_at (grid st') e = Some states.end_)) as Hplain.
  { intros st' Hinv Hci. split_and!.
    - apply Hinv.
    - apply (ci_dims _ _ _ _ _ Hci).
    - intros v Hvs Hve.
      destruct (ci_colors _ _ _ _ _ Hci v Hvs Hve) as [?|[?|?]]; auto.
    - left. by apply (ci_start_color _ _ _ _ _ Hci).
    - by apply (ci_end_color _ _ _ _ _ Hci). }
  destruct (search_loop fuel s e events st0) as [stf path|stf|stf| |];
    try done; injection Hrun as ->.
  - destruct Hres
      as (st' & item & rest & fuel' & [Hinv Hci] & Hget & Hend & Hfin).
    unfold finish in Hfin.
    destruct (reconstruct_path fuel' _ _ _) as [[g' p]|] eqn:Hrec; [|done].
    injection Hfin as <- <-.
    apply reconstruct_path_walk in Hrec as [Hwalk ->].
    assert (same_shape g0 (mark_path p (grid st'))) as Hsh.
    { apply same_shape_mark_path, Hinv. }
    simpl. split_and!.
    + by do 2 apply same_shape_set_color.
    + rewrite !dims_modify_node, dims_mark_path.
      apply (ci_dims _ _ _ _ _ Hci).
    + intros v Hvs Hve. unfold make_start, make_end.
      rewrite !color_at_set_ne by done. unfold color_at.
      rewrite get_node_mark_path. destruct (decide (v ∈ p)) as [Hin|Hout].
      * pose proof (inv_shape _ _ Hinv v) as Hv.
        destruct (get_node (grid st') v) as [n|]; [by do 3 right|].
        left. by destruct (get_node g0 v).
      * destruct (ci_colors _ _ _ _ _ Hci v Hvs Hve) as [?|[?|?]]; auto.
    + right. unfold make_start. apply color_at_set_eq.
      apply (same_shape_is_Some g0); [|done]. by apply same_shape_set_color.
    + right. unfold make_start, make_end. rewrite color_at_set_ne by done.
      apply color_at_set_eq. by apply (same_shape_is_Some g0).
  - destruct Hres as [[Hinv Hci] _]. by apply Hplain.
  - destruct Hres as [Hinv Hci]. by apply Hplain.
Qed.

(** On a wired grid (every node knows its place and every neighbour in a
    list is a node of the grid: the grids [main] builds, with or without
    barriers, also when a list holds nodes that have since become
    barriers), a call of [generate_path] with a start node and an end node
    of the grid returns, whatever the events are and whatever priority
    queue meeting the contract is used: it raises no exception, its loops
    end, and the result no longer depends on the fuel once there is enough
    of it. *)
Theorem run_returns_for_any_events {PQ : PriorityQueue} (g0 : Grid)
    (s e : ref) (events : list (list Event)) :
  wired g0 = true →
  is_Some (get_node g0 s) →
  is_Some (get_node g0 e) →
  ∃ n r, returns r = true ∧
         ∀ fuel, (n ≤ fuel)%nat →
                 generate_path fuel g0 (Some s) (Some e) events = r.
Proof. intros. by apply run_returns. Qed.

Lemma run_returns_for_any_events_witness :
  ∃ n r, returns r = true ∧
         ∀ fuel, (n ≤ fuel)%nat →
                 generate_path (PQ := list_pq) fuel
                   (modify_node make_barrier (0, 1)%nat
                      (prepared_grid 3 (0, 0)%nat (2, 2)%nat [(1, 1)%nat]))
                   (Some (0, 0)%nat) (Some (2, 2)%nat)
                   [[OtherEvent]; []; [KEYDOWN K_r; KEYDOWN K_q]] = r.
Proof.
  apply (run_returns_for_any_events (PQ := list_pq)).
  - by vm_compute.
  - vm_compute. by eexists.
  - vm_compute. by eexists.
Defined.

Lemma found_route {PQ : PriorityQueue} (g0 : Grid)
    (s e : ref) (events : list (list Event)) (fuel : nat)
    (st : SearchState) (path : list ref) :
  prepared g0 = true →
  generate_path fuel g0 (Some s) (Some e) events = Found st path →
  adjacent_chain e path ∧ last (e :: path) = Some s ∧
  NoDup (e :: path) ∧
  (∀ v, v ∈ e :: path → v ≠ s → passable g0 v = true) ∧
  (∃ k, g_score st !! e = Some (Fin k) ∧
        dist s e ≤ Z.of_nat (length path) ≤ k) ∧
  (∀ v, v ∈ path → v ≠ s → color_at (grid st) v = Some states.path) ∧
  color_at (grid st) s = Some states.start ∧
  (s ≠ e → color_at (grid st) e = Some states.end_) ∧
  (∀ v, color_at (grid st) v = Some states.path →
        v ∈ path ∨ color_at g0 v = Some states.path).
Proof.
  intros Hprep Hrun. unfold generate_path in Hrun.
  destruct (initial_state g0 s e) as [st0|] eqn:Hinit; [|done].
  assert (is_Some (get_node g0 s) ∧ is_Some (get_node g0 e)) as [Hs He].
  { unfold initial_state, deref in Hinit.
    destruct (get_node g0 s); [|done]. destruct (get_node g0 e); [|done].
    split; by eexists. }
  pose proof (search_loop_inv s e
    (λ st, base_inv g0 st ∧ route_inv g0 s e None st)
    (route_step g0 s e Hprep He) fuel st0 events) as Hres.
  rewrite Hrun in Hres.
  destruct Hres
    as (st' & item & rest & fuel' & [Hinv Hri] & Hget & Hend & Hfin).
  { split; [apply (base_inv_initial g0 s e st0 Hs Hinit)|].
    by apply ri_initial. }
  destruct (finish_route g0 s e st' item rest Hinv Hri Hget Hend)
    as (path' & k & Hk & Hwalk & Hlen & Hfin').
  assert (path' = path ∧
          st = with_grid
                 (modify_node make_start s
                    (modify_node make_end e (mark_path path (grid st'))))
                 (take item rest st')) as [-> ->].
  { unfold finish in Hfin.
    destruct (reconstruct_path fuel' _ _ _) as [[g' p]|] eqn:Hrec; [|done].
    injection Hfin as <- <-.
    specialize (Hfin' (S (length path') + fuel')%nat ltac:(lia)).
    unfold finish in Hfin'.
    rewrite (reconstruct_path_more_fuel fuel' (S (length path') + fuel')
               _ _ _ _ Hrec) in Hfin' by lia.
    by injection Hfin' as -> ->. }
  destruct (route_walk g0 s e None st' Hri path e k Hk Hwalk)
    as (Hchain & Hlast & Hnd & Hless & Hpass).
  assert (∀ v, is_Some (get_node g0 v) →
               is_Some (get_node (mark_path path (grid st')) v)) as Hvalid.
  { intros v Hv. apply (same_shape_is_Some g0); [|done].
    apply same_shape_mark_path, Hinv. }
  split_and!; try done.
  - exists k. split; [done|]. split; [by apply chain_dist|].
    pose proof (inv_nonneg _ _ Hinv _ _ Hk). lia.
  - intros v Hv Hvs. simpl.
    assert (v ≠ e) as Hve.
    { intros ->. apply NoDup_cons in Hnd as [Hnd _]. done. }
    unfold make_start, make_end. rewrite !color_at_set_ne by done.
    unfold color_at. rewrite get_node_mark_path, decide_True by done.
    destruct (Hless v Hv) as (kv & Hkv & _).
    assert (is_Some (get_node (grid st') v)) as [n Hn].
    { apply (same_shape_is_Some g0); [apply Hinv|].
      apply (inv_dom _ _ Hinv). by eexists. }
    by rewrite Hn.
  - simpl. unfold make_start. apply color_at_set_eq.
    apply (same_shape_is_Some g0); [|done].
    apply same_shape_set_color, same_shape_mark_path, Hinv.
  - intros Hse. simpl. unfold make_start, make_end.
    rewrite color_at_set_ne by done. apply color_at_set_eq. by apply Hvalid.
  - intros v. simpl. unfold make_start, make_end.
    destruct (decide (s = v)) as [<-|Hsv].
    { rewrite color_at_set_eq; [by intros ?%(inj Some)|].
      apply (same_shape_is_Some g0); [|done].
      apply same_shape_set_color, same_shape_mark_path, Hinv. }
    rewrite color_at_set_ne by done.
    destruct (decide (e = v)) as [<-|Hev].
    { rewrite color_at_set_eq; [by intros ?%(inj Some)|]. by apply Hvalid. }
    rewrite color_at_set_ne by done. unfold color_at.
    rewrite get_node_mark_path.
    destruct (decide (v ∈ path)) as [Hin|Hout]; [by left|].
    intros Hv. right.
    destruct (ri_colors _ _ _ _ _ Hri v) as [Heq|[Heq|Heq]]; try done;
      unfold color_at in Heq; rewrite Heq in Hv; try done;
      by apply (inj Some) in Hv.
Qed.

(** When [generate_path] returns after the reconstruction of a path on a
    prepared grid, the nodes the reconstruction walked through lead from
    the end node back to the start node by steps between adjacent cells,
    no node occurs twice, none of them is a barrier (the start node
    apart, which is not tested), there are at least as many steps as the
    Manhattan distance of the two nodes and at most as many as the score of
    the end node; in the grid the nodes of the path are path nodes, the
    start node has the start colour and the end node the end colour. *)
Theorem found_path_is_a_route {PQ : PriorityQueue} (g0 : Grid)
    (s e : ref) (events : list (list Event)) (fuel : nat)
    (st : SearchState) (path : list ref) :
  prepared g0 = true →
  generate_path fuel g0 (Some s) (Some e) events = Found st path →
  adjacent_chain e path ∧ last (e :: path) = Some s ∧
  NoDup (e :: path) ∧
  (∀ v, v ∈ e :: path → v ≠ s → passable g0 v = true) ∧
  (∃ k, g_score st !! e = Some (Fin k) ∧
        dist s e ≤ Z.of_nat (length path) ≤ k) ∧
  (∀ v, v ∈ path → v ≠ s → color_at (grid st) v = Some states.path) ∧
  color_at (grid st) s = Some states.start ∧
  (s ≠ e → color_at (grid st) e = Some states.end_).
Proof.
  intros Hprep Hrun.
  destruct (found_route g0 s e events fuel st path Hprep Hrun)
    as (? & ? & ? & ? & ? & ? & ? & ? & _).
  done.
Qed.

Lemma found_path_is_a_route_witness :
  ∃ st path,
    generate_path (PQ := list_pq) 40
      (prepared_grid 3 (0, 0)%nat (0, 2)%nat [(0, 1)%nat; (1, 1)%nat])
      (Some (0, 0)%nat) (Some (0, 2)%nat) [] = Found st path ∧
    length path = 6%nat ∧
    adjacent_chain (0, 2)%nat path ∧ last ((0, 2)%nat :: path)
                                     = Some (0, 0)%nat ∧
    NoDup ((0, 2)%nat :: path) ∧
    (∀ v, v ∈ (0, 2)%nat :: path → v ≠ (0, 0)%nat →
          passable (prepared_grid 3 (0, 0)%nat (0, 2)%nat
                      [(0, 1)%nat; (1, 1)%nat]) v = true) ∧
    (∃ k, g_score st !! (0, 2)%nat = Some (Fin k) ∧
          dist (0, 0)%nat (0, 2)%nat ≤ Z.of_nat (length path) ≤ k) ∧
    (∀ v, v ∈ path → v ≠ (0, 0)%nat →
          color_at (grid st) v = Some states.path) ∧
    color_at (grid st) (0, 0)%nat = Some states.start ∧
    ((0, 0)%nat ≠ (0, 2)%nat →
     color_at (grid st) (0, 2)%nat = Some states.end_).
Proof.
  eexists _, _. split; [by vm_compute|]. split; [by vm_compute|].
  apply (found_path_is_a_route (PQ := list_pq)
           (prepared_grid 3 (0, 0)%nat (0, 2)%nat [(0, 1)%nat; (1, 1)%nat])
           (0, 0)%nat (0, 2)%nat [] 40).
  - by vm_compute.
  - by vm_compute.
Defined.

(** With a start node that is not a barrier and no stopping event, a run
    on a prepared grid ends with a path exactly when a sequence of
    adjacent cells without barriers leads from the start node to the end
    node, and with an empty frontier exactly when none does. *)
Theorem path_found_iff_connected {PQ : PriorityQueue} (g0 : Grid)
    (s e : ref) (events : list (list Event)) :
  prepared g0 = true →
  passable g0 s = true →
  is_Some (get_node g0 e) →
  never_stopped events = true →
  ∃ n r,
    (∀ fuel, (n ≤ fuel)%nat →
             generate_path fuel g0 (Some s) (Some e) events = r) ∧
    match r with
    | Found _ _ => connected g0 s e
    | Exhausted _ => ¬ connected g0 s e
    | _ => False
    end.
Proof.
  intros Hprep Hpass He Hev.
  pose proof (passable_is_Some g0 s Hpass) as Hs.
  destruct Hs as [s_node Hs'], He as [e_node He'].
  pose proof (initial_state_ok g0 s e _ _ Hs' He') as Hinit.
  set (st0 := mkState _ _ _ _ _ _ _ _) in Hinit.
  assert (is_Some (get_node g0 s)) as Hs by by eexists.
  assert (is_Some (get_node g0 e)) as He by by eexists.
  destruct (loop_run g0 s e Hprep He
    (λ st, base_inv g0 st ∧ route_inv g0 s e None st)) with st0 events
    as [n [(stf & [Hinv Hri] & Hq & Hrun)|
           (st' & item & rest & [Hinv Hri] & Hget & Hend & Hrun)]].
  - by intros st [? ?].
  - intros st item rest st2. by apply route_step.
  - split; [apply (base_inv_initial g0 s e st0 Hs Hinit)|].
    by apply ri_initial.
  - done.
  - exists (S n), (Exhausted stf). split.
    { intros fuel Hfuel. unfold generate_path. rewrite Hinit.
      replace fuel with (S n + (fuel - S n))%nat by lia. apply Hrun. }
    intros Hconn.
    assert (∀ u, reached stf u → expanded stf u) as Hexp.
    { intros u Hu. split; [done|].
      rewrite (inv_hash _ _ Hinv), Hq. set_solver. }
    assert (∀ u v, connected g0 u v → reached stf u → reached stf v)
      as Hclosure.
    { intros u v Huv. induction Huv as [u Hu|u v w Hu Hadj Huv IH]; [done|].
      intros Hru. apply IH. apply (ri_neighbors _ _ _ _ _ Hri u v); try done.
      - by apply Hexp.
      - by apply connected_first in Huv. }
    apply (ri_not_end _ _ _ _ _ Hri e); try done.
    apply Hexp, (Hclosure s e Hconn). exists 0.
    apply (ri_start _ _ _ _ _ Hri).
  - destruct (finish_route g0 s e st' item rest Hinv Hri Hget Hend)
      as (path & k & Hk & _ & _ & Hfin).
    eexists (S n + S (length path))%nat, (Found _ path). split.
    { intros fuel Hfuel. unfold generate_path. rewrite Hinit.
      replace fuel with (S n + (fuel - S n))%nat by lia. rewrite Hrun.
      apply Hfin. lia. }
    apply (route_connected g0 s e None st' Hpass Hinv Hri). by exists k.
Qed.

Lemma path_found_iff_connected_witness :
  ∃ n r,
    (∀ fuel, (n ≤ fuel)%nat →
             generate_path (PQ := list_pq) fuel
               (prepared_grid 3 (0, 0)%nat (0, 2)%nat [(0, 1)%nat; (1, 1)%nat])
               (Some (0, 0)%nat) (Some (0, 2)%nat) [[OtherEvent]] = r) ∧
    match r with
    | Found _ _ =>
        connected (prepared_grid 3 (0, 0)%nat (0, 2)%nat
                     [(0, 1)%nat; (1, 1)%nat]) (0, 0)%nat (0, 2)%nat
    | Exhausted _ =>
        ¬ connected (prepared_grid 3 (0, 0)%nat (0, 2)%nat
                       [(0, 1)%nat; (1, 1)%nat]) (0, 0)%nat (0, 2)%nat
    | _ => False
    end.
Proof.
  apply (path_found_iff_connected (PQ := list_pq)).
  - by vm_compute.
  - by vm_compute.
  - vm_compute. by eexists.
  - reflexivity.
Defined.

(** Whatever way [generate_path] returns on a prepared grid, it has changed
    nothing but colours: the grid keeps its dimensions and every node its
    place, its size and its neighbour list.  A barrier other than the start node and the end node is
    left as it was and no node that was not a barrier has become one; a
    node other than the start node and the end node has the colour it had
    or is open, closed or a path node; the start node has the colour it had
    or the start colour, the end node the colour it had or the end
    colour. *)
Theorem run_changes_colours_only {PQ : PriorityQueue} (g0 : Grid)
    (s e : ref) (events : list (list Event)) (fuel : nat)
    (st : SearchState) :
  prepared g0 = true →
  s ≠ e →
  final_state (generate_path fuel g0 (Some s) (Some e) events) = Some st →
  same_shape g0 (grid st) ∧ dims (grid st) = dims g0 ∧
  (∀ v, v ≠ s → v ≠ e → passable g0 v = false →
        get_node (grid st) v = get_node g0 v) ∧
  (∀ v, passable g0 v = true → passable (grid st) v = true) ∧
  (∀ v, v ≠ s → v ≠ e →
        color_at (grid st) v = color_at g0 v ∨
        color_at (grid st) v = Some states.open ∨
        color_at (grid st) v = Some states.closed ∨
        color_at (grid st) v = Some states.path) ∧
  (color_at (grid st) s = color_at g0 s ∨
   color_at (grid st) s = Some states.start) ∧
  (color_at (grid st) e = color_at g0 e ∨
   color_at (grid st) e = Some states.end_).
Proof.
  intros Hprep Hse Hrun. unfold generate_path in Hrun.
  destruct (initial_state g0 s e) as [st0|] eqn:Hinit; [|done].
  assert (is_Some (get_node g0 s) ∧ is_Some (get_node g0 e)) as [Hs He].
  { unfold initial_state, deref in Hinit.
    destruct (get_node g0 s); [|done]. destruct (get_node g0 e); [|done].
    split; by eexists. }
  pose proof (search_loop_inv s e
    (λ st, base_inv g0 st ∧ route_inv g0 s e None st)
    (route_step g0 s e Hprep He) fuel st0 events) as Hres.
  assert (base_inv g0 st0 ∧ route_inv g0 s e None st0) as Hinv0.
  { split; [apply (base_inv_initial g0 s e st0 Hs Hinit)|].
    by apply ri_initial. }
  specialize (Hres Hinv0).
  assert (∀ st', base_inv g0 st' → route_inv g0 s e None st' →
    same_shape g0 (grid st') ∧ dims (grid st') = dims g0 ∧
    (∀ v, v ≠ s → v ≠ e → passable g0 v = false →
          get_node (grid st') v = get_node g0 v) ∧
    (∀ v, passable g0 v = true → passable (grid st') v = true) ∧
    (∀ v, v ≠ s → v ≠ e →
          color_at (grid st') v = color_at g0 v ∨
          color_at (grid st') v = Some states.open ∨
          color_at (grid st') v = Some states.closed ∨
          color_at (grid st') v = Some states.path) ∧
    (color_at (grid st') s = color_at g0 s ∨
     color_at (grid st') s = Some states.start) ∧
    (color_at (grid st') e = color_at g0 e ∨
     color_at (grid st') e = Some states.end_)) as Hplain.
  { intros st' Hinv Hri. split_and!.
    - apply Hinv.
    - apply (ri_dims _ _ _ _ _ Hri).
    - apply (ri_barriers _ _ _ _ _ Hri).
    - apply (ri_passable _ _ _ _ _ Hri).
    - intros v Hvs Hve.
      destruct (ri_colors _ _ _ _ _ Hri v Hvs Hve) as [?|[?|?]]; auto.
    - left. by apply (ri_start_color _ _ _ _ _ Hri).
    - by apply (ri_end_color _ _ _ _ _ Hri). }
  destruct (search_loop fuel s e events st0) as [stf path|stf|stf| |];
    try done; injection Hrun as ->.
  - destruct Hres
      as (st' & item & rest & fuel' & [Hinv Hri] & Hget & Hend & Hfin).
    unfold finish in Hfin.
    destruct (reconstruct_path fuel' _ _ _) as [[g' p]|] eqn:Hrec; [|done].
    injection Hfin as <- <-.
    apply reconstruct_path_walk in Hrec as [Hwalk ->]. simpl in Hwalk.
    assert (reached st' e) as [k Hk].
    { apply (inv_open_reached _ _ Hinv), (inv_hash _ _ Hinv).
      rewrite (pq_get_perm _ _ _ Hget), fmap_cons, Hend. by left. }
    destruct (route_walk g0 s e None st' Hri p e k Hk Hwalk)
      as (_ & _ & _ & Hless & Hpass).
    assert (same_shape g0 (mark_path p (grid st'))) as Hsh.
    { apply same_shape_mark_path, Hinv. }
    simpl. split_and!.
    + by do 2 apply same_shape_set_color.
    + rewrite !dims_modify_node, dims_mark_path.
      apply (ri_dims _ _ _ _ _ Hri).
    + intros v Hvs Hve Hv. rewrite !get_node_modify_ne by done.
      rewrite get_node_mark_path, decide_False.
      * by apply (ri_barriers _ _ _ _ _ Hri).
      * intros Hin. rewrite Hpass in Hv; [done|by right|done].
    + intros v Hv. do 2 (apply passable_set_color; [done|]).
      apply passable_mark_path. by apply (ri_passable _ _ _ _ _ Hri).
    + intros v Hvs Hve. unfold make_start, make_end.
      rewrite !color_at_set_ne by done. unfold color_at.
      rewrite get_node_mark_path. destruct (decide (v ∈ p)) as [Hin|Hout].
      * do 3 right. destruct (Hless v Hin) as (kv & Hkv & _).
        assert (is_Some (get_node (grid st') v)) as [n Hn].
        { apply (same_shape_is_Some g0); [apply Hinv|].
          apply (inv_dom _ _ Hinv). by eexists. }
        by rewrite Hn.
      * destruct (ri_colors _ _ _ _ _ Hri v Hvs Hve) as [?|[?|?]]; auto.
    + right. unfold make_start. apply color_at_set_eq.
      apply (same_shape_is_Some g0); [|done]. by apply same_shape_set_color.
    + right. unfold make_start, make_end. rewrite color_at_set_ne by done.
      apply color_at_set_eq. by apply (same_shape_is_Some g0).
  - destruct Hres as [[Hinv Hri] _]. by apply Hplain.
  - destruct Hres as [Hinv Hri]. by apply Hplain.
Qed.

Lemma run_changes_colours_only_witness :
  ∃ st,
    final_state
      (generate_path (PQ := list_pq) 40
         (prepared_grid 3 (0, 0)%nat (0, 2)%nat [(0, 1)%nat; (1, 1)%nat])
         (Some (0, 0)%nat) (Some (0, 2)%nat) []) = Some st ∧
    same_shape
      (prepared_grid 3 (0, 0)%nat (0, 2)%nat [(0, 1)%nat; (1, 1)%nat])
      (grid st) ∧
    dims (grid st) =
      dims (prepared_grid 3 (0, 0)%nat (0, 2)%nat [(0, 1)%nat; (1, 1)%nat]) ∧
    (∀ v, v ≠ (0, 0)%nat → v ≠ (0, 2)%nat →
          passable (prepared_grid 3 (0, 0)%nat (0, 2)%nat
                      [(0, 1)%nat; (1, 1)%nat]) v = false →
          get_node (grid st) v =
          get_node (prepared_grid 3 (0, 0)%nat (0, 2)%nat
                      [(0, 1)%nat; (1, 1)%nat]) v) ∧
    (∀ v, passable (prepared_grid 3 (0, 0)%nat (0, 2)%nat
                      [(0, 1)%nat; (1, 1)%nat]) v = true →
          passable (grid st) v = true) ∧
    (∀ v, v ≠ (0, 0)%nat → v ≠ (0, 2)%nat →
          color_at (grid st) v =
            color_at (prepared_grid 3 (0, 0)%nat (0, 2)%nat
                        [(0, 1)%nat; (1, 1)%nat]) v ∨
          color_at (grid st) v = Some states.open ∨
          color_at (grid st) v = Some states.closed ∨
          color_at (grid st) v = Some states.path) ∧
    (color_at (grid st) (0, 0)%nat =
       color_at (prepared_grid 3 (0, 0)%nat (0, 2)%nat
                   [(0, 1)%nat; (1, 1)%nat]) (0, 0)%nat ∨
     color_at (grid st) (0, 0)%nat = Some states.start) ∧
    (color_at (grid st) (0, 2)%nat =
       color_at (prepared_grid 3 (0, 0)%nat (0, 2)%nat
                   [(0, 1)%nat; (1, 1)%nat]) (0, 2)%nat ∨
     color_at (grid st) (0, 2)%nat = Some states.end_).
Proof.
  eexists. split; [by vm_compute|].
  apply (run_changes_colours_only (PQ := list_pq)
           (prepared_grid 3 (0, 0)%nat (0, 2)%nat [(0, 1)%nat; (1, 1)%nat])
           (0, 0)%nat (0, 2)%nat [] 40).
  - by vm_compute.
  - done.
  - by vm_compute.
Defined.

(** ** The path that a run marks *)

Lemma color_at_is_Some (g : Grid) (r : ref) (c : Color) :
  color_at g r = Some c → is_Some (get_node g r).
Proof. unfold color_at. destruct (get_node g r); [by eexists|done]. Qed.

Lemma marks_count (path : list ref) (s : ref) (cells : list ref)
    (P : ref → Prop) `{!∀ v, Decision (P v)} :
  NoDup cells → NoDup path → last path = Some s →
  (∀ v, v ∈ path → v ≠ s → P v ∧ v ∈ cells) →
  (∀ v, P v → v ∈ path ∧ v ≠ s) →
  (length (filter P cells) + 1 = length path)%nat.
Proof.
  intros Hcells Hpath Hlast Hin Hout.
  apply last_Some in Hlast as [inner ->].
  apply NoDup_app in Hpath as (Hinner & Hs & _).
  rewrite length_app. simpl. f_equal.
  apply Permutation_length, NoDup_Permutation; [by apply NoDup_filter|done|].
  intros v. rewrite list_elem_of_filter. split.
  - intros [Hv _]. destruct (Hout v Hv) as [[Hvi|Hvs%list_elem_of_singleton]
      %elem_of_app Hne]; done.
  - intros Hv. apply Hin.
    + apply elem_of_app. by left.
    + intros ->. apply (Hs s Hv). by apply list_elem_of_singleton.
Qed.

(** C1: on a prepared square grid without barriers, with a start node and
    a different end node, a run that is not stopped ends at the [return]
    that follows the reconstruction of the path.  The nodes the
    reconstruction walks through form a chain of adjacent cells from the
    end node back to the start node, without repetition, and their number,
    which is the number of steps of the path, is the Manhattan distance
    between the [(row, column)] of the start node and of the end node.
    The grid the run leaves shows this path: the nodes of the chain other
    than the start node are path nodes, the start node has the start colour
    and the end node the end colour, and a node that is a path node
    without being on the chain was one before the run; when the grid had
    no path node before the run, the number of its path nodes after the
    run, plus one, is the Manhattan distance. *)
Theorem found_path_has_manhattan_length {PQ : PriorityQueue} (g0 : Grid)
    (s e : ref) (s_node e_node : Node) (events : list (list Event)) :
  prepared g0 = true →
  no_barrier g0 = true →
  get_node g0 s = Some s_node →
  get_node g0 e = Some e_node →
  s ≠ e →
  never_stopped events = true →
  ∃ fuel0 st path,
    (∀ fuel, (fuel0 ≤ fuel)%nat →
       generate_path fuel g0 (Some s) (Some e) events = Found st path) ∧
    Z.of_nat (length path) =
      manhattan_distance (get_pos s_node) (get_pos e_node) ∧
    adjacent_chain e path ∧
    last path = Some s ∧
    NoDup (e :: path) ∧
    (∀ v, v ∈ path → v ≠ s → color_at (grid st) v = Some states.path) ∧
    (∀ v, color_at (grid st) v = Some states.path →
          v ∈ path ∨ color_at g0 v = Some states.path) ∧
    color_at (grid st) s = Some states.start ∧
    color_at (grid st) e = Some states.end_ ∧
    (no_path_node g0 = true →
     Z.of_nat
       (length (filter (λ v, color_at (grid st) v = Some states.path)
                  (grid_refs (grid st)))) + 1 =
     manhattan_distance (get_pos s_node) (get_pos e_node)).
Proof.
  intros Hprep Hnb Hs He Hse Hev.
  destruct (shortest_run g0 s e s_node e_node events Hprep Hnb Hs He Hse Hev)
    as (fuel0 & st & path & Hrun & Hlen & Hchain & Hlast).
  destruct (found_route g0 s e events fuel0 st path Hprep
              (Hrun fuel0 (le_n _)))
    as (_ & _ & Hnd & _ & _ & Hmarks & Hsc & Hec & Honly).
  exists fuel0, st, path. split_and!; try done; [by apply Hec|].
  intros Hnp. rewrite <- Hlen.
  apply NoDup_cons in Hnd as [_ Hnd].
  rewrite <- (marks_count path s (grid_refs (grid st))
                (λ v, color_at (grid st) v = Some states.path)); try done.
  - lia.
  - apply NoDup_grid_refs.
  - intros v Hv Hvs. pose proof (Hmarks v Hv Hvs) as Hc. split; [done|].
    apply elem_of_grid_refs. by apply color_at_is_Some in Hc.
  - intros v Hv. destruct (Honly v Hv) as [Hin|Hold].
    + split; [done|]. intros ->. rewrite Hsc in Hv.
      by apply (inj Some) in Hv.
    + exfalso. unfold color_at in Hold.
      destruct (get_node g0 v) as [n|] eqn:Hn; [|done].
      pose proof (all_nodes_get _ _ _ _ Hnp Hn) as Hc. simpl in Hc.
      apply negb_true_iff, bool_decide_eq_false in Hc. simpl in Hold.
      congruence.
Qed.

Lemma found_path_has_manhattan_length_witness :
  ∃ fuel0 st path,
    (∀ fuel, (fuel0 ≤ fuel)%nat →
       generate_path (PQ := list_pq) fuel
         (prepared_grid 5 (0, 0)%nat (4, 4)%nat [])
         (Some (0, 0)%nat) (Some (4, 4)%nat) [[OtherEvent]; []]
       = Found st path) ∧
    Z.of_nat (length path) =
      manhattan_distance
        (get_pos (node_at (prepared_grid 5 (0, 0)%nat (4, 4)%nat [])
                    (0, 0)%nat))
        (get_pos (node_at (prepared_grid 5 (0, 0)%nat (4, 4)%nat [])
                    (4, 4)%nat)) ∧
    adjacent_chain (4, 4)%nat path ∧
    last path = Some (0, 0)%nat ∧
    NoDup ((4, 4)%nat :: path) ∧
    (∀ v, v ∈ path → v ≠ (0, 0)%nat →
          color_at (grid st) v = Some states.path) ∧
    (∀ v, color_at (grid st) v = Some states.path →
          v ∈ path ∨
          color_at (prepared_grid 5 (0, 0)%nat (4, 4)%nat []) v
          = Some states.path) ∧
    color_at (grid st) (0, 0)%nat = Some states.start ∧
    color_at (grid st) (4, 4)%nat = Some states.end_ ∧
    (no_path_node (prepared_grid 5 (0, 0)%nat (4, 4)%nat []) = true →
     Z.of_nat
       (length (filter (λ v, color_at (grid st) v = Some states.path)
                  (grid_refs (grid st)))) + 1 =
     manhattan_distance
       (get_pos (node_at (prepared_grid 5 (0, 0)%nat (4, 4)%nat [])
                   (0, 0)%nat))
       (get_pos (node_at (prepared_grid 5 (0, 0)%nat (4, 4)%nat [])
                   (4, 4)%nat))).
Proof.
  apply (found_path_has_manhattan_length (PQ := list_pq)
           (prepared_grid 5 (0, 0)%nat (4, 4)%nat []) (0, 0)%nat (4, 4)%nat).
  - by vm_compute.
  - by vm_compute.
  - by vm_compute.
  - by vm_compute.
  - done.
  - reflexivity.
Defined.

(** ** The path reconstructor and the end of a run *)

Lemma visit_neighbor_dims {PQ : PriorityQueue} (e cur v : ref)
    (st st' : SearchState) :
  visit_neighbor e cur st v = Ok st' → dims (grid st') = dims (grid st).
Proof.
  unfold visit_neighbor, dict_get, deref.
  destruct (g_score st !! cur); [|done]. simpl.
  destruct (g_score st !! v); [|done]. simpl.
  destruct (score_ltb _ _); [|by intros [= <-]].
  destruct (get_node (grid st) v); [|done]. simpl.
  destruct (get_node (grid st) e); [|done]. simpl.
  destruct (decide _); intros [= <-]; [done|]. simpl.
  apply dims_modify_node.
Qed.

Lemma expand_dims {PQ : PriorityQueue} (s e cur : ref)
    (st st' : SearchState) :
  expand s e cur st = Ok st' → dims (grid st') = dims (grid st).
Proof.
  unfold expand, deref. destruct (get_node (grid st) cur) as [n|]; [|done].
  simpl.
  destruct (for_each (visit_neighbor e cur) st (neighbors n)) as [st1|]
    eqn:Hrun; [|done].
  simpl. intros [= <-]. simpl.
  apply (for_each_ok_post _ (λ t, dims (grid t) = dims (grid st))
           (λ _ _, True)) in Hrun as [Hd _]; [|done|].
  - rewrite dims_modify_node.
    destruct (decide (cur ≠ s)); [by rewrite dims_modify_node|done].
  - intros t a t' _ Ht Hbody. split; [|done].
    by rewrite (visit_neighbor_dims _ _ _ _ _ Hbody).
Qed.

(** C4, as the code has it.  When [reconstruct_path] returns, the nodes it
    walked through are the chain of origin entries that starts at the end
    node and stops at the first node without an entry; every node of the
    chain is made a path node, the start node included when the chain
    reaches it, and nothing else in the grid changes.  The start node is
    put right by [generate_path]: whenever a run returns after the
    reconstruction of a path, it has called [reconstruct_path] from the end
    node on its origin map and then made the end node an end node and the
    start node a start node, in this order, so that the start node has the
    start colour, and the end node, when it is another node, the end
    colour. *)
Theorem reconstruct_path_marks_whole_chain :
  (∀ (fuel : nat) (origin : gmap ref ref) (end_node : ref) (g g' : Grid)
     (path : list ref),
     reconstruct_path fuel origin end_node g = Some (g', path) →
     walk origin end_node path ∧
     ∀ r, get_node g' r =
          if decide (r ∈ path) then make_path <$> get_node g r
          else get_node g r) ∧
  (∀ (PQ : PriorityQueue) (fuel : nat) (g : Grid) (s e : ref)
     (events : list (list Event)) (st : SearchState) (path : list ref),
     generate_path fuel g (Some s) (Some e) events = Found st path →
     ∃ fuel' g1 g2,
       reconstruct_path fuel' (origin_node st) e g1 = Some (g2, path) ∧
       grid st = modify_node make_start s (modify_node make_end e g2) ∧
       color_at (grid st) s = Some states.start ∧
       (s ≠ e → color_at (grid st) e = Some states.end_)).
Proof.
  split.
  - intros fuel origin end_node g g' path Hrec.
    apply reconstruct_path_walk in Hrec as [Hwalk ->].
    split; [done|]. intros r. apply get_node_mark_path.
  - intros PQ fuel g s e events st path Hrun.
    unfold generate_path in Hrun.
    destruct (initial_state g s e) as [st0|] eqn:Hinit; [|done].
    assert (is_Some (get_node g s) ∧ is_Some (get_node g e)) as [Hs He].
    { unfold initial_state, deref in Hinit.
      destruct (get_node g s); [|done]. destruct (get_node g e); [|done].
      split; by eexists. }
    assert (∀ t item rest t2, dims (grid t) = dims g →
              pq_get (open_set t) = Some (item, rest) →
              entry_node item ≠ e →
              expand s e (entry_node item) (take item rest t) = Ok t2 →
              dims (grid t2) = dims g) as Hstep.
    { intros t item rest t2 Ht _ _ Hexp.
      by rewrite (expand_dims _ _ _ _ _ Hexp). }
    pose proof (search_loop_inv s e (λ t, dims (grid t) = dims g) Hstep
                  fuel st0 events) as Hres.
    rewrite Hrun in Hres.
    destruct Hres as (st' & item & rest & fuel' & Hd & _ & _ & Hfin).
    { by destruct (initial_state_fields g s e st0 Hinit)
        as (_ & _ & _ & _ & _ & -> & _). }
    unfold finish in Hfin. simpl in Hfin.
    destruct (reconstruct_path fuel' (origin_node st') e (grid st'))
      as [[g2 p]|] eqn:Hrec; [|done].
    injection Hfin as <- <-. exists fuel', (grid st'), g2. simpl.
    assert (dims g2 = dims g) as Hd2.
    { apply reconstruct_path_walk in Hrec as [_ ->].
      by rewrite dims_mark_path. }
    split_and!; try done.
    + unfold make_start. apply color_at_set_eq.
      apply (same_dims_is_Some g); [|done].
      by rewrite dims_modify_node.
    + intros Hse. unfold make_start, make_end.
      rewrite color_at_set_ne by done. apply color_at_set_eq.
      by apply (same_dims_is_Some g).
Qed.

Lemma reconstruct_path_marks_whole_chain_witness :
  (walk {[ (0, 1)%nat := (0, 0)%nat ]} (0, 1)%nat [(0, 0)%nat] ∧
   ∀ r, get_node (modify_node make_path (0, 0)%nat
                    (clicked_grid 2 (0, 0)%nat (0, 1)%nat [])) r =
        if decide (r ∈ [(0, 0)%nat])
        then make_path
             <$> get_node (clicked_grid 2 (0, 0)%nat (0, 1)%nat []) r
        else get_node (clicked_grid 2 (0, 0)%nat (0, 1)%nat []) r) ∧
  ∃ st path,
    generate_path (PQ := list_pq) 20
      (prepared_grid 3 (0, 0)%nat (0, 2)%nat [])
      (Some (0, 0)%nat) (Some (0, 2)%nat) [] = Found st path ∧
    ∃ fuel' g1 g2,
      reconstruct_path fuel' (origin_node st) (0, 2)%nat g1
      = Some (g2, path) ∧
      grid st =
        modify_node make_start (0, 0)%nat
          (modify_node make_end (0, 2)%nat g2) ∧
      color_at (grid st) (0, 0)%nat = Some states.start ∧
      ((0, 0)%nat ≠ (0, 2)%nat →
       color_at (grid st) (0, 2)%nat = Some states.end_).
Proof.
  split.
  - apply (proj1 reconstruct_path_marks_whole_chain 2%nat
             {[ (0, 1)%nat := (0, 0)%nat ]} (0, 1)%nat).
    reflexivity.
  - eexists _, _. split; [by vm_compute|].
    apply (proj2 reconstruct_path_marks_whole_chain list_pq 20%nat
             (prepared_grid 3 (0, 0)%nat (0, 2)%nat [])
             (0, 0)%nat (0, 2)%nat []).
    by vm_compute.
Defined.

(** ** Two sessions that end in the same picture *)

(** C3, as the claim has it, fails in the program.  Two sessions place the
    start node at [(0, 0)], the end node at [(0, 2)] and barriers at
    [(0, 1)] and [(1, 0)], which wall in the start node; the second one runs
    a search before the barriers are placed.  When SPACE is then pressed,
    the grids handed to [generate_path] have the same size and the same
    colours, node by node, and the same start and end node.  The first run
    takes the start node from the frontier and ends with an empty frontier
    and no path; the second takes [(0, 0)], [(0, 1)] and [(0, 2)], ends
    with a path, and makes the barrier [(0, 1)] a path node: the neighbour
    lists that the earlier search left on the start node and on the barrier
    are not emptied by the preparation, and the order of the visits depends
    on them. *)
Theorem same_cells_different_visits :
  (main.start_node <$> state_after (PQ := list_pq) walls_first
   = Some (Some (0, 0)%nat) ∧
   main.end_node <$> state_after (PQ := list_pq) walls_first
   = Some (Some (0, 2)%nat) ∧
   main.start_node <$> state_after (PQ := list_pq) search_then_walls
   = Some (Some (0, 0)%nat) ∧
   main.end_node <$> state_after (PQ := list_pq) search_then_walls
   = Some (Some (0, 2)%nat)) ∧
  ((λ x, colors_of x.1) <$> search_after (PQ := list_pq) walls_first =
   (λ x, colors_of x.1) <$> search_after (PQ := list_pq) search_then_walls ∧
   (λ x, color_at x.1 (0, 1)%nat) <$> search_after (PQ := list_pq) walls_first
   = Some (Some states.barrier) ∧
   (λ x, color_at x.1 (0, 1)%nat)
   <$> search_after (PQ := list_pq) search_then_walls
   = Some (Some states.barrier)) ∧
  ((λ x, exhausted x.2) <$> search_after (PQ := list_pq) walls_first
   = Some true ∧
   (λ x, pops x.2) <$> search_after (PQ := list_pq) walls_first
   = Some (Some [(0, 0)%nat]) ∧
   (λ x, (λ g : Grid, color_at g (0, 1)%nat) <$> final_grid x.2)
   <$> search_after (PQ := list_pq) walls_first
   = Some (Some (Some states.barrier))) ∧
  ((λ x, found x.2) <$> search_after (PQ := list_pq) search_then_walls
   = Some (Some [(0, 1)%nat; (0, 0)%nat]) ∧
   (λ x, pops x.2) <$> search_after (PQ := list_pq) search_then_walls
   = Some (Some [(0, 0)%nat; (0, 1)%nat; (0, 2)%nat]) ∧
   (λ x, (λ g : Grid, color_at g (0, 1)%nat) <$> final_grid x.2)
   <$> search_after (PQ := list_pq) search_then_walls
   = Some (Some (Some states.path))).
Proof.
  split_and!; by vm_compute.
Qed.

(** ** Stopping a run *)

Lemma visit_neighbor_visited {PQ : PriorityQueue} (e cur v : ref)
    (st st' : SearchState) :
  visit_neighbor e cur st v = Ok st' → visited st' = visited st.
Proof.
  unfold visit_neighbor, dict_get, deref.
  destruct (g_score st !! cur); [|done]. simpl.
  destruct (g_score st !! v); [|done]. simpl.
  destruct (score_ltb _ _); [|by intros [= <-]].
  destruct (get_node (grid st) v); [|done]. simpl.
  destruct (get_node (grid st) e); [|done]. simpl.
  destruct (decide _); by intros [= <-].
Qed.

Lemma expand_visited {PQ : PriorityQueue} (s e cur : ref)
    (st st' : SearchState) :
  expand s e cur st = Ok st' → visited st' = visited st.
Proof.
  unfold expand, deref. destruct (get_node (grid st) cur) as [n|]; [|done].
  simpl.
  destruct (for_each (visit_neighbor e cur) st (neighbors n)) as [st1|]
    eqn:Hrun; [|done].
  simpl. intros [= <-]. simpl.
  apply (for_each_ok_post _ (λ t, visited t = visited st) (λ _ _, True))
    in Hrun as [? _]; [done|done|].
  intros t a t' _ Ht Hbody. split; [|done].
  by rewrite (visit_neighbor_visited _ _ _ _ _ Hbody).
Qed.

Lemma search_loop_visits {PQ : PriorityQueue} (s e : ref) (fuel : nat) :
  ∀ events st,
  match search_loop fuel s e events st with
  | Cancelled st' =>
      never_stopped events = false ∧
      length (visited st') =
        (length (visited st) + batches_before_stop events)%nat
  | Found st' _ | Exhausted st' =>
      never_stopped events = false →
      (length (visited st') ≤
         length (visited st) + batches_before_stop events)%nat
  | Raised _ | OutOfFuel => True
  end.
Proof.
  induction fuel as [|fuel IH]; intros events st; [done|]. simpl.
  destruct (pq_empty (open_set st)); [lia|].
  destruct (existsb stops_run (hd [] events)) eqn:Hhd.
  { destruct events as [|batch events]; [done|]. simpl in *.
    rewrite Hhd. simpl. split; [done|lia]. }
  destruct (pq_get (open_set st)) as [[item rest]|]; [|done].
  destruct (decide (entry_node item ∈ open_set_hash st)); [|done].
  assert (never_stopped events = false →
          never_stopped (tl events) = false ∧
          batches_before_stop events = S (batches_before_stop (tl events)))
    as Htl.
  { destruct events as [|batch events]; [done|]. simpl in *.
    by rewrite Hhd. }
  destruct (decide (entry_node item = e)).
  - unfold finish. destruct (reconstruct_path _ _ _ _) as [[g p]|]; [|done].
    simpl. intros [_ ->]%Htl. rewrite length_app. simpl. lia.
  - destruct (expand s e (entry_node item) (take item rest st)) as [st2|]
      eqn:Hrun; [|done].
    apply expand_visited in Hrun. simpl in Hrun.
    specialize (IH (tl events) st2). rewrite Hrun, length_app in IH.
    simpl in IH.
    destruct (search_loop fuel s e (tl events) st2); try done.
    + intros [Hn ->]%Htl. specialize (IH Hn). lia.
    + intros [Hn ->]%Htl. specialize (IH Hn). lia.
    + destruct IH as [Hn IH]. split.
      * destruct events as [|batch events]; [done|]. simpl in *.
        by rewrite Hhd.
      * destruct events as [|batch events]; [done|]. simpl in *.
        rewrite Hhd. lia.
Qed.

(** A stopping event takes effect in the iteration whose batch of events
    holds it, before a node is taken from the frontier: a cancelled run has
    taken exactly as many nodes from the frontier as batches of events
    came before the stopping one, and a run that ends otherwise, with a
    stopping event still to come, has taken at most as many. *)
Theorem stop_takes_effect_at_its_batch {PQ : PriorityQueue} (fuel : nat)
    (grid : Grid) (start_node end_node : option ref)
    (events : list (list Event)) :
  match generate_path fuel grid start_node end_node events with
  | Cancelled st =>
      never_stopped events = false ∧
      length (visited st) = batches_before_stop events
  | Found st _ | Exhausted st =>
      never_stopped events = false →
      (length (visited st) ≤ batches_before_stop events)%nat
  | Raised _ | OutOfFuel => True
  end.
Proof.
  unfold generate_path.
  destruct start_node as [s|]; [|done]. destruct end_node as [e|]; [|done].
  destruct (initial_state grid s e) as [st0|] eqn:Hinit; [|done].
  pose proof (search_loop_visits s e fuel events st0) as Hres.
  assert (visited st0 = []) as Hv.
  { unfold initial_state in Hinit.
    destruct (deref grid s); [|done]. destruct (deref grid e); [|done].
    simpl in Hinit. by injection Hinit as <-. }
  rewrite Hv in Hres. done.
Qed.

(** ** The path reconstructor on any origin map *)

(** [reconstruct_path] returns whenever the chain of origins that starts
    at the end node ends: it then walks through the whole chain and makes
    every node of it a path node, in this order. *)
Theorem reconstruct_path_follows_chain (origin : gmap ref ref)
    (end_node : ref) (path : list ref) (grid : Grid) (fuel : nat) :
  walk origin end_node path →
  (length path < fuel)%nat →
  reconstruct_path fuel origin end_node grid
  = Some (mark_path path grid, path).
Proof. intros. by apply walk_reconstruct. Qed.

Lemma reconstruct_path_follows_chain_witness :
  reconstruct_path 3 {[(0, 2)%nat := (0, 1)%nat; (0, 1)%nat := (0, 0)%nat]}
    (0, 2)%nat (clicked_grid 3 (0, 0)%nat (0, 2)%nat [])
  = Some (mark_path [(0, 1)%nat; (0, 0)%nat]
            (clicked_grid 3 (0, 0)%nat (0, 2)%nat []),
          [(0, 1)%nat; (0, 0)%nat]).
Proof.
  apply (reconstruct_path_follows_chain
           {[(0, 2)%nat := (0, 1)%nat; (0, 1)%nat := (0, 0)%nat]}
           (0, 2)%nat [(0, 1)%nat; (0, 0)%nat]).
  - by vm_compute.
  - simpl. lia.
Defined.

(** [reconstruct_path] has no guard against an origin map with a cycle:
    when every node of a set that holds the end node has its origin in the
    set, the loop never ends, whatever the fuel. *)
Theorem reconstruct_path_loops_on_cycle (origin : gmap ref ref)
    (cycle : list ref) (end_node : ref) (grid : Grid) (fuel : nat) :
  end_node ∈ cycle →
  (∀ v, v ∈ cycle → ∃ u, origin !! v = Some u ∧ u ∈ cycle) →
  reconstruct_path fuel origin end_node grid = None.
Proof.
  intros Hin Hclosed. revert end_node grid Hin.
  induction fuel as [|fuel IH]; intros v g Hv; [done|]. simpl.
  destruct (Hclosed v Hv) as (u & -> & Hu). by rewrite IH.
Qed.

Lemma reconstruct_path_loops_on_cycle_witness :
  reconstruct_path 1000
    {[(0, 0)%nat := (0, 1)%nat; (0, 1)%nat := (0, 0)%nat]}
    (0, 0)%nat (clicked_grid 3 (0, 0)%nat (0, 2)%nat []) = None.
Proof.
  apply (reconstruct_path_loops_on_cycle _ [(0, 0)%nat; (0, 1)%nat]).
  - by left.
  - intros v [->|[->|?%elem_of_nil]%elem_of_cons]%elem_of_cons; [| |done].
    + exists (0, 1)%nat. split; [done|]. right. by left.
    + exists (0, 0)%nat. split; [done|]. by left.
Defined.

(** ** The control loop *)

Lemma py_index_inv (len : nat) (i : Z) (j : nat) :
  py_index len i = Ok j → (j < len)%nat.
Proof.
  unfold py_index. cbv zeta.
  destruct (_ && _) eqn:Hb; [|done]. intros [= <-].
  apply andb_prop in Hb as [?%Z.leb_le ?%Z.ltb_lt]. lia.
Qed.

Lemma py_getitem_inv {A : Type} (l : list A) (i : Z) (a : A) :
  py_getitem l i = Ok a →
  ∃ j, py_index (length l) i = Ok j ∧ l !! j = Some a.
Proof.
  unfold py_getitem. destruct (py_index (length l) i) as [j|]; [|done].
  simpl. destruct (l !! j) as [b|] eqn:Hb; [|done]. intros [= <-].
  by exists j.
Qed.

Lemma grid_item_valid (g : Grid) (i j : Z) (r : ref) (n : Node) :
  grid_item g i j = Ok (r, n) → get_node g r = Some n.
Proof.
  unfold grid_item.
  destruct (py_index (length g) i) as [i'|] eqn:Hi; [|done]. simpl.
  destruct (py_getitem g i) as [line|] eqn:Hline; [|done]. simpl.
  destruct (py_index (length line) j) as [j'|] eqn:Hj; [|done]. simpl.
  destruct (py_getitem line j) as [m|] eqn:Hm; [|done]. simpl.
  intros [= <- <-].
  apply py_getitem_inv in Hline as (i2 & Hi2 & Hline).
  apply py_getitem_inv in Hm as (j2 & Hj2 & Hm).
  assert (i2 = i') as -> by congruence.
  assert (j2 = j') as -> by congruence.
  unfold get_node. simpl. by rewrite Hline.
Qed.

Lemma get_node_fmap (f : Node → Node) (g : Grid) (r : ref) :
  get_node ((λ line : list Node, f <$> line) <$> g) r = f <$> get_node g r.
Proof.
  unfold get_node. rewrite list_lookup_fmap.
  destruct (g !! r.1) as [line|]; [|done]. simpl.
  by rewrite list_lookup_fmap.
Qed.

Lemma all_nodes_intro (p : Node → bool) (g : Grid) :
  (∀ r n, get_node g r = Some n → p n = true) → all_nodes p g = true.
Proof.
  intros Hall. unfold all_nodes. apply forallb_forall.
  intros line [i Hi]%list_elem_of_In%list_elem_of_lookup.
  apply forallb_forall. intros n [j Hj]%list_elem_of_In%list_elem_of_lookup.
  apply (Hall (i, j)). unfold get_node. simpl. by rewrite Hi.
Qed.

Lemma all_nodes_modify (p : Node → bool) (f : Node → Node) (r : ref)
    (g : Grid) :
  (∀ n, p n = true → p (f n) = true) →
  all_nodes p g = true → all_nodes p (modify_node f r g) = true.
Proof.
  intros Hf Hall. apply all_nodes_intro. intros v n.
  rewrite get_node_modify. destruct (decide (r = v)) as [<-|].
  - destruct (get_node g r) as [n0|] eqn:Hn0; [|done]. intros [= <-].
    apply Hf. by apply (all_nodes_get _ _ _ _ Hall Hn0).
  - by apply all_nodes_get.
Qed.

Lemma consistent_modify (f : Node → Node) (r : ref) (g : Grid) :
  (∀ n, row (f n) = row n ∧ column (f n) = column n ∧
        total_rows (f n) = total_rows n) →
  consistent g = true → consistent (modify_node f r g) = true.
Proof.
  intros Hf Hc.
  pose proof (dims_length _ _ (dims_modify_node f r g)) as Hlen.
  apply consistent_intro.
  - intros i len. rewrite dims_modify_node, Hlen. by apply consistent_square.
  - intros v n. rewrite get_node_modify, Hlen.
    destruct (decide (r = v)) as [<-|]; [|by apply consistent_node].
    destruct (get_node g r) as [n0|] eqn:Hn0; [|done]. intros [= <-].
    destruct (Hf n0) as (-> & -> & ->). by apply consistent_node.
Qed.

Lemma consistent_reset_all (g : Grid) :
  consistent g = true →
  consistent ((λ line : list Node, reset <$> line) <$> g) = true.
Proof.
  intros Hc.
  assert (dims ((λ line : list Node, reset <$> line) <$> g) = dims g) as Hd.
  { unfold dims. rewrite <- list_fmap_compose. apply list_fmap_ext.
    intros i line _. simpl. by rewrite length_fmap. }
  pose proof (dims_length _ _ Hd) as Hlen.
  apply consistent_intro.
  - intros i len. rewrite Hd, Hlen. by apply consistent_square.
  - intros v n. rewrite get_node_fmap, Hlen.
    destruct (get_node g v) as [n0|] eqn:Hn0; [|done]. intros [= <-].
    by apply (consistent_node g v n0).
Qed.

Lemma left_click_cases (N W : Z) (m m' : main.State) (coords : Z * Z) :
  main.left_click N W m coords = Ok m' →
  ∃ r, is_Some (get_node (main.grid m) r) ∧
    main.run m' = main.run m ∧
    ((main.start_node m = None ∧ main.end_node m ≠ Some r ∧
      main.grid m' = modify_node make_start r (main.grid m) ∧
      main.start_node m' = Some r ∧ main.end_node m' = main.end_node m) ∨
     (main.start_node m ≠ Some r ∧ main.end_node m = None ∧
      main.grid m' = modify_node make_end r (main.grid m) ∧
      main.start_node m' = main.start_node m ∧ main.end_node m' = Some r) ∨
     (main.start_node m ≠ Some r ∧ main.end_node m ≠ Some r ∧
      main.grid m' = modify_node make_barrier r (main.grid m) ∧
      main.start_node m' = main.start_node m ∧
      main.end_node m' = main.end_node m) ∨
     m' = m).
Proof.
  unfold main.left_click.
  destruct (get_clicked_position coords N W) as [xy|] eqn:Hxy; [|done].
  simpl. destruct (grid_item (main.grid m) xy.1 xy.2) as [[r n]|] eqn:Hrn;
    [|done].
  simpl. apply grid_item_valid in Hrn. intros Hm. exists r.
  split; [by eexists|]. unfold main.is_node, main.not_set in Hm.
  destruct (main.start_node m) as [s|] eqn:Hs,
           (main.end_node m) as [e|] eqn:He; simpl in Hm;
    repeat case_bool_decide; simpl in Hm; injection Hm as <-; simpl;
    split; try done; rewrite ?Hs, ?He; naive_solver.
Qed.

Lemma right_click_cases (N W : Z) (m m' : main.State) (coords : Z * Z) :
  main.right_click N W m coords = Ok m' →
  ∃ r, is_Some (get_node (main.grid m) r) ∧
    main.run m' = main.run m ∧
    main.grid m' = modify_node reset r (main.grid m) ∧
    main.start_node m' =
      (if decide (main.start_node m = Some r) then None
       else main.start_node m) ∧
    main.end_node m' =
      (if decide (main.start_node m = Some r) then main.end_node m
       else if decide (main.end_node m = Some r) then None
       else main.end_node m).
Proof.
  unfold main.right_click.
  destruct (get_clicked_position coords N W) as [xy|] eqn:Hxy; [|done].
  simpl. destruct (grid_item (main.grid m) xy.1 xy.2) as [[r n]|] eqn:Hrn;
    [|done].
  simpl. apply grid_item_valid in Hrn. intros Hm. exists r.
  split; [by eexists|]. unfold main.is_node in Hm.
  repeat case_bool_decide; injection Hm as <-; simpl;
    repeat case_decide; done.
Qed.

Lemma color_at_modify (f : Node → Node) (r r' : ref) (g : Grid) :
  color_at (modify_node f r g) r' =
  if decide (r = r') then (λ n, color (f n)) <$> get_node g r'
  else color_at g r'.
Proof.
  unfold color_at. rewrite get_node_modify.
  destruct (decide (r = r')); [|done]. by destruct (get_node g r').
Qed.

Lemma roles_okb_ok (m : main.State) :
  roles_okb m = true → main.roles_ok m.
Proof.
  unfold roles_okb. intros [[Hall Hs]%andb_prop He]%andb_prop.
  rewrite forallb_forall in Hall.
  assert (∀ r, get_node (main.grid m) r = None →
               main.start_node m ≠ Some r ∧ main.end_node m ≠ Some r ∧
               color_at (main.grid m) r = None) as Hout.
  { intros r Hr. split_and!.
    - intros Heq. rewrite Heq in Hs. apply bool_decide_eq_true in Hs.
      rewrite Hr in Hs. by destruct Hs.
    - intros Heq. rewrite Heq in He. apply bool_decide_eq_true in He.
      rewrite Hr in He. by destruct He.
    - unfold color_at. by rewrite Hr. }
  split; intros r.
  - destruct (get_node (main.grid m) r) as [n|] eqn:Hn.
    + assert (r ∈ grid_refs (main.grid m)) as Hr.
      { apply elem_of_grid_refs. by eexists. }
      apply list_elem_of_In, Hall, bool_decide_eq_true in Hr. apply Hr.
    + destruct (Hout r Hn) as (? & ? & ->). naive_solver.
  - destruct (get_node (main.grid m) r) as [n|] eqn:Hn.
    + assert (r ∈ grid_refs (main.grid m)) as Hr.
      { apply elem_of_grid_refs. by eexists. }
      apply list_elem_of_In, Hall, bool_decide_eq_true in Hr. apply Hr.
    + destruct (Hout r Hn) as (? & ? & ->). naive_solver.
Qed.

Lemma edit_roles {PQ : PriorityQueue} (fuel : nat) (N W : Z)
    (m m' : main.State) (i : main.Input) (run_events : list (list Event)) :
  main.roles_ok m →
  main.action_of i ≠ main.Space →
  main.handle_event fuel N W m i run_events = main.Next m' →
  main.roles_ok m'.
Proof.
  intros [Hstart Hend] Hact. unfold main.handle_event.
  destruct (main.action_of i); try done.
  - intros [= <-]. done.
  - destruct (main.left_click N W m (main.mouse_pos i)) as [m1|] eqn:Hclick;
      [|done].
    simpl. intros [= <-].
    apply left_click_cases in Hclick
      as (r & [n Hn] & _ & [(Hs & He & Hg & Hs' & He')|
                            [(Hs & He & Hg & Hs' & He')|
                             [(Hs & He & Hg & Hs' & He')| ->]]]);
      [| | |done].
    all: split; intros r'; rewrite Hg, Hs' || rewrite Hg, He';
      rewrite color_at_modify; destruct (decide (r = r')) as [<-|Hne];
      rewrite ?Hn; simpl; rewrite <- ?Hstart, <- ?Hend, ?Hs, ?He;
      try done; naive_solver.
  - destruct (main.right_click N W m (main.mouse_pos i)) as [m1|] eqn:Hclick;
      [|done].
    simpl. intros [= <-].
    apply right_click_cases in Hclick as (r & [n Hn] & _ & Hg & Hs' & He').
    assert (main.start_node m = Some r → main.end_node m ≠ Some r) as Hdiff.
    { intros H1%Hstart H2%Hend. rewrite H1 in H2. by vm_compute in H2. }
    split; intros r'; rewrite Hg, Hs' || rewrite Hg, He';
      rewrite color_at_modify; destruct (decide (r = r')) as [<-|Hne];
      rewrite ?Hn; simpl; rewrite <- ?Hstart, <- ?Hend;
      repeat case_decide; try done; naive_solver.
  - intros [= <-]. split; intros r'; simpl; unfold color_at;
      rewrite get_node_fmap; by destruct (get_node (main.grid m) r').
  - by intros [= <-].
Qed.

(** A mouse click or a key other than SPACE keeps the start node and the
    end node in step with the colours: before and after, the variable
    [start_node] holds a node exactly when this node has the start colour,
    and no other node has it; likewise for [end_node]. *)
Theorem edit_keeps_roles {PQ : PriorityQueue} (fuel : nat) (N W : Z)
    (m m' : main.State) (i : main.Input) (run_events : list (list Event)) :
  main.roles_ok m →
  main.action_of i ≠ main.Space →
  main.handle_event fuel N W m i run_events = main.Next m' →
  main.roles_ok m'.
Proof. intros. by eapply edit_roles. Qed.

Lemma edit_keeps_roles_witness :
  main.roles_ok
    {| main.grid :=
         modify_node reset (0, 0)%nat
           (clicked_grid 3 (0, 0)%nat (2, 2)%nat []);
       main.start_node := None;
       main.end_node := Some (2, 2)%nat; main.run := true |}.
Proof.
  apply (edit_keeps_roles (PQ := list_pq) 0 3 600
           {| main.grid := clicked_grid 3 (0, 0)%nat (2, 2)%nat [];
              main.start_node := Some (0, 0)%nat;
              main.end_node := Some (2, 2)%nat; main.run := true |} _
           (main.mkInput OtherEvent false true (10, 10)) []).
  - apply roles_okb_ok. by vm_compute.
  - by vm_compute.
  - by vm_compute.
Defined.

Lemma wired_modify (f : Node → Node) (r : ref) (g : Grid) :
  (∀ n, row (f n) = row n ∧ column (f n) = column n ∧
        ∀ v, v ∈ neighbors (f n) → v ∈ neighbors n) →
  wired g = true → wired (modify_node f r g) = true.
Proof.
  intros Hf Hw. apply wired_intro. intros v n.
  assert (∀ w, is_Some (get_node g w) →
               is_Some (get_node (modify_node f r g) w)) as Hvalid.
  { intros w. apply same_dims_is_Some. apply dims_modify_node. }
  rewrite get_node_modify. destruct (decide (r = v)) as [<-|].
  - destruct (get_node g r) as [n0|] eqn:Hn0; [|done]. intros [= <-].
    destruct (Hf n0) as (-> & -> & Hnb).
    destruct (wired_node _ _ _ Hw Hn0) as [[= Hrow Hcol] Hnb0].
    split_and!; try done. intros w Hin%Hnb%Hnb0. by apply Hvalid.
  - intros Hn. destruct (wired_node _ _ _ Hw Hn) as [[= Hrow Hcol] Hnb0].
    split_and!; try done. intros w Hin%Hnb0. by apply Hvalid.
Qed.

Lemma edit_grid {PQ : PriorityQueue} (fuel : nat) (N W : Z)
    (m m' : main.State) (i : main.Input) (run_events : list (list Event)) :
  consistent (main.grid m) = true →
  main.action_of i ≠ main.Space →
  main.handle_event fuel N W m i run_events = main.Next m' →
  consistent (main.grid m') = true ∧
  length (main.grid m') = length (main.grid m) ∧
  (main.no_neighbors (main.grid m) = true →
   main.no_neighbors (main.grid m') = true) ∧
  (wired (main.grid m) = true → wired (main.grid m') = true).
Proof.
  intros Hc Hact. unfold main.handle_event.
  assert (∀ f r,
    (∀ n, row (f n) = row n ∧ column (f n) = column n ∧
          total_rows (f n) = total_rows n) →
    (∀ n v, v ∈ neighbors (f n) → v ∈ neighbors n) →
    consistent (modify_node f r (main.grid m)) = true ∧
    length (modify_node f r (main.grid m)) = length (main.grid m) ∧
    (main.no_neighbors (main.grid m) = true →
     main.no_neighbors (modify_node f r (main.grid m)) = true) ∧
    (wired (main.grid m) = true →
     wired (modify_node f r (main.grid m)) = true)) as Hmod.
  { intros f r Hf Hnb. split_and!.
    - by apply consistent_modify.
    - apply dims_length, dims_modify_node.
    - unfold main.no_neighbors. apply all_nodes_modify.
      intros n Hn%bool_decide_eq_true. apply bool_decide_eq_true.
      destruct (neighbors (f n)) as [|v l] eqn:Hl; [done|].
      specialize (Hnb n v). rewrite Hl, Hn in Hnb.
      exfalso. eapply not_elem_of_nil, Hnb. by left.
    - intros Hw. apply wired_modify; [|done]. intros n.
      destruct (Hf n) as (? & ? & ?). split_and!; try done. apply Hnb. }
  destruct (main.action_of i); try done.
  - by intros [= <-].
  - destruct (main.left_click N W m (main.mouse_pos i)) as [m1|] eqn:Hclick;
      [|done].
    simpl. intros [= <-].
    apply left_click_cases in Hclick
      as (r & _ & _ & [(_ & _ & -> & _)|[(_ & _ & -> & _)|
                       [(_ & _ & -> & _)| ->]]]); [| | |done].
    all: apply Hmod; [done|done].
  - destruct (main.right_click N W m (main.mouse_pos i)) as [m1|] eqn:Hclick;
      [|done].
    simpl. intros [= <-].
    apply right_click_cases in Hclick as (r & _ & _ & -> & _).
    apply Hmod; [done|]. by intros n v ?%elem_of_nil.
  - intros [= <-]. simpl. split_and!.
    + by apply consistent_reset_all.
    + by rewrite length_fmap.
    + intros _. apply all_nodes_intro. intros r n. rewrite get_node_fmap.
      destruct (get_node (main.grid m) r); [|done]. by intros [= <-].
    + intros Hw. apply wired_intro. intros r n. rewrite get_node_fmap.
      destruct (get_node (main.grid m) r) as [n0|] eqn:Hn0; [|done].
      intros [= <-]. simpl.
      destruct (wired_node _ _ _ Hw Hn0) as [[= Hrow Hcol] _].
      split_and!; try done. by intros v ?%elem_of_nil.
  - by intros [= <-].
Qed.

(** A mouse click or a key other than SPACE keeps the grid a square of
    nodes that know their place, and gives no node a neighbour: the
    neighbour lists are filled by the preparation that SPACE starts, and by
    nothing else; the neighbours that are in the lists stay nodes of the
    grid. *)
Theorem edit_keeps_grid {PQ : PriorityQueue} (fuel : nat) (N W : Z)
    (m m' : main.State) (i : main.Input) (run_events : list (list Event)) :
  consistent (main.grid m) = true →
  main.action_of i ≠ main.Space →
  main.handle_event fuel N W m i run_events = main.Next m' →
  consistent (main.grid m') = true ∧
  length (main.grid m') = length (main.grid m) ∧
  (main.no_neighbors (main.grid m) = true →
   main.no_neighbors (main.grid m') = true) ∧
  (wired (main.grid m) = true → wired (main.grid m') = true).
Proof. intros. by eapply edit_grid. Qed.

Lemma edit_keeps_grid_witness :
  consistent
    (modify_node make_barrier (1, 1)%nat
       (clicked_grid 3 (0, 0)%nat (2, 2)%nat [])) = true ∧
  length (modify_node make_barrier (1, 1)%nat
            (clicked_grid 3 (0, 0)%nat (2, 2)%nat [])) =
  length (clicked_grid 3 (0, 0)%nat (2, 2)%nat []) ∧
  (main.no_neighbors (clicked_grid 3 (0, 0)%nat (2, 2)%nat []) = true →
   main.no_neighbors
     (modify_node make_barrier (1, 1)%nat
        (clicked_grid 3 (0, 0)%nat (2, 2)%nat [])) = true) ∧
  (wired (clicked_grid 3 (0, 0)%nat (2, 2)%nat []) = true →
   wired
     (modify_node make_barrier (1, 1)%nat
        (clicked_grid 3 (0, 0)%nat (2, 2)%nat [])) = true).
Proof.
  apply (edit_keeps_grid (PQ := list_pq) 0 3 600
           {| main.grid := clicked_grid 3 (0, 0)%nat (2, 2)%nat [];
              main.start_node := Some (0, 0)%nat;
              main.end_node := Some (2, 2)%nat; main.run := true |}
           {| main.grid :=
                modify_node make_barrier (1, 1)%nat
                  (clicked_grid 3 (0, 0)%nat (2, 2)%nat []);
              main.start_node := Some (0, 0)%nat;
              main.end_node := Some (2, 2)%nat; main.run := true |}
           (main.mkInput (KEYDOWN K_SPACE) true false (250, 399)) []).
  - by vm_compute.
  - by vm_compute.
  - by vm_compute.
Defined.

Lemma clicked_node_in_window (N W : Z) (g : Grid) (coords : Z * Z) :
  0 < N → 0 < W → W `mod` N = 0 →
  consistent g = true → length g = Z.to_nat N →
  0 ≤ coords.1 < W → 0 ≤ coords.2 < W →
  ∃ xy rn, get_clicked_position coords N W = Ok xy ∧
           grid_item g xy.1 xy.2 = Ok rn.
Proof.
  intros HN HW Hmod Hc Hlen Hx Hy. destruct coords as [px py]. simpl in *.
  assert (W = N * (W `div` N)) as HWN.
  { pose proof (Z.div_mod W N ltac:(lia)). lia. }
  assert (0 < W `div` N) as Hw by nia.
  unfold get_clicked_position.
  destruct (Z.eqb_spec N 0) as [|_]; [lia|].
  destruct (Z.eqb_spec (W `div` N) 0) as [|_]; [lia|].
  pose proof (Z.div_mod px (W `div` N) ltac:(lia)).
  pose proof (Z.mod_pos_bound px (W `div` N) Hw).
  pose proof (Z.div_mod py (W `div` N) ltac:(lia)).
  pose proof (Z.mod_pos_bound py (W `div` N) Hw).
  assert (0 ≤ px `div` (W `div` N) < N) as Hrow by nia.
  assert (0 ≤ py `div` (W `div` N) < N) as Hcol by nia.
  set (r := (Z.to_nat (px `div` (W `div` N)),
             Z.to_nat (py `div` (W `div` N)))).
  assert (is_Some (get_node g r)) as [n Hn].
  { apply (consistent_is_Some g r Hc). simpl. lia. }
  eexists _, (r, n). split; [done|]. simpl.
  rewrite <- (grid_item_ok g r n Hn). simpl. f_equal; lia.
Qed.

Lemma edit_in_window {PQ : PriorityQueue} (fuel : nat)
    (N W : Z) (m : main.State) (i : main.Input)
    (run_events : list (list Event)) :
  0 < N → 0 < W → W `mod` N = 0 →
  consistent (main.grid m) = true →
  length (main.grid m) = Z.to_nat N →
  main.in_window W i →
  main.action_of i ≠ main.Space →
  ∃ m', main.handle_event fuel N W m i run_events = main.Next m'.
Proof.
  intros HN HW Hmod Hc Hlen [Hx Hy] Hact. unfold main.handle_event.
  destruct (clicked_node_in_window N W (main.grid m) (main.mouse_pos i)
              HN HW Hmod Hc Hlen Hx Hy) as (xy & rn & Hxy & Hrn).
  destruct (main.action_of i); try done; try by eexists.
  - unfold main.left_click. rewrite Hxy. simpl. rewrite Hrn. simpl.
    repeat (destruct (_ && _); [by eexists|]). by eexists.
  - unfold main.right_click. rewrite Hxy. simpl. rewrite Hrn. simpl.
    repeat (destruct (main.is_node _ _); [by eexists|]). by eexists.
Qed.

(** With a window width that is a multiple of the number of rows, as the
    600 pixels for the 25 rows of the program, no mouse click over the
    window and no key other than SPACE makes [main] raise an exception. *)
Theorem edits_in_window_do_not_raise {PQ : PriorityQueue} (fuel : nat)
    (N W : Z) (m : main.State) (i : main.Input)
    (run_events : list (list Event)) :
  0 < N → 0 < W → W `mod` N = 0 →
  consistent (main.grid m) = true →
  length (main.grid m) = Z.to_nat N →
  main.in_window W i →
  main.action_of i ≠ main.Space →
  ∃ m', main.handle_event fuel N W m i run_events = main.Next m'.
Proof. intros. by eapply edit_in_window. Qed.

Lemma edits_in_window_do_not_raise_witness :
  ∃ m', main.handle_event (PQ := list_pq) 0 NUM_ROWS SCREEN_WIDTH
          {| main.grid := clicked_grid NUM_ROWS (0, 0)%nat (2, 2)%nat [];
             main.start_node := Some (0, 0)%nat;
             main.end_node := Some (2, 2)%nat; main.run := true |}
          (main.mkInput OtherEvent true false (599, 599)) []
        = main.Next m'.
Proof.
  apply (edits_in_window_do_not_raise (PQ := list_pq)).
  - by vm_compute.
  - by vm_compute.
  - by vm_compute.
  - by vm_compute.
  - by vm_compute.
  - by vm_compute.
  - by vm_compute.
Defined.

Lemma py_index_out (len : nat) (i : Z) :
  Z.of_nat len ≤ i → py_index len i = Raise IndexError.
Proof.
  intros Hi. unfold py_index. cbv zeta.
  assert ((0 <=? i) = true) as H1 by (apply Z.leb_le; lia).
  assert ((i <? Z.of_nat len) = false) as H2 by (apply Z.ltb_ge; lia).
  rewrite H1. simpl. by rewrite H1, H2.
Qed.

(** With a window width that is not a multiple of the number of rows, the
    strip of the window right of the last column of nodes belongs to no
    node: a click there makes [main] raise [IndexError]. *)
Theorem click_beside_grid_raises {PQ : PriorityQueue} (fuel : nat)
    (N W : Z) (m : main.State) (i : main.Input)
    (run_events : list (list Event)) :
  0 < N ≤ W →
  length (main.grid m) = Z.to_nat N →
  N * (W `div` N) ≤ (main.mouse_pos i).1 →
  main.event i ≠ QUIT →
  main.left_pressed i = true ∨ main.right_pressed i = true →
  main.handle_event fuel N W m i run_events = main.Raises IndexError.
Proof.
  intros HN Hlen Hx Hev Hpressed.
  assert (0 < W `div` N) as Hw by (apply Z.div_str_pos; lia).
  assert (∃ xy, get_clicked_position (main.mouse_pos i) N W = Ok xy ∧
                grid_item (main.grid m) xy.1 xy.2 = Raise IndexError)
    as (xy & Hxy & Hrn).
  { unfold get_clicked_position. destruct (main.mouse_pos i) as [px py].
    simpl in Hx.
    destruct (Z.eqb_spec N 0) as [|_]; [lia|].
    destruct (Z.eqb_spec (W `div` N) 0) as [|_]; [lia|].
    eexists. split; [done|]. simpl.
    pose proof (Z.div_mod px (W `div` N) ltac:(lia)).
    pose proof (Z.mod_pos_bound px (W `div` N) Hw).
    assert (N ≤ px `div` (W `div` N)) as Hrow by nia.
    unfold grid_item. rewrite py_index_out; [done|lia]. }
  unfold main.handle_event, main.action_of.
  destruct (main.event i) eqn:Hevent; [done| |].
  all: destruct (main.left_pressed i) eqn:Hl;
    [unfold main.left_click; by rewrite Hxy; simpl; rewrite Hrn|].
  all: destruct (main.right_pressed i) eqn:Hr;
    [unfold main.right_click; by rewrite Hxy; simpl; rewrite Hrn|].
  all: by destruct Hpressed.
Qed.

Lemma click_beside_grid_raises_witness :
  main.handle_event (PQ := list_pq) 0 NUM_ROWS 610
    {| main.grid := clicked_grid NUM_ROWS (0, 0)%nat (2, 2)%nat [];
       main.start_node := Some (0, 0)%nat;
       main.end_node := Some (2, 2)%nat; main.run := true |}
    (main.mkInput OtherEvent true false (604, 30)) []
  = main.Raises IndexError.
Proof.
  apply (click_beside_grid_raises (PQ := list_pq)).
  - by vm_compute.
  - by vm_compute.
  - by vm_compute.
  - done.
  - by left.
Defined.

Lemma cleared_color_role (c role : Color) :
  role ≠ colors.white → cleared_color c = role → c = role.
Proof.
  intros Hrole. unfold cleared_color.
  destruct (_ || _); [done|]. by intros <-.
Qed.

Lemma same_shape_wired (g0 g : Grid) :
  same_shape g0 g → dims g = dims g0 → wired g0 = true → wired g = true.
Proof.
  intros Hsh Hd Hw. apply wired_intro. intros r n Hn.
  pose proof (Hsh r) as Hr. rewrite Hn in Hr.
  destruct (get_node g0 r) as [n0|] eqn:Hn0; [|done].
  simpl in Hr. injection Hr as Hrow Hcol _ _ _ _ Hnb.
  destruct (wired_node _ _ _ Hw Hn0) as [[= Hrow0 Hcol0] Hnb0].
  split_and!; try congruence.
  intros v Hv. apply (same_dims_is_Some g0 g v Hd). apply Hnb0.
  by rewrite <- Hnb.
Qed.

Lemma prepared_node_of_color (g : Grid) (r : ref) (n : Node) :
  color (prepared_node_of g r n) = cleared_color (color n).
Proof.
  unfold prepared_node_of, cleared_color, kept, is_barrier, is_end, is_start.
  by destruct (color_eqb (color n) states.barrier
               || color_eqb (color n) states.end_
               || color_eqb (color n) states.start).
Qed.

(** The preparation keeps a grid wired. *)
Lemma preparation_wired (g : Grid) :
  consistent g = true → wired g = true →
  ∃ g', reset_for_new_run g = Ok g' ∧
        length g' = length g ∧ consistent g' = true ∧ wired g' = true ∧
        ∀ r, color_at g' r = cleared_color <$> color_at g r.
Proof.
  intros Hc Hw.
  destruct (reset_for_new_run_result g Hc) as (g' & Hrun & Hd & Hp & Hnodes).
  exists g'. split_and!; try done.
  - by apply dims_length.
  - by apply (preparation_consistent g).
  - apply wired_intro. intros r n'. rewrite Hnodes.
    destruct (get_node g r) as [n|] eqn:Hn; [|done]. intros [= <-].
    destruct (wired_node _ _ _ Hw Hn) as [[= Hrow Hcol] Hnb].
    split_and!.
    + unfold prepared_node_of. by destruct (kept n).
    + unfold prepared_node_of. by destruct (kept n).
    + intros v. unfold prepared_node_of. simpl. rewrite elem_of_app.
      intros [Hv|Hv]; apply (same_dims_is_Some g g' v Hd).
      * destruct (kept n); [by apply Hnb|by apply elem_of_nil in Hv].
      * apply (elem_of_fresh_neighbors g r v Hc) in Hv as [_ Hv].
        by apply passable_is_Some.
  - intros r. unfold color_at. rewrite Hnodes.
    destruct (get_node g r) as [n|]; [|done]. simpl. f_equal.
    exact (prepared_node_of_color g r n).
Qed.

Lemma space_run {PQ : PriorityQueue} (N W : Z) (m : main.State)
    (s e : ref) (i : main.Input) (run_events : list (list Event)) :
  consistent (main.grid m) = true →
  wired (main.grid m) = true →
  main.roles_ok m →
  main.start_node m = Some s →
  main.end_node m = Some e →
  main.action_of i = main.Space →
  ∃ n m',
    (∀ fuel, (n ≤ fuel)%nat →
       main.handle_event fuel N W m i run_events = main.Next m') ∧
    main.start_node m' = Some s ∧ main.end_node m' = Some e ∧
    main.run m' = main.run m ∧
    main.roles_ok m' ∧
    consistent (main.grid m') = true ∧
    wired (main.grid m') = true ∧
    length (main.grid m') = length (main.grid m).
Proof.
  intros Hc Hw [Hstart Hend] Hs He Hact.
  destruct (preparation_wired (main.grid m) Hc Hw)
    as (g' & Hprun & Hlen & Hc' & Hw' & Hcol).
  assert (color_at g' s = Some states.start) as Hcs.
  { rewrite Hcol. apply Hstart in Hs. by rewrite Hs. }
  assert (color_at g' e = Some states.end_) as Hce.
  { rewrite Hcol. apply Hend in He. by rewrite He. }
  assert (s ≠ e) as Hse.
  { intros ->. rewrite Hcs in Hce. by vm_compute in Hce. }
  destruct (run_returns g' s e run_events Hw'
              (color_at_is_Some _ _ _ Hcs) (color_at_is_Some _ _ _ Hce))
    as (n & r & Hret & Hall).
  destruct (final_state r) as [st|] eqn:Hst; [|by destruct r].
  pose proof (run_colors g' s e run_events n st Hw' Hse) as Hframe.
  rewrite Hall in Hframe by lia.
  destruct (Hframe Hst) as (Hsh & Hd & Hcolors & Hsc & Hec).
  exists n, {| main.grid := grid st; main.start_node := Some s;
               main.end_node := Some e; main.run := main.run m |}.
  split_and!; try done.
  - intros fuel Hfuel. unfold main.handle_event. rewrite Hact.
    unfold main.press_space, on_space. rewrite Hprun, Hs, He.
    unfold mbind, res_bind. rewrite Hall by done.
    by destruct r; simpl in *; try done; injection Hst as ->.
  - assert (color_at (grid st) s = Some states.start) as Hs'.
    { destruct Hsc as [-> | ->]; done. }
    assert (color_at (grid st) e = Some states.end_) as He'.
    { destruct Hec as [-> | ->]; done. }
    split; intros r'; simpl.
    + split; [by intros [= <-]|]. intros Hr'.
      destruct (decide (r' = s)) as [->|Hrs]; [done|].
      destruct (decide (r' = e)) as [->|Hre].
      { rewrite He' in Hr'. by vm_compute in Hr'. }
      destruct (Hcolors r' Hrs Hre) as [Heq|[Heq|[Heq|Heq]]];
        rewrite Heq in Hr'; try by vm_compute in Hr'.
      rewrite Hcol in Hr'.
      destruct (color_at (main.grid m) r') as [c|] eqn:Hc0; [|done].
      simpl in Hr'. injection Hr' as Hr'.
      apply cleared_color_role in Hr'; [|done]. subst c.
      apply Hstart in Hc0. congruence.
    + split; [by intros [= <-]|]. intros Hr'.
      destruct (decide (r' = e)) as [->|Hre]; [done|].
      destruct (decide (r' = s)) as [->|Hrs].
      { rewrite Hs' in Hr'. by vm_compute in Hr'. }
      destruct (Hcolors r' Hrs Hre) as [Heq|[Heq|[Heq|Heq]]];
        rewrite Heq in Hr'; try by vm_compute in Hr'.
      rewrite Hcol in Hr'.
      destruct (color_at (main.grid m) r') as [c|] eqn:Hc0; [|done].
      simpl in Hr'. injection Hr' as Hr'.
      apply cleared_color_role in Hr'; [|done]. subst c.
      apply Hend in Hc0. congruence.
  - simpl. by apply (same_shape_consistent g').
  - simpl. by apply (same_shape_wired g').
  - simpl. rewrite <- Hlen. by apply dims_length.
Qed.

(** Every run of a session returns, the first one and the later ones.  In
    a state of [main] with a consistent, wired grid, in which the start
    node and the end node are the nodes that have the start and the end
    colour, SPACE prepares the grid and calls [generate_path]; this call
    raises no exception and ends, whatever events arrive in the meantime,
    also when neighbour lists hold nodes that have become barriers since
    an earlier run.  Afterwards [main] still has its start node and its end
    node, which still are the only nodes with their colours, and its grid
    is still consistent, wired and of the same size. *)
Theorem space_run_returns {PQ : PriorityQueue} (N W : Z) (m : main.State)
    (s e : ref) (i : main.Input) (run_events : list (list Event)) :
  consistent (main.grid m) = true →
  wired (main.grid m) = true →
  main.roles_ok m →
  main.start_node m = Some s →
  main.end_node m = Some e →
  main.action_of i = main.Space →
  ∃ n m',
    (∀ fuel, (n ≤ fuel)%nat →
       main.handle_event fuel N W m i run_events = main.Next m') ∧
    main.start_node m' = Some s ∧ main.end_node m' = Some e ∧
    main.run m' = main.run m ∧
    main.roles_ok m' ∧
    consistent (main.grid m') = true ∧
    wired (main.grid m') = true ∧
    length (main.grid m') = length (main.grid m).
Proof. intros. by apply space_run. Qed.

Lemma space_run_returns_witness :
  ∃ n m',
    (∀ fuel, (n ≤ fuel)%nat →
       main.handle_event (PQ := list_pq) fuel 3 600
         {| main.grid :=
              modify_node make_barrier (0, 1)%nat
                (prepared_grid 3 (0, 0)%nat (2, 2)%nat [(1, 1)%nat]);
            main.start_node := Some (0, 0)%nat;
            main.end_node := Some (2, 2)%nat; main.run := true |}
         (main.mkInput (KEYDOWN K_SPACE) false false (0, 0))
         [[OtherEvent]; [KEYDOWN K_r]] = main.Next m') ∧
    main.start_node m' = Some (0, 0)%nat ∧
    main.end_node m' = Some (2, 2)%nat ∧
    main.run m' = true ∧
    main.roles_ok m' ∧
    consistent (main.grid m') = true ∧
    wired (main.grid m') = true ∧
    length (main.grid m') =
      length (modify_node make_barrier (0, 1)%nat
                (prepared_grid 3 (0, 0)%nat (2, 2)%nat [(1, 1)%nat])).
Proof.
  apply (space_run_returns (PQ := list_pq) 3 600
           {| main.grid :=
                modify_node make_barrier (0, 1)%nat
                  (prepared_grid 3 (0, 0)%nat (2, 2)%nat [(1, 1)%nat]);
              main.start_node := Some (0, 0)%nat;
              main.end_node := Some (2, 2)%nat; main.run := true |}).
  - by vm_compute.
  - by vm_compute.
  - apply roles_okb_ok. by vm_compute.
  - done.
  - done.
  - by vm_compute.
Defined.

(** ** A session before its first run *)

Lemma handle_event_fuel {PQ : PriorityQueue} (fuel : nat) (N W : Z)
    (m : main.State) (i : main.Input) (run_events : list (list Event)) :
  main.action_of i ≠ main.Space →
  main.handle_event fuel N W m i run_events
  = main.handle_event 0 N W m i run_events.
Proof. unfold main.handle_event. by destruct (main.action_of i). Qed.

Lemma initial_state_of_main (N W : Z) :
  0 < N →
  ∃ m, main.initial N W = Ok m ∧
       main.roles_ok m ∧ consistent (main.grid m) = true ∧
       main.no_neighbors (main.grid m) = true ∧
       length (main.grid m) = Z.to_nat N ∧ main.run m = true.
Proof.
  intros HN.
  destruct (create_grid_consistent N W HN) as (g & Hg & Hlen & Hc & Hnodes).
  unfold main.initial. rewrite Hg. simpl. eexists. split; [done|]. simpl.
  split_and!; try done.
  - split; intros r; simpl; (split; [done|]); unfold color_at;
      destruct (get_node g r) as [n|] eqn:Hn; try done;
      destruct (Hnodes r n Hn) as (Hw & _); simpl; rewrite Hw;
      intros H; by vm_compute in H.
  - apply all_nodes_intro. intros r n Hn.
    destruct (Hnodes r n Hn) as (_ & Hnb & _). by apply bool_decide_eq_true.
Qed.

Section Session.
Context {PQ : PriorityQueue}.
Variables (N W : Z).
Hypothesis HN : 0 < N.
Hypothesis HW : 0 < W.
Hypothesis Hmod : W `mod` N = 0.

Lemma edit_step (m : main.State) (i : main.Input)
    (run_events : list (list Event)) :
  editable N m →
  main.in_window W i → main.action_of i ≠ main.Space →
  ∃ m', (∀ fuel, main.handle_event fuel N W m i run_events = main.Next m') ∧
        editable N m'.
Proof.
  intros (Hroles & Hc & Hnn & Hlen) Hwin Hact.
  destruct (edit_in_window 0 N W m i run_events HN HW Hmod Hc Hlen Hwin Hact)
    as [m' Hm'].
  exists m'. split.
  - intros fuel. by rewrite handle_event_fuel.
  - destruct (edit_grid 0 N W m m' i run_events Hc Hact Hm')
      as (Hc' & Hlen' & Hnn' & _).
    split_and!.
    + by apply (edit_roles 0 N W m m' i run_events).
    + done.
    + by apply Hnn'.
    + by rewrite Hlen'.
Qed.

Lemma edit_batch (batch : list (main.Input * list (list Event))) :
  edits W batch →
  ∀ m, editable N m →
  ∃ m', (∀ fuel, main.handle_events fuel N W m batch = main.Next m') ∧
        editable N m'.
Proof.
  induction 1 as [|[i run_events] batch [Hwin Hact] _ IH]; intros m Hm.
  - by exists m.
  - destruct (edit_step m i run_events Hm Hwin Hact) as (m1 & Hstep & Hm1).
    destruct (IH m1 Hm1) as (m' & Hrest & Hm').
    exists m'. split; [|done]. intros fuel. simpl. by rewrite Hstep.
Qed.

Lemma edit_batches (batches : list (list (main.Input * list (list Event)))) :
  Forall (edits W) batches →
  ∀ m, editable N m →
  ∃ m', (∀ fuel, main.loop fuel N W m batches = main.Next m') ∧
        editable N m'.
Proof.
  induction 1 as [|batch batches Hbatch _ IH]; intros m Hm.
  - by exists m.
  - simpl. destruct (main.run m); [|by exists m].
    destruct (edit_batch batch Hbatch m Hm) as (m1 & Hstep & Hm1).
    destruct (IH m1 Hm1) as (m' & Hrest & Hm').
    exists m'. split; [|done]. intros fuel. by rewrite Hstep.
Qed.

End Session.

(** Before the first SPACE, [main] cannot fail: with a window width that is
    a positive multiple of [NUM_ROWS], whatever clicks over the window and
    whatever keys other than SPACE the batches of events hold, [main]
    raises no exception; at every point the start node and the end node are
    the nodes with the start and the end colour, the grid is a square of
    [NUM_ROWS] rows of nodes that know their place, and no node has a
    neighbour in its list. *)
Theorem session_before_first_run {PQ : PriorityQueue} (W : Z)
    (batches : list (list (main.Input * list (list Event)))) :
  0 < W → W `mod` NUM_ROWS = 0 →
  Forall (Forall (λ x, main.in_window W x.1 ∧
                       main.action_of x.1 ≠ main.Space)) batches →
  ∃ m, (∀ fuel, main.main fuel W batches = main.Next m) ∧
       main.roles_ok m ∧ consistent (main.grid m) = true ∧
       main.no_neighbors (main.grid m) = true ∧
       length (main.grid m) = Z.to_nat NUM_ROWS.
Proof.
  intros HW Hmod Hedits.
  destruct (initial_state_of_main NUM_ROWS W ltac:(done))
    as (m0 & Hinit & Hroles & Hc & Hnn & Hlen & _).
  destruct (edit_batches NUM_ROWS W ltac:(done) HW Hmod batches Hedits m0)
    as (m & Hloop & Hm); [done|].
  exists m. split; [|done]. intros fuel. unfold main.main.
  by rewrite Hinit.
Qed.

Lemma session_before_first_run_witness :
  ∃ m, (∀ fuel,
          main.main (PQ := list_pq) fuel SCREEN_WIDTH
            [[(main.mkInput OtherEvent true false (30, 30), [])];
             [(main.mkInput OtherEvent true false (500, 30), []);
              (main.mkInput (KEYDOWN K_r) false false (0, 0), [])];
             [(main.mkInput OtherEvent false true (30, 30), [])]]
          = main.Next m) ∧
       main.roles_ok m ∧ consistent (main.grid m) = true ∧
       main.no_neighbors (main.grid m) = true ∧
       length (main.grid m) = Z.to_nat NUM_ROWS.
Proof.
  apply (session_before_first_run (PQ := list_pq)).
  - by vm_compute.
  - by vm_compute.
  - repeat (apply Forall_cons; split); try apply Forall_nil;
      by vm_compute.
Defined.

(** ** Whole sessions *)

Lemma space_without_end_points {PQ : PriorityQueue} (fuel : nat) (N W : Z)
    (m : main.State) (i : main.Input) (run_events : list (list Event)) :
  consistent (main.grid m) = true →
  main.start_node m = None ∨ main.end_node m = None →
  main.action_of i = main.Space →
  main.handle_event fuel N W m i run_events = main.Raises AttributeError.
Proof.
  intros Hc Hnone Hact.
  destruct (reset_for_new_run_result _ Hc) as (g' & Hprun & _).
  unfold main.handle_event. rewrite Hact.
  unfold main.press_space, on_space. rewrite Hprun.
  unfold mbind, res_bind, generate_path.
  destruct Hnone as [-> | ->]; [done|].
  by destruct (main.start_node m).
Qed.

Section Sessions.
Context {PQ : PriorityQueue}.
Variables (N W : Z).
Hypothesis HN : 0 < N.
Hypothesis HW : 0 < W.
Hypothesis Hmod : W `mod` N = 0.

Lemma any_step (m : main.State) (i : main.Input)
    (run_events : list (list Event)) :
  coherent N m → main.in_window W i →
  ends_well N (λ fuel, main.handle_event fuel N W m i run_events).
Proof.
  intros (Hroles & Hc & Hw & Hlen) Hwin.
  assert (main.action_of i = main.Space ∨ main.action_of i ≠ main.Space)
    as [Hact|Hact] by (destruct (main.action_of i); auto).
  - destruct (main.start_node m) as [s|] eqn:Hs;
      [destruct (main.end_node m) as [e|] eqn:He|].
    + destruct (space_run N W m s e i run_events Hc Hw Hroles Hs He Hact)
        as (n & m' & Hrun & _ & _ & _ & Hroles' & Hc' & Hw' & Hlen').
      exists n, (main.Next m'). split; [done|]. right. exists m'.
      split; [done|]. split_and!; try done. by rewrite Hlen'.
    + exists 0%nat, (main.Raises AttributeError). split; [|by left].
      intros fuel _. apply space_without_end_points; auto.
    + exists 0%nat, (main.Raises AttributeError). split; [|by left].
      intros fuel _. apply space_without_end_points; auto.
  - destruct (edit_in_window 0 N W m i run_events HN HW Hmod Hc Hlen Hwin Hact)
      as [m' Hm'].
    exists 0%nat, (main.Next m'). split.
    { intros fuel _. by rewrite handle_event_fuel. }
    right. exists m'. split; [done|].
    destruct (edit_grid 0 N W m m' i run_events Hc Hact Hm')
      as (Hc' & Hlen' & _ & Hw').
    split_and!.
    + by apply (edit_roles 0 N W m m' i run_events).
    + done.
    + by apply Hw'.
    + by rewrite Hlen'.
Qed.

Lemma any_batch (batch : list (main.Input * list (list Event))) :
  Forall (λ x, main.in_window W x.1) batch →
  ∀ m, coherent N m →
  ends_well N (λ fuel, main.handle_events fuel N W m batch).
Proof.
  induction 1 as [|[i run_events] batch Hwin _ IH]; intros m Hm.
  - exists 0%nat, (main.Next m). split; [done|]. right. by exists m.
  - destruct (any_step m i run_events Hm Hwin)
      as (n1 & r1 & Hstep & [-> | (m1 & -> & Hm1)]).
    + exists n1, (main.Raises AttributeError). split; [|by left].
      intros fuel Hfuel. simpl. by rewrite Hstep.
    + destruct (IH m1 Hm1) as (n2 & r2 & Hrest & Hr2).
      exists (n1 `max` n2)%nat, r2. split; [|done].
      intros fuel Hfuel. simpl. rewrite Hstep by lia. apply Hrest. lia.
Qed.

Lemma any_batches (batches : list (list (main.Input * list (list Event)))) :
  Forall (Forall (λ x, main.in_window W x.1)) batches →
  ∀ m, coherent N m →
  ends_well N (λ fuel, main.loop fuel N W m batches).
Proof.
  induction 1 as [|batch batches Hbatch _ IH]; intros m Hm.
  - exists 0%nat, (main.Next m). split; [done|]. right. by exists m.
  - simpl. destruct (main.run m).
    2: { exists 0%nat, (main.Next m). split; [done|]. right. by exists m. }
    destruct (any_batch batch Hbatch m Hm)
      as (n1 & r1 & Hstep & [-> | (m1 & -> & Hm1)]).
    + exists n1, (main.Raises AttributeError). split; [|by left].
      intros fuel Hfuel. by rewrite Hstep.
    + destruct (IH m1 Hm1) as (n2 & r2 & Hrest & Hr2).
      exists (n1 `max` n2)%nat, r2. split; [|done].
      intros fuel Hfuel. rewrite Hstep by lia. apply Hrest. lia.
Qed.

End Sessions.

(** The only exception [main] can raise is the [AttributeError] of a SPACE
    without a start node or an end node.  With a window width that is a
    positive multiple of [NUM_ROWS], for any batches of events with the
    mouse over the window, searches included, [main] either raises this
    exception or handles all the batches, every search ending; it then is
    in a state where the start node and the end node are the nodes with
    the start and the end colour and the grid is a consistent, wired square
    of [NUM_ROWS] rows. *)
Theorem main_fails_only_without_end_points {PQ : PriorityQueue} (W : Z)
    (batches : list (list (main.Input * list (list Event)))) :
  0 < W → W `mod` NUM_ROWS = 0 →
  Forall (Forall (λ x, main.in_window W x.1)) batches →
  ∃ n r, (∀ fuel, (n ≤ fuel)%nat → main.main fuel W batches = r) ∧
         (r = main.Raises AttributeError ∨
          ∃ m, r = main.Next m ∧ coherent NUM_ROWS m).
Proof.
  intros HW Hmod Hin.
  destruct (initial_state_of_main NUM_ROWS W ltac:(done))
    as (m0 & Hinit & Hroles & Hc & Hnn & Hlen & _).
  assert (coherent NUM_ROWS m0) as Hm0.
  { split_and!; try done. apply wired_intro. intros r n Hn.
    destruct (consistent_node _ _ _ Hc Hn) as (? & ? & _).
    split_and!; try done. intros v Hv.
    apply (all_nodes_get _ _ _ _ Hnn) in Hn.
    apply bool_decide_eq_true in Hn. rewrite Hn in Hv.
    by apply elem_of_nil in Hv. }
  destruct (any_batches NUM_ROWS W ltac:(done) HW Hmod batches Hin m0 Hm0)
    as (n & r & Hrun & Hr).
  exists n, r. split; [|done]. intros fuel Hfuel. unfold main.main.
  rewrite Hinit. by apply Hrun.
Qed.

Lemma main_fails_only_without_end_points_witness :
  ∃ n r,
    (∀ fuel, (n ≤ fuel)%nat →
       main.main (PQ := list_pq) fuel SCREEN_WIDTH
         [[(main.mkInput OtherEvent true false (30, 30), [])];
          [(main.mkInput OtherEvent true false (500, 30), []);
           (main.mkInput (KEYDOWN K_SPACE) false false (0, 0),
            [[]; [OtherEvent]; [KEYDOWN K_q]])];
          [(main.mkInput OtherEvent true false (30, 60), []);
           (main.mkInput (KEYDOWN K_SPACE) false false (0, 0), [])]] = r) ∧
    (r = main.Raises AttributeError ∨
     ∃ m, r = main.Next m ∧ coherent NUM_ROWS m).
Proof.
  apply (main_fails_only_without_end_points (PQ := list_pq)).
  - by vm_compute.
  - by vm_compute.
  - repeat (apply Forall_cons; split); try apply Forall_nil;
      by vm_compute.
Defined.

(** ** The states of a node *)

(** The six states of a node exclude one another: after each [make_...]
    exactly the test of the same name answers [True], whatever the node was
    before, and after [reset] none does.  Each line gives, for one of
    [make_closed], [make_open], [make_barrier], [make_start], [make_end],
    [make_path] and [reset], the answers of [is_closed], [is_open],
    [is_barrier], [is_start], [is_end] and [is_path]. *)
Theorem node_states_exclude_one_another (n : Node) :
  (λ change : Node → Node,
     (λ test : Node → bool, test (change n))
     <$> [is_closed; is_open; is_barrier; is_start; is_end; is_path])
  <$> [make_closed; make_open; make_barrier; make_start; make_end; make_path;
       reset]
  = [[true; false; false; false; false; false];
     [false; true; false; false; false; false];
     [false; false; true; false; false; false];
     [false; false; false; true; false; false];
     [false; false; false; false; true; false];
     [false; false; false; false; false; true];
     [false; false; false; false; false; false]].
Proof. reflexivity. Qed.
